(** * image-bits: shade ramps, brightness quantisation and cell rendering

    A shallow embedding of the two scripts of the repository,
    [ascii/gen_ascii.py] (the glyph variant) and [shader/gen_shader.py]
    (the block variant), together with the properties their specification
    states about them.

    Python integers are [Z]; Python floats are IEEE-754 binary64 values,
    taken from the executable specification [SpecFloat] of the standard
    library (precision 53, exponent bound 1024, round to nearest even), so
    that every arithmetic step of the scripts can be evaluated exactly as
    CPython evaluates it.  Exceptions are an explicit result type. *)

From Stdlib Require Import ZArith List String Ascii Bool Lia.
From Stdlib Require Import QArith Qpower Qround Lqa.
From Stdlib Require Import SpecFloat FinFun.
Import ListNotations.
Open Scope Z_scope.

(** ** Exceptions and results *)

(** The text carried by an exception: a fixed message of the scripts, or
    the message [int()] builds from the literal it could not read. *)
Inductive message : Type :=
| Text (s : string)
| InvalidLiteral (base : Z) (literal : string).

Inductive exn : Type :=
| ValueError (msg : message)
| OverflowError
| ZeroDivisionError
| IndexError
| FileNotFoundError
| OSError
| TypeError (mentions_anchor : bool)
| AttributeError
| OtherError (name : string).

(** The classes the handlers of the scripts name: [except ValueError],
    [except IOError] (an alias of [OSError], of which [FileNotFoundError]
    is a subclass), [except FileNotFoundError] and [except TypeError];
    [except Exception] takes every exception modelled here. *)
Definition is_ValueError (e : exn) : bool :=
  match e with ValueError _ => true | _ => false end.

Definition is_IOError (e : exn) : bool :=
  match e with FileNotFoundError | OSError => true | _ => false end.

Definition is_FileNotFoundError (e : exn) : bool :=
  match e with FileNotFoundError => true | _ => false end.

Definition is_TypeError (e : exn) : bool :=
  match e with TypeError _ => true | _ => false end.

Inductive result (A : Type) : Type :=
| Ok (a : A)
| Raise (e : exn).

Arguments Ok {A} a.
Arguments Raise {A} e.

Definition bind {A B : Type} (r : result A) (k : A -> result B) : result B :=
  match r with
  | Ok a => k a
  | Raise e => Raise e
  end.

Notation "x <- r ;; k" := (bind r (fun x => k))
  (at level 61, r at next level, right associativity).

Fixpoint mapM {A B : Type} (f : A -> result B) (l : list A) : result (list B) :=
  match l with
  | [] => Ok []
  | a :: l' => b <- f a ;; bs <- mapM f l' ;; Ok (b :: bs)
  end.

(** [range(n)] and [range(a, b)] of Python, as lists of integers. *)
Definition range2 (a b : Z) : list Z :=
  map (fun j => a + Z.of_nat j) (seq 0 (Z.to_nat (b - a))).

Definition range (n : Z) : list Z := range2 0 n.

(** ** Python numbers: binary64 floats and mixed arithmetic *)

Module PyFloat.

Definition prec : Z := 53.
Definition emax : Z := 1024.

Definition float : Type := spec_float.

Definition fadd : float -> float -> float := SFadd prec emax.
Definition fsub : float -> float -> float := SFsub prec emax.
Definition fmul : float -> float -> float := SFmul prec emax.

Definition is_zero (f : float) : bool :=
  match f with
  | S754_zero _ => true
  | _ => false
  end.

(** [float(z)] for an integer: correctly rounded, [OverflowError] when the
    integer is too large for a double. *)
Definition float_of_int (z : Z) : result float :=
  match binary_normalize prec emax z 0 false with
  | S754_infinity _ => Raise OverflowError
  | f => Ok f
  end.

(** [x / y] on floats: division by a zero raises, anything else is the
    IEEE quotient. *)
Definition float_div (x y : float) : result float :=
  if is_zero y then Raise ZeroDivisionError else Ok (SFdiv prec emax x y).

(** An integer as an unnormalised mantissa with exponent 0. *)
Definition raw (z : Z) : float :=
  match z with
  | Z0 => S754_zero false
  | Zpos p => S754_finite false p 0
  | Zneg p => S754_finite true p 0
  end.

(** [a / b] on two integers: the correctly rounded quotient. *)
Definition int_truediv (a b : Z) : result float :=
  if b =? 0 then Raise ZeroDivisionError
  else match SFdiv prec emax (raw a) (raw b) with
       | S754_infinity _ => Raise OverflowError
       | f => Ok f
       end.

(** [int(f)]: truncation toward zero. *)
Definition int_of_float (f : float) : result Z :=
  match f with
  | S754_zero _ => Ok 0
  | S754_nan => Raise (ValueError (Text "cannot convert float NaN to integer"))
  | S754_infinity _ => Raise OverflowError
  | S754_finite s m e => Ok (cond_Zopp s (Z.shiftl (Zpos m) e))
  end.

(** Exact comparison of an integer with a float, as CPython compares
    them (no conversion of the integer). *)
Definition compare_int_float (i : Z) (f : float) : option comparison :=
  match f with
  | S754_nan => None
  | S754_infinity s => Some (if s then Gt else Lt)
  | S754_zero _ => Some (i ?= 0)
  | S754_finite s m e =>
      Some (if 0 <=? e then i ?= cond_Zopp s (Zpos m * 2 ^ e)
            else i * 2 ^ (- e) ?= cond_Zopp s (Zpos m))
  end.

(** A Python number is an [int] or a [float]. *)
Inductive num : Type :=
| PInt (z : Z)
| PFloat (f : float).

Definition to_float (a : num) : result float :=
  match a with
  | PInt z => float_of_int z
  | PFloat f => Ok f
  end.

Definition add (a b : num) : result num :=
  match a, b with
  | PInt x, PInt y => Ok (PInt (x + y))
  | _, _ => x <- to_float a ;; y <- to_float b ;; Ok (PFloat (fadd x y))
  end.

Definition sub (a b : num) : result num :=
  match a, b with
  | PInt x, PInt y => Ok (PInt (x - y))
  | _, _ => x <- to_float a ;; y <- to_float b ;; Ok (PFloat (fsub x y))
  end.

Definition mul (a b : num) : result num :=
  match a, b with
  | PInt x, PInt y => Ok (PInt (x * y))
  | _, _ => x <- to_float a ;; y <- to_float b ;; Ok (PFloat (fmul x y))
  end.

Definition truediv (a b : num) : result num :=
  match a, b with
  | PInt x, PInt y => f <- int_truediv x y ;; Ok (PFloat f)
  | _, _ => x <- to_float a ;; y <- to_float b ;;
            f <- float_div x y ;; Ok (PFloat f)
  end.

(** [int(a)]. *)
Definition to_int (a : num) : result Z :=
  match a with
  | PInt z => Ok z
  | PFloat f => int_of_float f
  end.

Definition compare (a b : num) : option comparison :=
  match a, b with
  | PInt x, PInt y => Some (x ?= y)
  | PInt x, PFloat f => compare_int_float x f
  | PFloat f, PInt y => option_map CompOpp (compare_int_float y f)
  | PFloat f, PFloat g => SFcompare f g
  end.

Definition lt (a b : num) : bool :=
  match compare a b with
  | Some Lt => true
  | _ => false
  end.

Definition gt (a b : num) : bool :=
  match compare a b with
  | Some Gt => true
  | _ => false
  end.

(** The float literals of the scripts, as the doubles CPython parses. *)
Definition f0_1 : float := S754_finite false 7205759403792794 (-56).
Definition f0_25 : float := S754_finite false 4503599627370496 (-54).
Definition f0_3 : float := S754_finite false 5404319552844595 (-54).
Definition f0_75 : float := S754_finite false 6755399441055744 (-53).
Definition f0_85 : float := S754_finite false 7656119366529843 (-53).
Definition f0_5 : float := S754_finite false 4503599627370496 (-53).
Definition f1_0 : float := S754_finite false 4503599627370496 (-52).
Definition f2_0 : float := S754_finite false 4503599627370496 (-51).
Definition f256_0 : float := S754_finite false 4503599627370496 (-44).

End PyFloat.

Import PyFloat.

(** ** Strings: [lstrip('#')] and [int(s, 16)] *)

Definition code (c : ascii) : Z := Z.of_N (N_of_ascii c).

(** Characters that [int()] skips around a literal: the six white-space
    characters of ASCII that C's [isspace] knows (the separators 28 to 31
    are not among them), and the two white-space characters above 127,
    which [int()] turns into blanks before it reads the literal. *)
Definition is_space (c : ascii) : bool :=
  let n := code c in
  ((9 <=? n) && (n <=? 13)) || (n =? 32) || (n =? 133) || (n =? 160).

Definition hex_digit (c : ascii) : option Z :=
  let n := code c in
  if (48 <=? n) && (n <=? 57) then Some (n - 48)
  else if (97 <=? n) && (n <=? 102) then Some (n - 87)
  else if (65 <=? n) && (n <=? 70) then Some (n - 55)
  else None.

Definition is_char (k : Z) (c : ascii) : bool := code c =? k.

Fixpoint lstrip_hash (s : string) : string :=
  match s with
  | String c s' => if is_char 35 c then lstrip_hash s' else s
  | EmptyString => s
  end.

Fixpoint skip_space (s : string) : string :=
  match s with
  | String c s' => if is_space c then skip_space s' else s
  | EmptyString => s
  end.

(** The digit scan of [int()]: hexadecimal digits with single underscores
    between them; returns the value and the unread rest. *)
Fixpoint scan_digits (s : string) (prev_us seen : bool) (acc : Z)
  : option (Z * string) :=
  match s with
  | EmptyString => if prev_us || negb seen then None else Some (acc, s)
  | String c s' =>
      match hex_digit c with
      | Some d => scan_digits s' false true (16 * acc + d)
      | None =>
          if is_char 95 c
          then (if prev_us then None else scan_digits s' true seen acc)
          else if prev_us || negb seen then None else Some (acc, s)
      end
  end.

Definition skip_sign (s : string) : bool * string :=
  match s with
  | String c s' =>
      if is_char 43 c then (false, s')
      else if is_char 45 c then (true, s')
      else (false, s)
  | EmptyString => (false, s)
  end.

Definition skip_prefix16 (s : string) : string :=
  match s with
  | String c0 (String c1 s') =>
      if is_char 48 c0 && (is_char 120 c1 || is_char 88 c1)
      then match s' with
           | String c2 s'' => if is_char 95 c2 then s'' else s'
           | EmptyString => s'
           end
      else s
  | _ => s
  end.

Definition starts_with_underscore (s : string) : bool :=
  match s with
  | String c _ => is_char 95 c
  | EmptyString => false
  end.

(** [int(s, 16)]. *)
Definition int16 (s : string) : result Z :=
  let '(neg, s1) := skip_sign (skip_space s) in
  let s2 := skip_prefix16 s1 in
  if starts_with_underscore s2
  then Raise (ValueError (InvalidLiteral 16 s))
  else match scan_digits s2 false false 0 with
       | Some (v, rest) =>
           match skip_space rest with
           | EmptyString => Ok (if neg then - v else v)
           | String _ _ => Raise (ValueError (InvalidLiteral 16 s))
           end
       | None => Raise (ValueError (InvalidLiteral 16 s))
       end.

(** ** Colors *)

Definition color : Type := (Z * Z * Z)%type.

Definition len {A : Type} (l : list A) : Z := Z.of_nat (List.length l).
Definition strlen (s : string) : Z := Z.of_nat (String.length s).

(** [s[i:i+2]] for a non-negative [i]. *)
Definition slice2 (s : string) (i : nat) : string := substring i 2 s.

(** [hex_to_rgb] is the same function, word for word, in both scripts. *)
Definition hex_to_rgb (hex_color : string) : result color :=
  let hex_color := lstrip_hash hex_color in
  if negb (strlen hex_color =? 6)
  then Raise (ValueError (Text "Invalid hex color format. Use #RRGGBB."))
  else r <- int16 (slice2 hex_color 0) ;;
       g <- int16 (slice2 hex_color 2) ;;
       b <- int16 (slice2 hex_color 4) ;;
       Ok (r, g, b).

(** [int(a + (b - a) * t)], the interpolation step both scripts repeat for
    every channel. *)
Definition lerp (a b : Z) (t : num) : result Z :=
  d <- sub (PInt b) (PInt a) ;;
  p <- mul d t ;;
  s <- add (PInt a) p ;;
  to_int s.

(** [int(c * k)]. *)
Definition scale (c : Z) (k : num) : result Z :=
  p <- mul (PInt c) k ;; to_int p.

(** [int(x * k)] for a number [x]. *)
Definition scale_num (x k : num) : result Z :=
  p <- mul x k ;; to_int p.

Definition clamp (r : Z) : Z := Z.min (Z.max 0 r) 255.

(** ** Lists and strings indexed as Python indexes them *)

(** [l[k]]: a negative index counts from the end, an index out of range
    raises. *)
Definition list_get {A : Type} (l : list A) (k : Z) : result A :=
  let k' := if k <? 0 then k + len l else k in
  if k' <? 0 then Raise IndexError
  else match nth_error l (Z.to_nat k') with
       | Some a => Ok a
       | None => Raise IndexError
       end.

Definition str_get (s : string) (k : Z) : result ascii :=
  let k' := if k <? 0 then k + strlen s else k in
  if k' <? 0 then Raise IndexError
  else match String.get (Z.to_nat k') s with
       | Some a => Ok a
       | None => Raise IndexError
       end.

(** ** The imaging library

    Pillow is not part of the repository.  Its canvas is modelled by what
    the scripts use of it: a size and the color of every pixel;
    [Image.new] fills the canvas with one color and [ImageDraw.rectangle]
    paints the pixels of an inclusive box. *)

Record canvas : Type := {
  cwidth : Z;
  cheight : Z;
  pixel : Z -> Z -> color
}.

Definition image_new (w h : Z) (fill : color) : result canvas :=
  if (w <? 0) || (h <? 0)
  then Raise (ValueError (Text "Width and height must be >= 0"))
  else Ok {| cwidth := w; cheight := h; pixel := fun _ _ => fill |}.

Definition in_box (x0 y0 x1 y1 x y : Z) : bool :=
  (x0 <=? x) && (x <=? x1) && (y0 <=? y) && (y <=? y1).

Definition rectangle (cv : canvas) (x0 y0 x1 y1 : Z) (fill : color)
  : result canvas :=
  if (x1 <? x0) || (y1 <? y0)
  then Raise (ValueError (Text "x1 must be greater than or equal to x0"))
  else Ok {| cwidth := cwidth cv; cheight := cheight cv;
             pixel := fun x y => if in_box x0 y0 x1 y1 x y then fill
                                 else pixel cv x y |}.

(** A loaded font, and a source image: its size, and the grid of
    brightness values that posterising to [bits] bits (0: not at all),
    converting to grayscale and resampling to [w] by [h] cells gives. *)
Record font : Type := { font_name : string; font_size : Z }.

Record source : Type := {
  size : Z * Z;
  gray_resized : forall (bits w h : Z), result (Z -> Z -> Z)
}.

(** What a run finds outside the program: files, fonts, and the text
    rasteriser.  [draw_text] is [draw.text] with [anchor="mm"],
    [draw_text_legacy] is [draw.text] without an anchor; [has_getbbox],
    [has_getsize] and [has_getmetrics] are what [hasattr] says of a font,
    and [getbbox], [getsize] and [getmetrics] its methods. *)
Record world : Type := {
  image_open : string -> result source;
  truetype : string -> Z -> result font;
  load_default : font;
  char_estimate : font -> Z -> num * num;
  draw_text : font -> canvas -> num -> num -> ascii -> color -> result canvas;
  draw_text_legacy :
    font -> canvas -> num -> num -> ascii -> color -> result canvas;
  has_getbbox : font -> bool;
  getbbox : font -> ascii -> result (num * num * num * num);
  has_getsize : font -> bool;
  getsize : font -> ascii -> result (num * num);
  has_getmetrics : font -> bool;
  getmetrics : font -> result (num * num);
  image_save : string -> canvas -> result unit
}.

(** ** Output and effects

    What a run prints, and which calls it makes on the outside, is kept as
    a list of events next to the result of the computation. *)

Inductive event : Type :=
| Print (s : string)
| PrintExn (prefix : string) (e : exn)
| PrintQuoted (prefix path suffix : string)
| PrintGenerated (n : Z) (shades : list color)
| FontLoad (name : string) (size : Z)
| FontDefault
| ImageOpen (path : string)
| ImageSave (path : string) (cv : canvas)
| DrawRectangle (x0 y0 x1 y1 : Z) (fill : color)
| DrawText (x y : num) (glyph : ascii) (fill : color)
| DrawTextUnanchored (x y : num) (glyph : ascii) (fill : color)
| PrintDrawWarning (glyph : ascii) (x y : Z) (e : exn).

Definition io (A : Type) : Type := (list event * result A)%type.

Definition ret {A : Type} (a : A) : io A := ([], Ok a).

Definition lift {A : Type} (r : result A) : io A := ([], r).

Definition emit (e : event) : io unit := ([e], Ok tt).

Definition iobind {A B : Type} (m : io A) (k : A -> io B) : io B :=
  match m with
  | (out, Ok a) => let '(out', r) := k a in (out ++ out', r)
  | (out, Raise e) => (out, Raise e)
  end.

Notation "x <~ m ;; k" := (iobind m (fun x => k))
  (at level 61, m at next level, right associativity).

(** [try: x = m / except ... : handler; return], followed by [k x]: the
    handler, when it takes the exception, ends the whole function. *)
Definition try_or_return {A : Type} (m : io A)
    (handler : exn -> option (io unit)) (k : A -> io unit) : io unit :=
  match m with
  | (out, Ok a) => let '(out', r) := k a in (out ++ out', r)
  | (out, Raise e) =>
      match handler e with
      | Some h => let '(out', r) := h in (out ++ out', r)
      | None => (out, Raise e)
      end
  end.

(** [try: x = m / except ... : x = handler], the run going on. *)
Definition try_except {A : Type} (m : io A) (handler : exn -> option (io A))
  : io A :=
  match m with
  | (out, Raise e) =>
      match handler e with
      | Some h => let '(out', r) := h in (out ++ out', r)
      | None => (out, Raise e)
      end
  | _ => m
  end.

Fixpoint iofold {A S : Type} (f : S -> A -> io S) (l : list A) (s : S)
  : io S :=
  match l with
  | [] => ret s
  | a :: l' => s' <~ f s a ;; iofold f l' s'
  end.

(** The cells of a [w] by [h] grid in the order of the two nested loops,
    rows outside. *)
Definition cells (w h : Z) : list (Z * Z) :=
  flat_map (fun y => map (fun x => (x, y)) (range w)) (range h).

(** ** The glyph variant: [ascii/gen_ascii.py] *)

Module Ascii.

(** The body of the loop of [generate_shades] over the foreground
    indices. *)
Definition generate_shades_body (base_rgb bg : color)
    (num_foreground_shades base_target_fg_idx i : Z) : result color :=
  let '(base_r, base_g, base_b) := base_rgb in
  let '(bg_r, bg_g, bg_b) := bg in
  dark_fg_start_r <- lerp bg_r base_r (PFloat f0_3) ;;
  dark_fg_start_g <- lerp bg_g base_g (PFloat f0_3) ;;
  dark_fg_start_b <- lerp bg_b base_b (PFloat f0_3) ;;
  light_fg_end_r <- lerp base_r 255 (PFloat f0_85) ;;
  light_fg_end_g <- lerp base_g 255 (PFloat f0_85) ;;
  light_fg_end_b <- lerp base_b 255 (PFloat f0_85) ;;
  rgb <- (if i <? base_target_fg_idx then
            t <- (if base_target_fg_idx >? 0
                  then truediv (PInt i) (PInt base_target_fg_idx)
                  else Ok (PInt 0)) ;;
            r <- lerp dark_fg_start_r base_r t ;;
            g <- lerp dark_fg_start_g base_g t ;;
            b <- lerp dark_fg_start_b base_b t ;;
            Ok (r, g, b)
          else if i =? base_target_fg_idx then Ok (base_r, base_g, base_b)
          else
            let steps_in_segment :=
              (num_foreground_shades - 1) - base_target_fg_idx in
            let current_step_in_segment := i - base_target_fg_idx in
            t <- (if steps_in_segment >? 0
                  then truediv (PInt current_step_in_segment)
                               (PInt steps_in_segment)
                  else Ok (PInt 0)) ;;
            r <- lerp base_r light_fg_end_r t ;;
            g <- lerp base_g light_fg_end_g t ;;
            b <- lerp base_b light_fg_end_b t ;;
            Ok (r, g, b)) ;;
  let '(r, g, b) := rgb in
  Ok (clamp r, clamp g, clamp b).

Definition generate_shades (base_rgb : color) (num_total_shades : Z)
    (bg_brightness_factor : num) : result (list color) :=
  if num_total_shades <? 2
  then Raise (ValueError (Text
    "Total number of shades must be at least 2 (background + one foreground)."))
  else
    let '(base_r, base_g, base_b) := base_rgb in
    bg_r <- scale base_r bg_brightness_factor ;;
    bg_g <- scale base_g bg_brightness_factor ;;
    bg_b <- scale base_b bg_brightness_factor ;;
    let shades := [(bg_r, bg_g, bg_b)] in
    let num_foreground_shades := num_total_shades - 1 in
    if num_foreground_shades =? 0 then Ok shades
    else if num_foreground_shades =? 1 then Ok (shades ++ [base_rgb])
    else
      let base_target_fg_idx := (num_foreground_shades - 1) / 2 in
      fg <- mapM (generate_shades_body base_rgb (bg_r, bg_g, bg_b)
                    num_foreground_shades base_target_fg_idx)
                 (range num_foreground_shades) ;;
      Ok (shades ++ fg).

(** The default of [bg_brightness_factor]. *)
Definition bg_brightness_factor : num := PFloat f0_1.

(** [grayscale_step], computed once before the cell loop. *)
Definition grayscale_step (num_foreground_levels : Z) : result num :=
  if num_foreground_levels >? 0
  then truediv (PFloat f256_0) (PInt num_foreground_levels)
  else Ok (PFloat f256_0).

(** [element_idx] of one cell. *)
Definition element_idx (num_foreground_levels : Z) (grayscale_step : num)
    (brightness : Z) : result Z :=
  if num_foreground_levels >? 0
  then q <- truediv (PInt brightness) grayscale_step ;;
       k <- to_int q ;;
       Ok (Z.min k (num_foreground_levels - 1))
  else Ok 0.

(** [output_grid_height_chars]. *)
Definition output_grid_height_chars
    (original_width_px original_height_px output_width_chars : Z)
    (aspect_ratio_correction : num) : result Z :=
  image_vertical_aspect <-
    (if original_width_px >? 0
     then truediv (PInt original_height_px) (PInt original_width_px)
     else Ok (PFloat f1_0)) ;;
  p <- mul (PInt output_width_chars) image_vertical_aspect ;;
  q <- truediv p aspect_ratio_correction ;;
  h <- to_int q ;;
  Ok (if h <? 1 then 1 else h).

Definition common_fonts : list string :=
  ["DejaVuSansMono.ttf"; "Consolas"; "Courier New"; "Menlo";
   "LiberationMono-Regular.ttf"]%string.

(** The loop over [common_fonts]: the first font that loads is taken, an
    [IOError] moves on to the next name. *)
Fixpoint try_fonts (w : world) (names : list string) (font_size : Z)
  : io (option font) :=
  match names with
  | [] => ret None
  | fname :: rest =>
      _ <~ emit (FontLoad fname font_size) ;;
      match truetype w fname font_size with
      | Ok f => ret (Some f)
      | Raise e => if is_IOError e then try_fonts w rest font_size
                   else lift (Raise e)
      end
  end.

Definition truthy (s : option string) : bool :=
  match s with
  | Some (String _ _) => true
  | _ => false
  end.

Definition load_font (w : world) (font_path : option string) (font_size : Z)
  : io font :=
  try_except
    (if truthy font_path then
       let path := match font_path with Some p => p | None => EmptyString end in
       _ <~ emit (FontLoad path font_size) ;;
       lift (truetype w path font_size)
     else
       loaded <~ try_fonts w common_fonts font_size ;;
       match loaded with
       | Some f => ret f
       | None =>
           _ <~ emit (Print
             "Warning: Could not load a default monospaced font. Trying PIL's default bitmap font (may look suboptimal).") ;;
           _ <~ emit FontDefault ;;
           ret (load_default w)
       end)
    (fun e =>
       if is_IOError e then
         Some (_ <~ emit (PrintQuoted "Error: Could not load font from "
                 (match font_path with Some p => p | None => "None" end)
                 ". Ensure the .ttf file exists or is in system paths. Trying PIL's default.") ;;
               _ <~ emit FontDefault ;;
               ret (load_default w))
       else None).

(** Where the handler of the anchor [TypeError] puts the glyph: the
    corner [(text_x, text_y)] it computes from the metrics of the font.
    The first value of [text_y] is computed and then replaced. *)
Definition legacy_text_position (w : world) (fnt : font)
    (char_to_draw : ascii) (actual_cell_width_px actual_cell_height_px : Z)
    (cell_center_x cell_center_y : num) : result (num * num) :=
  char_bbox <- (if has_getbbox w fnt then getbbox w fnt char_to_draw
                else Ok (PInt 0, PInt 0, PInt 0, PInt 0)) ;;
  let '(bbox_0, bbox_1, bbox_2, bbox_3) := char_bbox in
  char_w <- (if has_getbbox w fnt then sub bbox_2 bbox_0
             else if has_getsize w fnt
                  then sz <- getsize w fnt char_to_draw ;; Ok (fst sz)
                  else truediv (PInt actual_cell_width_px) (PInt 2)) ;;
  char_h <- (if has_getbbox w fnt then sub bbox_3 bbox_1
             else if has_getsize w fnt
                  then sz <- getsize w fnt char_to_draw ;; Ok (snd sz)
                  else truediv (PInt actual_cell_height_px) (PInt 2)) ;;
  metrics <- (if has_getmetrics w fnt then getmetrics w fnt
              else a <- mul char_h (PFloat f0_75) ;;
                   d <- mul char_h (PFloat f0_25) ;;
                   Ok (a, d)) ;;
  let '(ascent, descent) := metrics in
  half_w <- truediv char_w (PInt 2) ;;
  text_x <- sub cell_center_x half_w ;;
  diff <- sub ascent descent ;;
  half_diff <- truediv diff (PInt 2) ;;
  above <- sub cell_center_y half_diff ;;
  _ <- sub above descent ;;
  half_h <- truediv char_h (PInt 2) ;;
  top <- sub cell_center_y half_h ;;
  text_y <- add top bbox_1 ;;
  Ok (text_x, text_y).

(** One cell of the drawing loop. *)
Definition draw_cell (w : world) (fnt : font) (charset : string)
    (shades : list color) (num_foreground_levels : Z) (grayscale_step : num)
    (skip_lightest_char_if_space : bool)
    (actual_cell_width_px actual_cell_height_px : Z)
    (grid : Z -> Z -> Z) (output_img : canvas) (xy : Z * Z) : io canvas :=
  let '(x_char_idx, y_char_idx) := xy in
  let brightness := grid x_char_idx y_char_idx in
  element_idx <~ lift (element_idx num_foreground_levels grayscale_step
                         brightness) ;;
  char_to_draw <~ lift (if num_foreground_levels >? 0
                        then str_get charset element_idx
                        else Ok " "%char) ;;
  color_for_char <~ lift (if num_foreground_levels >? 0
                          then list_get shades (element_idx + 1)
                          else list_get shades 0) ;;
  if skip_lightest_char_if_space && (element_idx =? 0)
     && Ascii.eqb char_to_draw " " && (num_foreground_levels >? 0)
  then ret output_img
  else
    cell_center_x <~ lift (
      h <- truediv (PInt actual_cell_width_px) (PInt 2) ;;
      add (PInt (x_char_idx * actual_cell_width_px)) h) ;;
    cell_center_y <~ lift (
      h <- truediv (PInt actual_cell_height_px) (PInt 2) ;;
      add (PInt (y_char_idx * actual_cell_height_px)) h) ;;
    _ <~ emit (DrawText cell_center_x cell_center_y char_to_draw
                 color_for_char) ;;
    match draw_text w fnt output_img cell_center_x cell_center_y
            char_to_draw color_for_char with
    | Ok cv => ret cv
    | Raise (TypeError true) =>
        position <~ lift (legacy_text_position w fnt char_to_draw
                            actual_cell_width_px actual_cell_height_px
                            cell_center_x cell_center_y) ;;
        let '(text_x, text_y) := position in
        _ <~ emit (DrawTextUnanchored text_x text_y char_to_draw
                     color_for_char) ;;
        lift (draw_text_legacy w fnt output_img text_x text_y char_to_draw
                color_for_char)
    | Raise (TypeError false) => lift (Raise (TypeError false))
    | Raise e =>
        _ <~ emit (PrintDrawWarning char_to_draw x_char_idx y_char_idx e) ;;
        ret output_img
    end.

Definition image_to_ascii_art (w : world) (image_path hex_color : string)
    (output_width_chars : Z) (charset : string) (font_path : option string)
    (font_size : Z) (cell_width_px cell_height_px : option Z)
    (aspect_ratio_correction : num) (posterize_bits : Z)
    (skip_lightest_char_if_space : bool) (output_path : string) : io unit :=
  try_or_return (lift (hex_to_rgb hex_color))
    (fun e => if is_ValueError e then Some (emit (PrintExn "Error: " e))
              else None)
    (fun base_rgb =>
  if (strlen charset =? 0)
  then emit (Print "Error: Character set cannot be empty.")
  else
  let num_foreground_levels := strlen charset in
  let num_total_shades := num_foreground_levels + 1 in
  try_or_return
    (lift (generate_shades base_rgb num_total_shades bg_brightness_factor))
    (fun e => if is_ValueError e
              then Some (emit (PrintExn "Error generating shades: " e))
              else None)
    (fun shades =>
  try_or_return (load_font w font_path font_size)
    (fun e => Some (emit (PrintExn
       "An unexpected error occurred while loading the font: " e)))
    (fun fnt =>
  let '(char_w_est, char_h_est) := char_estimate w fnt font_size in
  actual_cell_width_px <~ lift (match cell_width_px with
                                | Some v => Ok v
                                | None => scale_num char_w_est (PFloat f1_0)
                                end) ;;
  actual_cell_height_px <~ lift (match cell_height_px with
                                 | Some v => Ok v
                                 | None => scale_num char_h_est (PFloat f1_0)
                                 end) ;;
  let actual_cell_width_px :=
    if actual_cell_width_px <=? 0 then 1 else actual_cell_width_px in
  let actual_cell_height_px :=
    if actual_cell_height_px <=? 0 then 1 else actual_cell_height_px in
  try_or_return
    (_ <~ emit (ImageOpen image_path) ;; lift (image_open w image_path))
    (fun e => if is_FileNotFoundError e
              then Some (emit (PrintQuoted
                     "Error: Input image file not found at " image_path ""))
              else Some (emit (PrintExn "Error opening image: " e)))
    (fun img =>
  let bits := if (posterize_bits >? 0) && (posterize_bits <=? 8)
              then posterize_bits else 0 in
  let '(original_width_px, original_height_px) := size img in
  output_grid_height_chars <~ lift (output_grid_height_chars
    original_width_px original_height_px output_width_chars
    aspect_ratio_correction) ;;
  grid <~ lift (gray_resized img bits output_width_chars
                  output_grid_height_chars) ;;
  let final_img_width_px := output_width_chars * actual_cell_width_px in
  let final_img_height_px :=
    output_grid_height_chars * actual_cell_height_px in
  output_img <~ lift (bg <- list_get shades 0 ;;
                      image_new final_img_width_px final_img_height_px bg) ;;
  grayscale_step <~ lift (grayscale_step num_foreground_levels) ;;
  output_img <~ iofold
    (draw_cell w fnt charset shades num_foreground_levels grayscale_step
       skip_lightest_char_if_space actual_cell_width_px
       actual_cell_height_px grid)
    (cells output_width_chars output_grid_height_chars) output_img ;;
  _ <~ emit (ImageSave output_path output_img) ;;
  match image_save w output_path output_img with
  | Ok _ => emit (PrintQuoted "ASCII-character style art saved to "
                    output_path "")
  | Raise e => emit (PrintExn "Error saving image: " e)
  end)))).

End Ascii.

(** ** The block variant: [shader/gen_shader.py] *)

Module Shader.

(** The body of the second loop of [generate_shades]. *)
Definition generate_shades_body (base_rgb bg : color) (num_shades i : Z)
  : result color :=
  let '(base_r, base_g, base_b) := base_rgb in
  let '(bg_r, bg_g, bg_b) := bg in
  mid_point_index <- truediv (PInt (num_shades - 1)) (PFloat f2_0) ;;
  rgb <- (if lt (PInt i) mid_point_index then
            factor <- truediv (PInt i) mid_point_index ;;
            r <- lerp bg_r base_r factor ;;
            g <- lerp bg_g base_g factor ;;
            b <- lerp bg_b base_b factor ;;
            Ok (r, g, b)
          else if gt (PInt i) mid_point_index then
            n <- sub (PInt i) mid_point_index ;;
            d <- sub (PInt (num_shades - 1)) mid_point_index ;;
            factor <- truediv n d ;;
            r <- lerp base_r 255 factor ;;
            g <- lerp base_g 255 factor ;;
            b <- lerp base_b 255 factor ;;
            Ok (r, g, b)
          else Ok (base_r, base_g, base_b)) ;;
  let '(r, g, b) := rgb in
  Ok (clamp r, clamp g, clamp b).

(** The first ramp of [generate_shades], which the function builds and
    then drops by rebinding [shades]. *)
Definition first_ramp (base_rgb bg : color) (num_shades : Z)
  : result (list color) :=
  let '(base_r, base_g, base_b) := base_rgb in
  let '(bg_r, bg_g, bg_b) := bg in
  let shades := [bg] in
  let steps_to_base := (num_shades - 1) / 2 in
  shades <- (if steps_to_base >? 0 then
               l <- mapM (fun i =>
                      factor <- truediv (PInt i) (PInt (steps_to_base + 1)) ;;
                      r <- lerp bg_r base_r factor ;;
                      g <- lerp bg_g base_g factor ;;
                      b <- lerp bg_b base_b factor ;;
                      Ok (r, g, b))
                    (range2 1 (steps_to_base + 1)) ;;
               Ok (shades ++ l)
             else Ok shades) ;;
  let shades := shades ++ [base_rgb] in
  let steps_to_white := num_shades - len shades in
  if steps_to_white >? 0 then
    l <- mapM (fun i =>
           factor <- truediv (PInt i) (PInt (steps_to_white + 1)) ;;
           r <- lerp base_r 255 factor ;;
           g <- lerp base_g 255 factor ;;
           b <- lerp base_b 255 factor ;;
           Ok (Z.min r 255, Z.min g 255, Z.min b 255))
         (range2 1 (steps_to_white + 1)) ;;
    Ok (shades ++ l)
  else Ok shades.

(** [shades[0] = v]. *)
Definition set_first {A : Type} (l : list A) (v : A) : result (list A) :=
  match l with
  | [] => Raise IndexError
  | _ :: tl => Ok (v :: tl)
  end.

Definition generate_shades (base_rgb : color) (num_shades : Z)
    (bg_brightness_factor : num) : io (list color) :=
  if num_shades <? 2
  then lift (Raise (ValueError (Text "Number of shades must be at least 2.")))
  else
    let '(base_r, base_g, base_b) := base_rgb in
    shades <~ lift (
      bg_r <- scale base_r bg_brightness_factor ;;
      bg_g <- scale base_g bg_brightness_factor ;;
      bg_b <- scale base_b bg_brightness_factor ;;
      _ <- first_ramp base_rgb (bg_r, bg_g, bg_b) num_shades ;;
      shades <- mapM (generate_shades_body base_rgb (bg_r, bg_g, bg_b)
                        num_shades)
                     (range num_shades) ;;
      r0 <- scale base_r bg_brightness_factor ;;
      g0 <- scale base_g bg_brightness_factor ;;
      b0 <- scale base_b bg_brightness_factor ;;
      set_first shades (r0, g0, b0)) ;;
    _ <~ emit (PrintGenerated (len shades) shades) ;;
    ret shades.

Definition bg_brightness_factor : num := PFloat f0_1.

(** [grayscale_step], computed once before the cell loop. *)
Definition grayscale_step (num_shades : Z) : result num :=
  truediv (PInt 256) (PInt num_shades).

(** [shade_index] of one cell. *)
Definition shade_index (num_shades : Z) (grayscale_step : num)
    (brightness : Z) : result Z :=
  q <- truediv (PInt brightness) grayscale_step ;;
  k <- to_int q ;;
  Ok (Z.min k (num_shades - 1)).

(** [height], the number of rows of the grid. *)
Definition height (original_width original_height width : Z)
    (aspect_ratio_correction : num) : result Z :=
  aspect_ratio <- truediv (PInt original_height) (PInt original_width) ;;
  p <- mul (PInt width) aspect_ratio ;;
  q <- mul p aspect_ratio_correction ;;
  h <- to_int q ;;
  Ok (if h <? 1 then 1 else h).

(** One cell of the drawing loop. *)
Definition draw_cell (shades : list color) (num_shades : Z)
    (grayscale_step : num) (cell_width cell_height : Z)
    (grid : Z -> Z -> Z) (output_img : canvas) (xy : Z * Z) : io canvas :=
  let '(x, y) := xy in
  let brightness := grid x y in
  shade_index <~ lift (shade_index num_shades grayscale_step brightness) ;;
  color <~ lift (list_get shades shade_index) ;;
  let draw_x := x * cell_width in
  let draw_y := y * cell_height in
  if shade_index >? 0 then
    _ <~ emit (DrawRectangle draw_x draw_y (draw_x + cell_width - 1)
                 (draw_y + cell_height - 1) color) ;;
    lift (rectangle output_img draw_x draw_y (draw_x + cell_width - 1)
            (draw_y + cell_height - 1) color)
  else ret output_img.

(** The part of [image_to_ascii_art] from the new canvas to the end of
    the two loops. *)
Definition draw_cells (shades : list color) (num_shades width height
    cell_width cell_height : Z) (grid : Z -> Z -> Z) : io canvas :=
  let output_img_width := width * cell_width in
  let output_img_height := height * cell_height in
  output_img <~ lift (bg <- list_get shades 0 ;;
                      image_new output_img_width output_img_height bg) ;;
  grayscale_step <~ lift (grayscale_step num_shades) ;;
  iofold (draw_cell shades num_shades grayscale_step cell_width cell_height
            grid)
         (cells width height) output_img.

Definition image_to_ascii_art (w : world) (image_path hex_color : string)
    (width num_shades cell_width cell_height : Z) (output_path : string)
    (aspect_ratio_correction : num) : io unit :=
  try_or_return (lift (hex_to_rgb hex_color))
    (fun e => if is_ValueError e then Some (emit (PrintExn "Error: " e))
              else None)
    (fun base_rgb =>
  try_or_return (generate_shades base_rgb num_shades bg_brightness_factor)
    (fun e => if is_ValueError e then Some (emit (PrintExn "Error: " e))
              else None)
    (fun shades =>
  try_or_return
    (_ <~ emit (ImageOpen image_path) ;; lift (image_open w image_path))
    (fun e => if is_FileNotFoundError e
              then Some (emit (PrintQuoted
                     "Error: Input image file not found at " image_path ""))
              else Some (emit (PrintExn "Error opening image: " e)))
    (fun img =>
  let '(original_width, original_height) := size img in
  height <~ lift (height original_width original_height width
                    aspect_ratio_correction) ;;
  grid <~ lift (gray_resized img 0 width height) ;;
  output_img <~ draw_cells shades num_shades width height cell_width
                  cell_height grid ;;
  _ <~ emit (ImageSave output_path output_img) ;;
  match image_save w output_path output_img with
  | Ok _ => emit (PrintQuoted "ASCII-style art saved to " output_path "")
  | Raise e => emit (PrintExn "Error saving image: " e)
  end))).

End Shader.

(** ** Predicates used in the statements and proofs *)

(** A float that is a zero or a finite number of magnitude below
    [2 ^ k]. *)
Definition finite_below (k : Z) (f : float) : Prop :=
  match f with
  | S754_zero _ => True
  | S754_finite _ m e => Zpos (digits2_pos m) + e <= k
  | _ => False
  end.

(** A finite non-zero float of magnitude in [2 ^ (lo-1), 2 ^ hi). *)
Definition finite_between (lo hi : Z) (f : float) : Prop :=
  match f with
  | S754_finite _ m e => lo <= Zpos (digits2_pos m) + e <= hi
  | _ => False
  end.

Definition sign_of (f : float) : bool :=
  match f with
  | S754_zero s | S754_infinity s | S754_finite s _ _ => s
  | S754_nan => false
  end.

(** A number the interpolation can take as its factor: any integer, or a
    float of moderate magnitude. *)
Definition num_ok (t : num) : Prop :=
  match t with
  | PInt _ => True
  | PFloat f => finite_below 100 f
  end.

Definition is_channel (c : Z) : Prop := 0 <= c <= 255.

(** A color in the sense of the data model: three 8-bit channels. *)
Definition is_color (c : color) : Prop :=
  let '(r, g, b) := c in is_channel r /\ is_channel g /\ is_channel b.

(** The background shade the specification describes: every channel
    multiplied by 0.1 and rounded toward zero. *)
Definition background (c : color) : color :=
  let '(r, g, b) := c in (Z.quot r 10, Z.quot g 10, Z.quot b 10).

Definition channel_le (c d : color) : Prop :=
  let '(r, g, b) := c in
  let '(r', g', b') := d in r <= r' /\ g <= g' /\ b <= b'.

(** What the scripts compute on one 8-bit channel value before any index
    comes in: the background channel, and the two ends of the glyph
    variant's foreground ramp. *)
Definition channel_check (c : Z) : bool :=
  match scale c (PFloat f0_1) with
  | Ok bg =>
      (bg =? Z.quot c 10)
      && match lerp bg c (PFloat f0_3) with
         | Ok d => (0 <=? d) && (d <=? 255)
         | Raise _ => false
         end
      && match lerp c 255 (PFloat f0_85) with
         | Ok l => (0 <=? l) && (l <=? 255)
         | Raise _ => false
         end
      && match lerp c 255 (PFloat f1_0) with
         | Ok l => l =? 255
         | Raise _ => false
         end
  | Raise _ => false
  end.

(** ** The index of a cell, and what the specification says it is *)

(** The index both loops compute for a cell of brightness [b]:
    [grayscale_step] once, then the index of the cell. *)
Definition ascii_cell_index (num_foreground_levels b : Z) : result Z :=
  step <- Ascii.grayscale_step num_foreground_levels ;;
  Ascii.element_idx num_foreground_levels step b.

Definition shader_cell_index (num_shades b : Z) : result Z :=
  step <- Shader.grayscale_step num_shades ;;
  Shader.shade_index num_shades step b.

(** [floor(b / (256 / levels))] in exact arithmetic, clamped to
    [[0, levels - 1]]. *)
Definition spec_index (levels b : Z) : Z :=
  Z.max 0 (Z.min (b * levels / 256) (levels - 1)).

(** The indices of the 256 brightness values for [levels] levels, in
    order, with the step computed once as in the scripts; a failed
    computation is recorded as -1. *)
Definition index_table (levels : Z) : list Z :=
  match Ascii.grayscale_step levels with
  | Ok step =>
      map (fun b => match Ascii.element_idx levels step b with
                    | Ok k => k
                    | Raise _ => -1
                    end) (range 256)
  | Raise _ => []
  end.

(** A list that starts at [prev], goes up by 0 or 1 at every position and
    ends at [last]. *)
Fixpoint steps_ok (prev : Z) (l : list Z) (last : Z) : bool :=
  match l with
  | [] => prev =? last
  | a :: tl => ((a =? prev) || (a =? prev + 1)) && steps_ok a tl last
  end.

Fixpoint list_eqb (l l' : list Z) : bool :=
  match l, l' with
  | [], [] => true
  | a :: tl, a' :: tl' => (a =? a') && list_eqb tl tl'
  | _, _ => false
  end.

Definition float_eqb (f g : float) : bool :=
  match f, g with
  | S754_zero s, S754_zero s' => Bool.eqb s s'
  | S754_infinity s, S754_infinity s' => Bool.eqb s s'
  | S754_nan, S754_nan => true
  | S754_finite s m e, S754_finite s' m' e' =>
      Bool.eqb s s' && Pos.eqb m m' && (e =? e')
  | _, _ => false
  end.

(** What is checked of the table for [levels] levels: it starts at 0 and climbs
    to [levels - 1] in steps of 0 or 1, the two scripts compute the same
    step, and up to 185 levels it is the exact formula. *)
Definition table_check (levels : Z) : bool :=
  let t := index_table levels in
  steps_ok 0 t (levels - 1)
  && match t with 0 :: _ => true | _ => false end
  && (Z.of_nat (List.length t) =? 256)
  && match Ascii.grayscale_step levels, Shader.grayscale_step levels with
     | Ok (PFloat f), Ok (PFloat g) => float_eqb f g
     | _, _ => false
     end
  && ((185 <? levels) || list_eqb t (map (spec_index levels) (range 256))).

(** ** The grid height, and what the specification says it is *)

(** [n / d] rounded to the nearest integer, for [0 <= n] and [0 < d]. *)
Definition round_div (n d : Z) : Z := (2 * n + d) / (2 * d).

(** [round(W * (h / w) / c)] for a correction factor [c = cn / cd], at
    least 1: the grid height of the specification, in exact arithmetic. *)
Definition spec_grid_height (w h W cn cd : Z) : Z :=
  Z.max 1 (round_div (W * h * cd) (w * cn)).

(** The same quotient truncated, and the truncated product
    [W * (h / w) * c]. *)
Definition truncated_quotient_height (w h W cn cd : Z) : Z :=
  Z.max 1 ((W * h * cd) / (w * cn)).

Definition truncated_product_height (w h W cn cd : Z) : Z :=
  Z.max 1 ((W * h * cn) / (w * cd)).

(** ** The canvas of the block variant *)

(** The pixel [(px, py)] lies in the region of the cell [(x, y)]. *)
Definition in_cell (cell_width cell_height x y px py : Z) : Prop :=
  x * cell_width <= px <= x * cell_width + cell_width - 1 /\
  y * cell_height <= py <= y * cell_height + cell_height - 1.

(** The event is a rectangle drawn over the pixel [(px, py)]. *)
Definition paints (e : event) (px py : Z) : bool :=
  match e with
  | DrawRectangle x0 y0 x1 y1 _ => in_box x0 y0 x1 y1 px py
  | _ => false
  end.

(** ** Color strings *)

Definition is_hex_digit (c : ascii) : bool :=
  match hex_digit c with
  | Some _ => true
  | None => false
  end.

(** Six characters, each one of 0-9, a-f, A-F. *)
Definition six_hex_digits (s : string) : bool :=
  (strlen s =? 6) && forallb is_hex_digit (list_ascii_of_string s).

(** [n] times the character [#]. *)
Fixpoint hashes (n : nat) : string :=
  match n with
  | O => EmptyString
  | S n' => String "#" (hashes n')
  end.

(** What is checked of one character: a hexadecimal digit has a value
    below 16 and is none of the characters [int()] treats specially. *)
Definition hex_digit_check (c : ascii) : bool :=
  match hex_digit c with
  | Some d =>
      (0 <=? d) && (d <=? 15) && negb (is_space c)
      && negb (is_char 35 c) && negb (is_char 43 c) && negb (is_char 45 c)
      && negb (is_char 95 c) && negb (is_char 120 c) && negb (is_char 88 c)
  | None => true
  end.

(** ** The block variant's ramp without its first computation

    [generate_shades] of [shader/gen_shader.py] with the first ramp
    taken out: the background channels, the one loop from dark to light,
    the overwriting of element 0, and the print. *)
Definition generate_shades_simplified (base_rgb : color) (num_shades : Z)
    (bg_brightness_factor : num) : io (list color) :=
  if num_shades <? 2
  then lift (Raise (ValueError (Text "Number of shades must be at least 2.")))
  else
    let '(base_r, base_g, base_b) := base_rgb in
    shades <~ lift (
      bg_r <- scale base_r bg_brightness_factor ;;
      bg_g <- scale base_g bg_brightness_factor ;;
      bg_b <- scale base_b bg_brightness_factor ;;
      shades <- mapM (Shader.generate_shades_body base_rgb (bg_r, bg_g, bg_b)
                        num_shades)
                     (range num_shades) ;;
      r0 <- scale base_r bg_brightness_factor ;;
      g0 <- scale base_g bg_brightness_factor ;;
      b0 <- scale base_b bg_brightness_factor ;;
      Shader.set_first shades (r0, g0, b0)) ;;
    _ <~ emit (PrintGenerated (len shades) shades) ;;
    ret shades.

(** ** A world to run the drivers in

    Every font loads and has a bounding box and metrics, no image file
    exists, nothing can be drawn or saved. *)
Definition sample_world : world := {|
  image_open := fun _ => Raise FileNotFoundError;
  truetype := fun name size => Ok {| font_name := name; font_size := size |};
  load_default := {| font_name := "default"; font_size := 10 |};
  char_estimate := fun _ _ => (PInt 8, PInt 16);
  draw_text := fun _ _ _ _ _ _ => Raise OSError;
  draw_text_legacy := fun _ _ _ _ _ _ => Raise OSError;
  has_getbbox := fun _ => true;
  getbbox := fun _ _ => Ok (PInt 0, PInt 3, PInt 8, PInt 14);
  has_getsize := fun _ => false;
  getsize := fun _ _ => Raise AttributeError;
  has_getmetrics := fun _ => true;
  getmetrics := fun _ => Ok (PInt 12, PInt 4);
  image_save := fun _ _ => Raise OSError
|}.

(** ** The ends of the glyph variant's foreground ramp *)

(** The darkest and the lightest foreground channel of the glyph variant
    for a base channel [c]: 30% of the way from the background channel to
    [c], and 85% of the way from [c] to 255, in exact arithmetic. *)
Definition dark_start (c : Z) : Z := (7 * Z.quot c 10 + 3 * c) / 10.

Definition light_end (c : Z) : Z := (3 * c + 4335) / 20.

Definition dark_color (c : color) : color :=
  let '(r, g, b) := c in (dark_start r, dark_start g, dark_start b).

Definition light_color (c : color) : color :=
  let '(r, g, b) := c in (light_end r, light_end g, light_end b).

Definition result_is (r : result Z) (z : Z) : bool :=
  match r with
  | Ok v => v =? z
  | Raise _ => false
  end.

(** What is checked of one 8-bit channel value: the two ends as the
    script computes them are [dark_start] and [light_end], and the
    interpolation factors 0.0 and 1.0 give them back. *)
Definition ramp_end_check (c : Z) : bool :=
  result_is (lerp (Z.quot c 10) c (PFloat f0_3)) (dark_start c)
  && result_is (lerp c 255 (PFloat f0_85)) (light_end c)
  && result_is (lerp c (light_end c) (PFloat f1_0)) (light_end c)
  && result_is (lerp (dark_start c) c (PFloat (S754_zero false)))
       (dark_start c)
  && (0 <=? dark_start c) && (dark_start c <=? c)
  && (c <=? light_end c) && (light_end c <=? 255).

(** The events of the glyph loop when no [TypeError] is met: the calls of
    [draw.text] with an anchor and the warnings of its handler. *)
Definition cell_event (e : event) : bool :=
  match e with
  | DrawText _ _ _ _ | PrintDrawWarning _ _ _ _ => true
  | _ => false
  end.

(** ** Checks over all characters *)

(** The 256 characters a [string] of this development is made of. *)
Definition all_ascii : list ascii := map ascii_of_nat (seq 0 256).

(** What is checked of [int(s, 16)] on a string of two characters: a
    value it returns lies in [[-15, 255]], and a negative one only after a
    minus sign. *)
Definition pair_check (a b : ascii) : bool :=
  match int16 (String a (String b EmptyString)) with
  | Ok v => (-15 <=? v) && (v <=? 255) && ((0 <=? v) || is_char 45 a)
  | Raise _ => true
  end.

(** The two lower-case hexadecimal digits of a channel value, used to
    exhibit a string for every color. *)
Definition hex_char (d : Z) : ascii :=
  ascii_of_nat (Z.to_nat (if d <? 10 then 48 + d else 87 + d)).

Definition hex2 (v : Z) : string :=
  String (hex_char (v / 16)) (String (hex_char (v mod 16)) EmptyString).

Definition hex2_check (v : Z) : bool :=
  match hex2 v with
  | String a (String b EmptyString) =>
      is_hex_digit a && is_hex_digit b && result_is (int16 (hex2 v)) v
  | _ => false
  end.

(** ** The command line: the [__main__] blocks

    [argparse] is not part of the repository.  Of a parser, what the
    [__main__] blocks rely on is kept: [parse_args] returns a namespace
    with one attribute for every [add_argument], holding a value built by
    its [type] from the command line, or its default. *)

Inductive value : Type :=
| VNone
| VBool (b : bool)
| VInt (z : Z)
| VFloat (f : float)
| VStr (s : string).

Definition namespace : Type := list (string * value).

(** [args.name]: an attribute the namespace does not have raises
    [AttributeError]. *)
Fixpoint getattr (ns : namespace) (name : string) : result value :=
  match ns with
  | [] => Raise AttributeError
  | (k, v) :: ns' => if String.eqb k name then Ok v else getattr ns' name
  end.

Definition is_none (v : value) : bool :=
  match v with VNone => true | _ => false end.

Definition is_int (v : value) : bool :=
  match v with VInt _ => true | _ => false end.

Definition is_float (v : value) : bool :=
  match v with VFloat _ => true | _ => false end.

Definition is_str (v : value) : bool :=
  match v with VStr _ => true | _ => false end.

(** One [add_argument]: the attribute it sets, and the values the
    attribute can have. *)
Definition argument : Type := (string * (value -> bool))%type.

(** [ns] is a namespace [parse_args] can return for the parser. *)
Definition parse_result (parser : list argument) (ns : namespace) : Prop :=
  Forall2 (fun a kv => fst kv = fst a /\ snd a (snd kv) = true) parser ns.

(** The drivers are embedded with typed parameters; a value of a type the
    parameter does not have has no counterpart there. *)
Definition as_str (v : value) : result string :=
  match v with VStr s => Ok s | _ => Raise (TypeError false) end.

Definition as_int (v : value) : result Z :=
  match v with VInt z => Ok z | _ => Raise (TypeError false) end.

Definition as_num (v : value) : result num :=
  match v with
  | VInt z => Ok (PInt z)
  | VFloat f => Ok (PFloat f)
  | _ => Raise (TypeError false)
  end.

Definition as_bool (v : value) : result bool :=
  match v with VBool b => Ok b | _ => Raise (TypeError false) end.

Definition as_opt_str (v : value) : result (option string) :=
  match v with
  | VNone => Ok None
  | VStr s => Ok (Some s)
  | _ => Raise (TypeError false)
  end.

Definition as_opt_int (v : value) : result (option Z) :=
  match v with
  | VNone => Ok None
  | VInt z => Ok (Some z)
  | _ => Raise (TypeError false)
  end.

(** The parser of [ascii/gen_ascii.py], argument by argument:
    [aspect_ratio_correction] has [type=float] and the integer default 2,
    [skip_lightest_if_space] is a [store_true] flag whose default is
    [True]. *)
Definition ascii_parser : list argument :=
  [("image_path"%string, is_str);
   ("hex_color"%string, is_str);
   ("width_chars"%string, is_int);
   ("charset"%string, is_str);
   ("font_path"%string, fun v => is_str v || is_none v);
   ("font_size"%string, is_int);
   ("cell_width_px"%string, fun v => is_int v || is_none v);
   ("cell_height_px"%string, fun v => is_int v || is_none v);
   ("aspect_ratio_correction"%string,
    fun v => is_float v || match v with VInt 2 => true | _ => false end);
   ("skip_lightest_if_space"%string,
    fun v => match v with VBool true => true | _ => false end);
   ("output"%string, is_str)].

(** The call of the [__main__] block of [ascii/gen_ascii.py]: the
    attributes are read in the order of the arguments of the call, then
    the driver runs. *)
Definition ascii_main (w : world) (args : namespace) : io unit :=
  image_path <~ lift (getattr args "image_path") ;;
  hex_color <~ lift (getattr args "hex_color") ;;
  width_chars <~ lift (getattr args "width_chars") ;;
  charset <~ lift (getattr args "charset") ;;
  font_path <~ lift (getattr args "font_path") ;;
  font_size <~ lift (getattr args "font_size") ;;
  cell_width_px <~ lift (getattr args "cell_width_px") ;;
  cell_height_px <~ lift (getattr args "cell_height_px") ;;
  aspect_ratio_correction <~ lift (getattr args "aspect_ratio_correction") ;;
  posterize_bits <~ lift (getattr args "posterize_bits") ;;
  skip_lightest_if_space <~ lift (getattr args "skip_lightest_if_space") ;;
  output <~ lift (getattr args "output") ;;
  image_path <~ lift (as_str image_path) ;;
  hex_color <~ lift (as_str hex_color) ;;
  width_chars <~ lift (as_int width_chars) ;;
  charset <~ lift (as_str charset) ;;
  font_path <~ lift (as_opt_str font_path) ;;
  font_size <~ lift (as_int font_size) ;;
  cell_width_px <~ lift (as_opt_int cell_width_px) ;;
  cell_height_px <~ lift (as_opt_int cell_height_px) ;;
  aspect_ratio_correction <~ lift (as_num aspect_ratio_correction) ;;
  posterize_bits <~ lift (as_int posterize_bits) ;;
  skip_lightest_if_space <~ lift (as_bool skip_lightest_if_space) ;;
  output <~ lift (as_str output) ;;
  Ascii.image_to_ascii_art w image_path hex_color width_chars charset
    font_path font_size cell_width_px cell_height_px aspect_ratio_correction
    posterize_bits skip_lightest_if_space output.

(** The parser of [shader/gen_shader.py]. *)
Definition shader_parser : list argument :=
  [("image_path"%string, is_str);
   ("hex_color"%string, is_str);
   ("width"%string, is_int);
   ("shades"%string, is_int);
   ("cell_width"%string, is_int);
   ("cell_height"%string, is_int);
   ("aspect_ratio_correction"%string, is_float);
   ("output"%string, is_str)].

(** The call of the [__main__] block of [shader/gen_shader.py]. *)
Definition shader_main (w : world) (args : namespace) : io unit :=
  image_path <~ lift (getattr args "image_path") ;;
  hex_color <~ lift (getattr args "hex_color") ;;
  width <~ lift (getattr args "width") ;;
  shades <~ lift (getattr args "shades") ;;
  cell_width <~ lift (getattr args "cell_width") ;;
  cell_height <~ lift (getattr args "cell_height") ;;
  output <~ lift (getattr args "output") ;;
  aspect_ratio_correction <~ lift (getattr args "aspect_ratio_correction") ;;
  image_path <~ lift (as_str image_path) ;;
  hex_color <~ lift (as_str hex_color) ;;
  width <~ lift (as_int width) ;;
  shades <~ lift (as_int shades) ;;
  cell_width <~ lift (as_int cell_width) ;;
  cell_height <~ lift (as_int cell_height) ;;
  output <~ lift (as_str output) ;;
  aspect_ratio_correction <~ lift (as_num aspect_ratio_correction) ;;
  Shader.image_to_ascii_art w image_path hex_color width shades cell_width
    cell_height output aspect_ratio_correction.

(** ** Floats as numbers

    What the claims about the grid height and the index say of the
    doubles the scripts compute is said of the numbers they stand for. *)

(** The number a float stands for. *)
Definition fval (f : float) : Q :=
  match f with
  | S754_finite s m e => (inject_Z (cond_Zopp s (Zpos m)) * 2 ^ e)%Q
  | _ => 0%Q
  end.

(** The same number as a fraction of two integers. *)
Definition float_ratio (f : float) : Z * Z :=
  match f with
  | S754_finite s m e =>
      (cond_Zopp s (Zpos m) * 2 ^ Z.max 0 e, 2 ^ Z.max 0 (- e))
  | _ => (0, 1)
  end.

(** Two non-negative numbers within the factor [k] of each other. *)
Definition within (k a b : Q) : Prop :=
  (0 <= a /\ 0 <= b /\ a <= b * k /\ b <= a * k)%Q.

(** One rounding: the factor [1 + 2 ^ -52]. *)
Definition one_ulp : Q := 4503599627370497 # 4503599627370496.

(** The quotient [n / d] scaled down and up by [2 ^ -50], truncated and
    raised to at least 1: the two bounds between which three roundings
    leave a grid height. *)
Definition height_below (n d : Z) : Z :=
  Z.max 1 ((n * (2 ^ 50 - 1)) / (d * 2 ^ 50)).

Definition height_above (n d : Z) : Z :=
  Z.max 1 ((n * (2 ^ 50 + 1)) / (d * 2 ^ 50)).

(** * Properties *)

(** ** Binary digits *)

Lemma digits2_pos_size (p : positive) : digits2_pos p = Pos.size p.
Proof. induction p; simpl; congruence. Qed.

Lemma digits2_pos_bounds (p : positive) :
  2 ^ (Zpos (digits2_pos p) - 1) <= Zpos p < 2 ^ Zpos (digits2_pos p).
Proof.
  induction p as [p IH | p IH |]; cbn [digits2_pos].
  - rewrite Pos2Z.inj_succ.
    replace (Z.succ (Zpos (digits2_pos p)) - 1) with (Z.succ (Zpos (digits2_pos p) - 1)) by lia.
    rewrite !Z.pow_succ_r by lia. lia.
  - rewrite Pos2Z.inj_succ.
    replace (Z.succ (Zpos (digits2_pos p)) - 1) with (Z.succ (Zpos (digits2_pos p) - 1)) by lia.
    rewrite !Z.pow_succ_r by lia. lia.
  - simpl. lia.
Qed.

Lemma Zdigits2_nonneg (m : Z) : 0 <= Zdigits2 m.
Proof. destruct m; simpl; lia. Qed.

(** For a non-negative [m]: [m] has at most [d] digits iff [m < 2 ^ d]. *)
Lemma Zdigits2_le_iff (m d : Z) :
  0 <= m -> 0 <= d -> (Zdigits2 m <= d <-> m < 2 ^ d).
Proof.
  intros Hm Hd. destruct m as [|p|p]; [| |lia].
  - simpl. split; intros _; [apply Z.pow_pos_nonneg|]; lia.
  - cbn [Zdigits2]. pose proof (digits2_pos_bounds p) as [Hlo Hhi]. split; intros H.
    + eapply Z.lt_le_trans; [exact Hhi|]. apply Z.pow_le_mono_r; lia.
    + destruct (Z.le_gt_cases (Zpos (digits2_pos p)) d) as [|Hgt]; [assumption|].
      exfalso. assert (2 ^ d <= 2 ^ (Zpos (digits2_pos p) - 1)) by (apply Z.pow_le_mono_r; lia). lia.
Qed.

(** For a positive [m]: [m] has at least [d] digits iff [2 ^ (d-1) <= m]. *)
Lemma Zdigits2_ge_iff (m d : Z) :
  0 < m -> 1 <= d -> (d <= Zdigits2 m <-> 2 ^ (d - 1) <= m).
Proof.
  intros Hm Hd. destruct m as [|p|p]; try lia.
  cbn [Zdigits2]. pose proof (digits2_pos_bounds p) as [Hlo Hhi]. split; intros H.
  - eapply Z.le_trans; [|exact Hlo]. apply Z.pow_le_mono_r; lia.
  - destruct (Z.le_gt_cases d (Zpos (digits2_pos p))) as [|Hgt]; [assumption|].
    exfalso. assert (2 ^ Zpos (digits2_pos p) <= 2 ^ (d - 1)) by (apply Z.pow_le_mono_r; lia). lia.
Qed.

Lemma Zdigits2_pos_iff (m : Z) : 0 <= m -> (0 < Zdigits2 m <-> 0 < m).
Proof. destruct m; simpl; lia. Qed.

Lemma Zdigits2_mono (a b : Z) : 0 <= a <= b -> Zdigits2 a <= Zdigits2 b.
Proof.
  intros H. apply Zdigits2_le_iff; [lia | apply Zdigits2_nonneg |].
  assert (Zdigits2 b <= Zdigits2 b) as Hb by lia.
  apply Zdigits2_le_iff in Hb; [lia | lia | apply Zdigits2_nonneg].
Qed.

(** Shifting right by [n] removes [n] digits. *)
Lemma Zdigits2_div_pow2 (m n : Z) :
  0 <= m -> 0 <= n -> Zdigits2 (m / 2 ^ n) = Z.max 0 (Zdigits2 m - n).
Proof.
  intros Hm Hn.
  assert (0 < 2 ^ n) as Hp by (apply Z.pow_pos_nonneg; lia).
  assert (0 <= m / 2 ^ n) as Hq by (apply Z.div_pos; lia).
  destruct (Z.le_gt_cases (Zdigits2 m) n) as [Hle | Hgt].
  - assert (m < 2 ^ n) as Hlt.
    { apply Zdigits2_le_iff in Hle; lia. }
    rewrite Z.div_small by lia. simpl. lia.
  - rewrite Z.max_r by lia.
    assert (0 < m) as Hm' by (apply Zdigits2_pos_iff; lia).
    apply Z.le_antisymm.
    + apply Zdigits2_le_iff; [lia | lia |].
      apply Z.div_lt_upper_bound; [lia|].
      rewrite <- Z.pow_add_r by lia.
      replace (n + (Zdigits2 m - n)) with (Zdigits2 m) by lia.
      apply Zdigits2_le_iff; [lia | apply Zdigits2_nonneg | lia].
    + assert (2 ^ (Zdigits2 m - n - 1) <= m / 2 ^ n) as Hge.
      { apply Z.div_le_lower_bound; [lia|].
        rewrite <- Z.pow_add_r by lia.
        replace (n + (Zdigits2 m - n - 1)) with (Zdigits2 m - 1) by lia.
        apply Zdigits2_ge_iff; lia. }
      apply Zdigits2_ge_iff; [| lia | exact Hge].
      assert (0 < 2 ^ (Zdigits2 m - n - 1)) by (apply Z.pow_pos_nonneg; lia). lia.
Qed.

Lemma Zdigits2_mul_pow2 (m n : Z) :
  0 < m -> 0 <= n -> Zdigits2 (m * 2 ^ n) = Zdigits2 m + n.
Proof.
  intros Hm Hn.
  assert (0 < 2 ^ n) as Hp by (apply Z.pow_pos_nonneg; lia).
  assert (1 <= Zdigits2 m) by (apply Zdigits2_pos_iff in Hm; lia).
  apply Z.le_antisymm.
  - apply Zdigits2_le_iff; [nia | lia |].
    rewrite Z.pow_add_r by lia.
    apply Z.mul_lt_mono_pos_r; [lia|].
    apply Zdigits2_le_iff; [lia | apply Zdigits2_nonneg | lia].
  - apply Zdigits2_ge_iff; [nia | lia |].
    replace (Zdigits2 m + n - 1) with ((Zdigits2 m - 1) + n) by lia.
    rewrite Z.pow_add_r by lia.
    apply Z.mul_le_mono_nonneg_r; [lia|].
    apply Zdigits2_ge_iff; lia.
Qed.

Lemma Zdigits2_succ (m : Z) : 0 <= m -> Zdigits2 (m + 1) <= Zdigits2 m + 1.
Proof.
  intros Hm. apply Zdigits2_le_iff; [lia | pose proof (Zdigits2_nonneg m); lia |].
  rewrite Z.pow_add_r by (try apply Zdigits2_nonneg; lia).
  assert (m < 2 ^ Zdigits2 m) by (apply Zdigits2_le_iff; [lia | apply Zdigits2_nonneg | lia]).
  assert (0 < 2 ^ Zdigits2 m) by (apply Z.pow_pos_nonneg; [lia | apply Zdigits2_nonneg]).
  lia.
Qed.

(** ** Rounding *)

Lemma shr_1_m (mrs : shr_record) :
  0 <= shr_m mrs -> shr_m (shr_1 mrs) = shr_m mrs / 2.
Proof.
  destruct mrs as [m r s]. cbn [shr_m]. intros Hm.
  rewrite <- Z.div2_div.
  destruct m as [|[p|p|]|p]; try reflexivity; lia.
Qed.

Lemma iter_shr_1_m (n : positive) :
  forall mrs, 0 <= shr_m mrs ->
    shr_m (iter_pos shr_1 n mrs) = shr_m mrs / 2 ^ Zpos n.
Proof.
  induction n as [n IH | n IH |]; intros mrs Hm; cbn [iter_pos].
  - assert (0 <= shr_m (shr_1 mrs)) as H1 by (rewrite shr_1_m by lia; apply Z.div_pos; lia).
    assert (0 < 2 ^ Zpos n) as Hp by (apply Z.pow_pos_nonneg; lia).
    assert (0 <= shr_m (iter_pos shr_1 n (shr_1 mrs))) as H2
      by (rewrite IH by lia; apply Z.div_pos; lia).
    rewrite IH, IH, shr_1_m by lia.
    rewrite !Z.div_div by lia.
    f_equal.
    replace (Zpos n~1) with (1 + Zpos n + Zpos n) by lia.
    rewrite !Z.pow_add_r, Z.pow_1_r by lia. lia.
  - assert (0 < 2 ^ Zpos n) as Hp by (apply Z.pow_pos_nonneg; lia).
    assert (0 <= shr_m (iter_pos shr_1 n mrs)) as H2
      by (rewrite IH by lia; apply Z.div_pos; lia).
    rewrite IH, IH by lia.
    rewrite !Z.div_div by lia.
    f_equal.
    replace (Zpos n~0) with (Zpos n + Zpos n) by lia.
    rewrite !Z.pow_add_r by lia. lia.
  - rewrite shr_1_m by lia. reflexivity.
Qed.

Lemma shr_record_of_loc_m (m : Z) (l : location) :
  shr_m (shr_record_of_loc m l) = m.
Proof. destruct l as [|[]]; reflexivity. Qed.

Lemma fexp_eq (e : Z) : fexp prec emax e = Z.max (e - 53) (-1074).
Proof. reflexivity. Qed.

(** [shr_fexp] divides the mantissa by the power of two that brings the
    exponent up to [fexp]. *)
Lemma shr_fexp_spec (m e : Z) (l : location) :
  0 <= m ->
  let n := Z.max 0 (Z.max (Zdigits2 m + e - 53) (-1074) - e) in
  shr_m (fst (shr_fexp prec emax m e l)) = m / 2 ^ n /\
  snd (shr_fexp prec emax m e l) = e + n.
Proof.
  intros Hm. cbv zeta. unfold shr_fexp, shr. rewrite fexp_eq.
  destruct (Z.max (Zdigits2 m + e - 53) (-1074) - e) as [|p|p] eqn:E; cbn [fst snd].
  - simpl. rewrite shr_record_of_loc_m, Z.div_1_r. split; [reflexivity | lia].
  - rewrite iter_shr_1_m by (rewrite shr_record_of_loc_m; lia).
    rewrite shr_record_of_loc_m. rewrite Z.max_r by lia. split; reflexivity.
  - rewrite Z.max_l by lia. simpl. rewrite shr_record_of_loc_m, Z.div_1_r. split; [reflexivity | lia].
Qed.

Lemma round_nearest_even_bounds (m : Z) (l : location) :
  m <= round_nearest_even m l <= m + 1.
Proof.
  destruct l as [|[]]; simpl; try lia. destruct (Z.even m); lia.
Qed.

(** The shape of a rounded result, with the number of digits and the
    exponent at each of the two steps. *)
Lemma binary_round_aux_cases (s : bool) (mx ex : Z) (l : location) :
  0 <= mx ->
  exists m2 e2 d1 : Z,
    0 <= m2 /\
    binary_round_aux prec emax s mx ex l =
      match m2 with
      | Z0 => S754_zero s
      | Zpos m => if e2 <=? 971 then S754_finite s m e2 else S754_infinity s
      | Zneg _ => S754_nan
      end /\
    let n1 := Z.max 0 (Z.max (Zdigits2 mx + ex - 53) (-1074) - ex) in
    let d := Z.max 0 (Zdigits2 mx - n1) in
    let e1 := ex + n1 in
    let n2 := Z.max 0 (Z.max (d1 + e1 - 53) (-1074) - e1) in
    d <= d1 <= d + 1 /\ Zdigits2 m2 = Z.max 0 (d1 - n2) /\ e2 = e1 + n2.
Proof.
  intros Hm.
  pose proof (shr_fexp_spec mx ex l Hm) as [H1m H1e].
  unfold binary_round_aux.
  destruct (shr_fexp prec emax mx ex l) as [mrs1 e1] eqn:E1. cbn [fst snd] in H1m, H1e.
  set (n1 := Z.max 0 (Z.max (Zdigits2 mx + ex - 53) (-1074) - ex)) in *.
  assert (0 < 2 ^ n1) as Hp1 by (apply Z.pow_pos_nonneg; lia).
  assert (0 <= shr_m mrs1) as Hm1 by (rewrite H1m; apply Z.div_pos; lia).
  set (m1 := round_nearest_even (shr_m mrs1) (loc_of_shr_record mrs1)).
  pose proof (round_nearest_even_bounds (shr_m mrs1) (loc_of_shr_record mrs1)) as Hr. fold m1 in Hr.
  assert (0 <= m1) as Hm1' by lia.
  pose proof (shr_fexp_spec m1 e1 loc_Exact Hm1') as [H2m H2e].
  destruct (shr_fexp prec emax m1 e1 loc_Exact) as [mrs2 e2] eqn:E2. cbn [fst snd] in H2m, H2e.
  set (n2 := Z.max 0 (Z.max (Zdigits2 m1 + e1 - 53) (-1074) - e1)) in *.
  assert (0 < 2 ^ n2) as Hp2 by (apply Z.pow_pos_nonneg; lia).
  exists (shr_m mrs2), e2, (Zdigits2 m1).
  split; [rewrite H2m; apply Z.div_pos; lia|].
  split; [reflexivity|].
  cbn zeta.
  assert (Zdigits2 (shr_m mrs1) = Z.max 0 (Zdigits2 mx - n1)) as Hd
    by (rewrite H1m; apply Zdigits2_div_pow2; lia).
  rewrite <- Hd, <- H1e. fold n2.
  split; [|split].
  - split; [apply Zdigits2_mono; lia|].
    eapply Z.le_trans; [apply (Zdigits2_mono m1 (shr_m mrs1 + 1)); lia|].
    apply Zdigits2_succ; lia.
  - rewrite H2m. apply Zdigits2_div_pow2; lia.
  - exact H2e.
Qed.

Lemma binary_round_aux_upper (s : bool) (mx ex : Z) (l : location) (k : Z) :
  0 <= mx -> Zdigits2 mx + ex <= k -> -1074 <= k <= 971 ->
  finite_below (k + 1) (binary_round_aux prec emax s mx ex l) /\
  sign_of (binary_round_aux prec emax s mx ex l) = s.
Proof.
  intros Hm Hk Hr.
  destruct (binary_round_aux_cases s mx ex l Hm) as (m2 & e2 & d1 & Hm2 & -> & Hrel).
  cbn zeta in Hrel. destruct Hrel as (Hd1 & Hd2 & He2).
  pose proof (Zdigits2_nonneg mx) as Hdx.
  destruct m2 as [|p|p]; [simpl; auto | | lia].
  cbn [Zdigits2] in Hd2.
  assert (e2 <= 971) as Hle by lia.
  apply Z.leb_le in Hle. rewrite Hle. cbn [finite_below finite_between sign_of].
  split; [lia | reflexivity].
Qed.

Lemma binary_round_aux_between (s : bool) (mx ex : Z) (l : location) :
  0 < mx -> -1074 < Zdigits2 mx + ex <= 971 ->
  finite_between (Zdigits2 mx + ex) (Zdigits2 mx + ex + 1)
    (binary_round_aux prec emax s mx ex l) /\
  sign_of (binary_round_aux prec emax s mx ex l) = s.
Proof.
  intros Hm Hr.
  destruct (binary_round_aux_cases s mx ex l ltac:(lia)) as (m2 & e2 & d1 & Hm2 & -> & Hrel).
  cbn zeta in Hrel. destruct Hrel as (Hd1 & Hd2 & He2).
  assert (1 <= Zdigits2 mx) as Hdx by (apply Zdigits2_pos_iff in Hm; lia).
  destruct m2 as [|p|p]; [simpl in Hd2; lia | | lia].
  cbn [Zdigits2] in Hd2.
  assert (e2 <= 971) as Hle by lia.
  apply Z.leb_le in Hle. rewrite Hle. cbn [finite_below finite_between sign_of].
  split; [lia | reflexivity].
Qed.

Lemma finite_below_weaken (k k' : Z) (f : float) :
  finite_below k f -> k <= k' -> finite_below k' f.
Proof. destruct f; simpl; auto; lia. Qed.

Lemma finite_between_below (lo hi : Z) (f : float) :
  finite_between lo hi f -> finite_below hi f.
Proof. destruct f; simpl; auto; lia. Qed.

Lemma finite_between_weaken (lo hi lo' hi' : Z) (f : float) :
  finite_between lo hi f -> lo' <= lo -> hi <= hi' -> finite_between lo' hi' f.
Proof. destruct f; simpl; auto; lia. Qed.

Lemma Zdigits2_abs (z : Z) : Zdigits2 (Z.abs z) = Zdigits2 z.
Proof. destruct z; reflexivity. Qed.

Lemma Zdigits2_of_bound (z k : Z) : 0 <= k -> Z.abs z < 2 ^ k -> Zdigits2 z <= k.
Proof.
  intros Hk H. rewrite <- Zdigits2_abs. apply Zdigits2_le_iff; lia.
Qed.

(** ** Alignment and normalisation *)

Lemma iter_xO (m d : positive) : Zpos (Pos.iter xO m d) = Zpos m * 2 ^ Zpos d.
Proof.
  induction d as [|d IH] using Pos.peano_ind.
  - simpl. lia.
  - rewrite Pos.iter_succ, Pos2Z.inj_xO, IH, Pos2Z.inj_succ, Z.pow_succ_r by lia. lia.
Qed.

Lemma shl_align_spec (mx : positive) (ex ex' : Z) :
  let n := Z.max 0 (ex - ex') in
  Zpos (fst (shl_align mx ex ex')) = Zpos mx * 2 ^ n /\
  snd (shl_align mx ex ex') = ex - n.
Proof.
  cbv zeta. unfold shl_align.
  destruct (ex' - ex) as [|p|p] eqn:E; cbn [fst snd].
  - replace (ex - ex') with 0 by lia. simpl. lia.
  - rewrite Z.max_l by lia. simpl. lia.
  - rewrite iter_xO. replace (Z.max 0 (ex - ex')) with (Zpos p) by lia. lia.
Qed.

Lemma binary_round_between (s : bool) (mx : positive) (ex : Z) :
  -1074 < Zpos (digits2_pos mx) + ex <= 971 ->
  finite_between (Zpos (digits2_pos mx) + ex) (Zpos (digits2_pos mx) + ex + 1)
    (binary_round prec emax s mx ex) /\
  sign_of (binary_round prec emax s mx ex) = s.
Proof.
  intros Hr. unfold binary_round.
  pose proof (shl_align_spec mx ex (fexp prec emax (Zpos (digits2_pos mx) + ex))) as [Hm He].
  destruct (shl_align mx ex (fexp prec emax (Zpos (digits2_pos mx) + ex))) as [mz ez].
  cbn [fst snd] in Hm, He.
  set (n := Z.max 0 (ex - fexp prec emax (Zpos (digits2_pos mx) + ex))) in *.
  assert (Zdigits2 (Zpos mz) + ez = Zpos (digits2_pos mx) + ex) as HD.
  { rewrite Hm, Zdigits2_mul_pow2 by lia. cbn [Zdigits2]. lia. }
  rewrite <- HD. apply binary_round_aux_between; lia.
Qed.

Lemma binary_normalize_below (m e k : Z) (sz : bool) :
  Zdigits2 m + e <= k -> -1074 <= k <= 971 ->
  finite_below (k + 1) (binary_normalize prec emax m e sz).
Proof.
  intros Hk Hr. unfold binary_normalize.
  destruct m as [|p|p]; [exact I | |]; cbn [Zdigits2] in Hk.
  - destruct (Z.le_gt_cases (Zpos (digits2_pos p) + e) (-1074)) as [Hsmall | Hbig].
    + unfold binary_round.
      pose proof (shl_align_spec p e (fexp prec emax (Zpos (digits2_pos p) + e))) as [Hm He].
      destruct (shl_align p e (fexp prec emax (Zpos (digits2_pos p) + e))) as [mz ez].
      cbn [fst snd] in Hm, He.
      eapply finite_below_weaken;
        [apply (binary_round_aux_upper false (Zpos mz) ez loc_Exact (-1074)); try lia|lia].
      rewrite Hm, Zdigits2_mul_pow2 by lia. cbn [Zdigits2]. lia.
    + eapply finite_below_weaken;
        [eapply finite_between_below; apply binary_round_between; lia | lia].
  - destruct (Z.le_gt_cases (Zpos (digits2_pos p) + e) (-1074)) as [Hsmall | Hbig].
    + unfold binary_round.
      pose proof (shl_align_spec p e (fexp prec emax (Zpos (digits2_pos p) + e))) as [Hm He].
      destruct (shl_align p e (fexp prec emax (Zpos (digits2_pos p) + e))) as [mz ez].
      cbn [fst snd] in Hm, He.
      eapply finite_below_weaken;
        [apply (binary_round_aux_upper true (Zpos mz) ez loc_Exact (-1074)); try lia|lia].
      rewrite Hm, Zdigits2_mul_pow2 by lia. cbn [Zdigits2]. lia.
    + eapply finite_below_weaken;
        [eapply finite_between_below; apply binary_round_between; lia | lia].
Qed.

(** ** Conversions *)

Lemma float_of_int_ok (z k : Z) :
  Zdigits2 z <= k -> 0 <= k <= 971 ->
  exists f, float_of_int z = Ok f /\ finite_below (k + 1) f /\
            (0 <= z -> sign_of f = false) /\
            (0 < z -> finite_between (Zdigits2 z) (Zdigits2 z + 1) f).
Proof.
  intros Hk Hr. unfold float_of_int.
  pose proof (binary_normalize_below z 0 k false ltac:(lia) ltac:(lia)) as Hb.
  destruct z as [|p|p].
  - exists (S754_zero false). simpl. repeat split; auto; lia.
  - cbn [binary_normalize Zdigits2] in *.
    pose proof (binary_round_between false p 0 ltac:(lia)) as [Hbt Hs].
    destruct (binary_round prec emax false p 0) as [|s0| |s0 m0 e0] eqn:E; try contradiction.
    eexists; split; [reflexivity|].
    repeat split; auto; simpl in Hbt |- *; lia.
  - cbn [binary_normalize] in *.
    destruct (binary_round prec emax true p 0) as [s0|s0| |s0 m0 e0] eqn:E; try contradiction.
    + eexists; split; [reflexivity|]. repeat split; auto; lia.
    + eexists; split; [reflexivity|]. repeat split; auto; lia.
Qed.

Lemma int_of_float_ok (k : Z) (f : float) :
  finite_below k f ->
  exists z, int_of_float f = Ok z /\ (sign_of f = false -> 0 <= z).
Proof.
  destruct f as [s|s| |s m e]; simpl; try contradiction; intros _.
  - exists 0. split; [reflexivity | lia].
  - eexists; split; [reflexivity|]. intros ->. simpl.
    apply Z.shiftl_nonneg. lia.
Qed.

(** ** Products, sums and differences stay finite *)

Lemma fmul_below (a b : Z) (x y : float) :
  finite_below a x -> finite_below b y -> -1074 <= a + b <= 971 ->
  finite_below (a + b + 1) (fmul x y) /\
  sign_of (fmul x y) = xorb (sign_of x) (sign_of y).
Proof.
  intros Hx Hy Hr.
  destruct x as [sx|sx| |sx mx ex]; try contradiction;
    destruct y as [sy|sy| |sy my ey]; try contradiction;
    try (split; [exact I | reflexivity]).
  cbn [finite_below sign_of] in *. unfold fmul, SFmul.
  apply binary_round_aux_upper; [lia | | lia].
  assert (Zdigits2 (Zpos (mx * my)) <= Zpos (digits2_pos mx) + Zpos (digits2_pos my)); [|lia].
  apply Zdigits2_le_iff; [lia | lia |].
  pose proof (digits2_pos_bounds mx). pose proof (digits2_pos_bounds my).
  rewrite Z.pow_add_r, Pos2Z.inj_mul by lia. nia.
Qed.

Lemma aligned_sum_digits (sx sy : bool) (mx my : positive) (ex ey a b : Z) :
  Zpos (digits2_pos mx) + ex <= a -> Zpos (digits2_pos my) + ey <= b ->
  forall v,
    Z.abs v <= Zpos (fst (shl_align mx ex (Z.min ex ey)))
               + Zpos (fst (shl_align my ey (Z.min ex ey))) ->
    Zdigits2 v + Z.min ex ey <= Z.max a b + 1.
Proof.
  intros Ha Hb v Hv.
  pose proof (shl_align_spec mx ex (Z.min ex ey)) as [Hmx _].
  pose proof (shl_align_spec my ey (Z.min ex ey)) as [Hmy _].
  cbv zeta in Hmx, Hmy. rewrite Hmx, Hmy in Hv.
  set (ez := Z.min ex ey) in *.
  assert (Zdigits2 v <= Z.max a b + 1 - ez); [|lia].
  pose proof (digits2_pos_bounds mx) as [_ Hx]. pose proof (digits2_pos_bounds my) as [_ Hy].
  apply Zdigits2_of_bound; [lia|].
  eapply Z.le_lt_trans; [exact Hv|].
  assert (Zpos mx * 2 ^ Z.max 0 (ex - ez) < 2 ^ (Z.max a b - ez)) as H1.
  { eapply Z.lt_le_trans; [apply Z.mul_lt_mono_pos_r; [apply Z.pow_pos_nonneg; lia | exact Hx]|].
    rewrite <- Z.pow_add_r by lia. apply Z.pow_le_mono_r; lia. }
  assert (Zpos my * 2 ^ Z.max 0 (ey - ez) < 2 ^ (Z.max a b - ez)) as H2.
  { eapply Z.lt_le_trans; [apply Z.mul_lt_mono_pos_r; [apply Z.pow_pos_nonneg; lia | exact Hy]|].
    rewrite <- Z.pow_add_r by lia. apply Z.pow_le_mono_r; lia. }
  replace (Z.max a b + 1 - ez) with (Z.succ (Z.max a b - ez)) by lia.
  rewrite Z.pow_succ_r by lia. lia.
Qed.

Lemma fadd_below (a b : Z) (x y : float) :
  finite_below a x -> finite_below b y -> -1074 <= Z.max a b + 1 <= 971 ->
  finite_below (Z.max a b + 2) (fadd x y).
Proof.
  intros Hx Hy Hr.
  destruct x as [sx|sx| |sx mx ex]; try contradiction;
    destruct y as [sy|sy| |sy my ey]; try contradiction.
  - destruct sx, sy; exact I.
  - cbn [finite_below fadd SFadd] in *. lia.
  - cbn [finite_below fadd SFadd] in *. lia.
  - cbn [finite_below] in *. unfold fadd, SFadd.
    replace (Z.max a b + 2) with ((Z.max a b + 1) + 1) by lia.
    apply binary_normalize_below; [|lia].
    eapply (aligned_sum_digits sx sy); eauto.
    generalize (fst (shl_align mx ex (Z.min ex ey))) (fst (shl_align my ey (Z.min ex ey))).
    intros p1 p2. destruct sx, sy; cbn [cond_Zopp]; lia.
Qed.

Lemma fsub_below (a b : Z) (x y : float) :
  finite_below a x -> finite_below b y -> -1074 <= Z.max a b + 1 <= 971 ->
  finite_below (Z.max a b + 2) (fsub x y).
Proof.
  intros Hx Hy Hr.
  destruct x as [sx|sx| |sx mx ex]; try contradiction;
    destruct y as [sy|sy| |sy my ey]; try contradiction.
  - destruct sx, sy; exact I.
  - cbn [finite_below fsub SFsub] in *. lia.
  - cbn [finite_below fsub SFsub] in *. lia.
  - cbn [finite_below] in *. unfold fsub, SFsub.
    replace (Z.max a b + 2) with ((Z.max a b + 1) + 1) by lia.
    apply binary_normalize_below; [|lia].
    eapply (aligned_sum_digits sx sy); eauto.
    generalize (fst (shl_align mx ex (Z.min ex ey))) (fst (shl_align my ey (Z.min ex ey))).
    intros p1 p2. destruct sx, sy; cbn [cond_Zopp]; lia.
Qed.

(** ** Division *)

(** The quotient that [SFdiv_core_binary] hands to the rounding step has
    the magnitude of the exact quotient. *)
Lemma SFdiv_core_binary_spec (m1 m2 : positive) (e1 e2 : Z) :
  let D := Zpos (digits2_pos m1) + e1 - (Zpos (digits2_pos m2) + e2) in
  exists q e l,
    SFdiv_core_binary prec emax (Zpos m1) e1 (Zpos m2) e2 = (q, e, l) /\
    0 <= q /\
    Zdigits2 q + e <= Z.max (D + 1) (-1074) /\
    (-1021 <= D -> 0 < q /\ D <= Zdigits2 q + e).
Proof.
  intros D. unfold SFdiv_core_binary. cbn [Zdigits2]. rewrite fexp_eq. fold D.
  set (e' := Z.min (Z.max (D - 53) (-1074)) (e1 - e2)).
  set (s := e1 - e2 - e').
  assert (0 <= s) as Hs by (unfold s, e'; lia).
  set (m' := match s with Z0 => Zpos m1 | Zpos _ => Z.shiftl (Zpos m1) s | Zneg _ => 0 end).
  assert (m' = Zpos m1 * 2 ^ s) as Hm'.
  { unfold m'. destruct s as [|p|p] eqn:Es; [simpl; lia | | lia].
    rewrite Z.shiftl_mul_pow2 by lia. reflexivity. }
  assert (Z.div_eucl m' (Zpos m2) = (m' / Zpos m2, m' mod Zpos m2)) as Hde
    by (unfold Z.div, Z.modulo; destruct (Z.div_eucl m' (Zpos m2)); reflexivity).
  rewrite Hde.
  exists (m' / Zpos m2), e', (new_location (Zpos m2) (m' mod Zpos m2)).
  split; [reflexivity|].
  pose proof (digits2_pos_bounds m1) as [Hlo1 Hhi1].
  pose proof (digits2_pos_bounds m2) as [Hlo2 Hhi2].
  set (d1 := Zpos (digits2_pos m1)) in *. set (d2 := Zpos (digits2_pos m2)) in *.
  assert (0 < 2 ^ s) as Hps by (apply Z.pow_pos_nonneg; lia).
  assert (0 < m') as Hm'pos by nia.
  assert (m' < 2 ^ (d1 + s)) as Hm'hi.
  { rewrite Hm', Z.pow_add_r by (unfold d1; lia). apply Z.mul_lt_mono_pos_r; lia. }
  assert (2 ^ (d1 - 1 + s) <= m') as Hm'lo.
  { rewrite Hm', Z.pow_add_r by (unfold d1; lia). apply Z.mul_le_mono_nonneg_r; lia. }
  split; [apply Z.div_pos; lia|].
  split.
  - assert (Zdigits2 (m' / Zpos m2) <= Z.max 0 (d1 + s - d2 + 1)) as Hq.
    { apply Zdigits2_le_iff; [apply Z.div_pos; lia | lia |].
      apply Z.div_lt_upper_bound; [lia|].
      destruct (Z.le_gt_cases (d1 + s - d2 + 1) 0) as [Hneg | Hposi].
      - rewrite Z.max_l by lia. simpl.
        assert (2 ^ (d1 + s) <= 2 ^ (d2 - 1)) by (apply Z.pow_le_mono_r; lia). lia.
      - rewrite Z.max_r by lia.
        assert (2 ^ (d1 + s) = 2 ^ (d2 - 1) * 2 ^ (d1 + s - d2 + 1)) as Heq.
        { rewrite <- Z.pow_add_r by (unfold d2; lia). f_equal. lia. }
        assert (0 < 2 ^ (d1 + s - d2 + 1)) by (apply Z.pow_pos_nonneg; lia).
        nia. }
    unfold s in Hq. unfold e'. unfold D, e' in *. lia.
  - intros HD.
    assert (53 - d1 + d2 <= s) as Hs' by (unfold s, e'; fold d1 d2 in D; unfold D; lia).
    assert (2 ^ (d1 + s - d2 - 1) <= m' / Zpos m2) as Hq.
    { apply Z.div_le_lower_bound; [lia|].
      assert (0 < 2 ^ (d1 + s - d2 - 1)) by (apply Z.pow_pos_nonneg; lia).
      assert (2 ^ (d1 - 1 + s) = 2 ^ d2 * 2 ^ (d1 + s - d2 - 1)) as Heq.
      { rewrite <- Z.pow_add_r by (unfold d2; lia). f_equal. lia. }
      nia. }
    assert (0 < 2 ^ (d1 + s - d2 - 1)) by (apply Z.pow_pos_nonneg; lia).
    split; [lia|].
    assert (d1 + s - d2 <= Zdigits2 (m' / Zpos m2)) as Hdq
      by (apply Zdigits2_ge_iff; [lia | lia | exact Hq]).
    unfold s in Hdq. fold d1 d2 in D. unfold D. lia.
Qed.

Lemma SFdiv_below (a lo hi : Z) (x y : float) :
  finite_below a x -> finite_between lo hi y -> a - lo + 1 <= 971 ->
  finite_below (Z.max (a - lo + 1) (-1074) + 1) (SFdiv prec emax x y) /\
  sign_of (SFdiv prec emax x y) = xorb (sign_of x) (sign_of y).
Proof.
  intros Hx Hy Hr.
  destruct y as [sy|sy| |sy my ey]; try contradiction.
  destruct x as [sx|sx| |sx mx ex]; try contradiction.
  - split; [exact I | reflexivity].
  - cbn [finite_below finite_between sign_of] in *. unfold SFdiv.
    destruct (SFdiv_core_binary_spec mx my ex ey) as (q & e & l & -> & Hq & Hup & _).
    apply binary_round_aux_upper; lia.
Qed.

Lemma SFdiv_between (lo1 hi1 lo2 hi2 : Z) (x y : float) :
  finite_between lo1 hi1 x -> finite_between lo2 hi2 y ->
  -1021 <= lo1 - hi2 -> hi1 - lo2 + 1 <= 971 ->
  finite_between (lo1 - hi2) (hi1 - lo2 + 2) (SFdiv prec emax x y) /\
  sign_of (SFdiv prec emax x y) = xorb (sign_of x) (sign_of y).
Proof.
  intros Hx Hy Hlo Hhi.
  destruct y as [sy|sy| |sy my ey]; try contradiction.
  destruct x as [sx|sx| |sx mx ex]; try contradiction.
  cbn [finite_between sign_of] in *. unfold SFdiv.
  destruct (SFdiv_core_binary_spec mx my ex ey) as (q & e & l & -> & Hq & Hup & Hdn).
  cbv zeta in Hup, Hdn. destruct Hdn as [Hqpos Hge]; [lia|].
  destruct (binary_round_aux_between (xorb sx sy) q e l Hqpos ltac:(lia)) as [Hb Hs].
  split; [|exact Hs].
  eapply finite_between_weaken; [exact Hb | lia | lia].
Qed.

Lemma raw_below (z : Z) : finite_below (Zdigits2 z) (raw z).
Proof. destruct z; simpl; auto; lia. Qed.

Lemma raw_between (z : Z) : z <> 0 -> finite_between (Zdigits2 z) (Zdigits2 z) (raw z).
Proof. destruct z; simpl; intros; lia. Qed.

Lemma raw_sign (z : Z) : 0 <= z -> sign_of (raw z) = false.
Proof. destruct z; simpl; intros; auto; lia. Qed.

(** A quotient of two integers with [0 <= a <= b] is a float of magnitude
    below 2, whatever the size of the integers. *)
Lemma int_truediv_unit (a b : Z) :
  0 <= a <= b -> 0 < b ->
  exists f, int_truediv a b = Ok f /\ finite_below 2 f /\ sign_of f = false.
Proof.
  intros Ha Hb. unfold int_truediv.
  destruct (Z.eqb_spec b 0) as [|_]; [lia|].
  assert (Zdigits2 a <= Zdigits2 b) as Hd by (apply Zdigits2_mono; lia).
  destruct (SFdiv_below (Zdigits2 a) (Zdigits2 b) (Zdigits2 b) (raw a) (raw b)
              (raw_below a) (raw_between b ltac:(lia)) ltac:(lia)) as [Hbel Hs].
  rewrite !raw_sign in Hs by lia. simpl in Hs.
  destruct (SFdiv prec emax (raw a) (raw b)) as [s0|s0| |s0 m0 e0]; try contradiction;
    (eexists; split; [reflexivity|]; split; [|exact Hs]);
    (eapply finite_below_weaken; [exact Hbel|lia]).
Qed.

(** A quotient of two positive integers of moderate size is a non-zero
    float whose magnitude follows the digit counts. *)
Lemma int_truediv_between (a b : Z) :
  0 < a -> 0 < b -> Zdigits2 a <= 900 -> Zdigits2 b <= 900 ->
  exists f, int_truediv a b = Ok f /\
            finite_between (Zdigits2 a - Zdigits2 b) (Zdigits2 a - Zdigits2 b + 2) f /\
            sign_of f = false.
Proof.
  intros Ha Hb Hda Hdb. unfold int_truediv.
  destruct (Z.eqb_spec b 0) as [|_]; [lia|].
  pose proof (Zdigits2_nonneg a). pose proof (Zdigits2_nonneg b).
  destruct (SFdiv_between (Zdigits2 a) (Zdigits2 a) (Zdigits2 b) (Zdigits2 b) (raw a) (raw b)
              (raw_between a ltac:(lia)) (raw_between b ltac:(lia)) ltac:(lia) ltac:(lia))
    as [Hbt Hs].
  rewrite !raw_sign in Hs by lia. simpl in Hs.
  destruct (SFdiv prec emax (raw a) (raw b)) as [s0|s0| |s0 m0 e0]; try contradiction.
  eexists; split; [reflexivity|]. split; [exact Hbt | exact Hs].
Qed.

Lemma float_div_ok (a lo hi : Z) (x y : float) :
  finite_below a x -> finite_between lo hi y -> a - lo + 1 <= 971 ->
  exists f, float_div x y = Ok f /\
            finite_below (Z.max (a - lo + 1) (-1074) + 1) f /\
            sign_of f = xorb (sign_of x) (sign_of y).
Proof.
  intros Hx Hy Hr. unfold float_div.
  destruct (SFdiv_below a lo hi x y Hx Hy Hr) as [Hb Hs].
  destruct y; try contradiction. cbn [is_zero].
  eexists; split; [reflexivity|]. split; assumption.
Qed.

(** ** Ranges and loops *)

Lemma range2_length (a b : Z) : List.length (range2 a b) = Z.to_nat (b - a).
Proof. unfold range2. rewrite length_map, length_seq. reflexivity. Qed.

Lemma range_length (n : Z) : List.length (range n) = Z.to_nat n.
Proof. unfold range. rewrite range2_length. f_equal. lia. Qed.

Lemma in_range2 (a b i : Z) : In i (range2 a b) <-> a <= i < b.
Proof.
  unfold range2. rewrite in_map_iff. split.
  - intros (j & <- & Hj). apply in_seq in Hj. lia.
  - intros H. exists (Z.to_nat (i - a)). split; [lia|]. apply in_seq. lia.
Qed.

Lemma in_range (n i : Z) : In i (range n) <-> 0 <= i < n.
Proof. apply in_range2. Qed.

Lemma nth_error_range (n : Z) (k : nat) :
  (k < Z.to_nat n)%nat -> nth_error (range n) k = Some (Z.of_nat k).
Proof.
  intros Hk. unfold range, range2.
  rewrite nth_error_map, nth_error_seq.
  replace (n - 0) with n by lia.
  destruct (Nat.ltb_spec k (Z.to_nat n)); [reflexivity | lia].
Qed.

Lemma mapM_ok {A B : Type} (f : A -> result B) (P : B -> Prop) (l : list A) :
  (forall a, In a l -> exists b, f a = Ok b /\ P b) ->
  exists bs, mapM f l = Ok bs /\ List.length bs = List.length l /\ Forall P bs.
Proof.
  induction l as [|a l IH]; intros H.
  - exists []. repeat split; constructor.
  - destruct (H a (or_introl eq_refl)) as (b & Hb & HP).
    destruct IH as (bs & Hbs & Hlen & HF); [intros; apply H; right; assumption|].
    exists (b :: bs). cbn [mapM]. rewrite Hb. cbn [bind]. rewrite Hbs. cbn [bind].
    repeat split; [simpl; congruence | constructor; assumption].
Qed.

Lemma mapM_nth {A B : Type} (f : A -> result B) (l : list A) (bs : list B) :
  mapM f l = Ok bs ->
  forall k a, nth_error l k = Some a ->
    exists b, nth_error bs k = Some b /\ f a = Ok b.
Proof.
  revert bs. induction l as [|a l IH]; intros bs H k x Hk.
  - destruct k; discriminate.
  - cbn [mapM] in H. destruct (f a) as [b|e] eqn:Ea; [|discriminate].
    cbn [bind] in H. destruct (mapM f l) as [bs'|e] eqn:El; [|discriminate].
    cbn [bind] in H. injection H as <-.
    destruct k as [|k]; cbn [nth_error] in *.
    + injection Hk as <-. exists b. split; [reflexivity | assumption].
    + eapply IH; [reflexivity | eassumption].
Qed.

Lemma len_app {A : Type} (l l' : list A) : len (l ++ l') = len l + len l'.
Proof. unfold len. rewrite length_app. lia. Qed.

(** ** Interpolation never fails on moderate integers *)

Lemma float_of_int_small (z : Z) :
  Z.abs z < 2 ^ 30 ->
  exists f, float_of_int z = Ok f /\ finite_below 31 f.
Proof.
  intros Hz.
  destruct (float_of_int_ok z 30 (Zdigits2_of_bound z 30 ltac:(lia) Hz) ltac:(lia))
    as (f & Hf & Hb & _).
  exists f. split; assumption.
Qed.

Lemma lerp_ok (a b : Z) (t : num) :
  Z.abs a < 2 ^ 30 -> Z.abs (b - a) < 2 ^ 30 -> num_ok t ->
  exists z, lerp a b t = Ok z.
Proof.
  intros Ha Hd Ht. unfold lerp. cbn [sub bind].
  destruct t as [k | f].
  - cbn [mul add bind to_int]. eexists; reflexivity.
  - cbn [num_ok] in Ht. cbn [mul to_float].
    destruct (float_of_int_small (b - a) Hd) as (fd & -> & Hfd). cbn [bind].
    destruct (fmul_below 31 100 fd f Hfd Ht ltac:(lia)) as [Hp _].
    cbn [add to_float].
    destruct (float_of_int_small a Ha) as (fa & -> & Hfa). cbn [bind to_int].
    pose proof (fadd_below 31 (31 + 100 + 1) fa (fmul fd f) Hfa Hp ltac:(lia)) as Hs.
    destruct (int_of_float_ok _ _ Hs) as (z & Hz & _).
    exists z. exact Hz.
Qed.

Lemma clamp_channel (r : Z) : is_channel (clamp r).
Proof. unfold is_channel, clamp. lia. Qed.

Lemma clamp_id (r : Z) : is_channel r -> clamp r = r.
Proof. unfold is_channel, clamp. lia. Qed.

(** ** The 256 channel values, one by one *)

Lemma channel_check_all : forallb channel_check (range 256) = true.
Proof. vm_compute. reflexivity. Qed.

Lemma channel_facts (c : Z) :
  is_channel c ->
  scale c (PFloat f0_1) = Ok (Z.quot c 10) /\
  (exists d, lerp (Z.quot c 10) c (PFloat f0_3) = Ok d /\ is_channel d) /\
  (exists l, lerp c 255 (PFloat f0_85) = Ok l /\ is_channel l) /\
  lerp c 255 (PFloat f1_0) = Ok 255.
Proof.
  intros Hc.
  pose proof channel_check_all as H. rewrite forallb_forall in H.
  specialize (H c). rewrite in_range in H. specialize (H ltac:(unfold is_channel in Hc; lia)).
  unfold channel_check in H.
  destruct (scale c (PFloat f0_1)) as [bg|]; [|discriminate].
  rewrite !andb_true_iff in H. destruct H as (((Hbg & Hd) & Hl) & Hw).
  apply Z.eqb_eq in Hbg. subst bg. split; [reflexivity|].
  split; [|split].
  - destruct (lerp (Z.quot c 10) c (PFloat f0_3)) as [d|]; [|discriminate].
    exists d. split; [reflexivity|]. unfold is_channel. lia.
  - destruct (lerp c 255 (PFloat f0_85)) as [l|]; [|discriminate].
    exists l. split; [reflexivity|]. unfold is_channel. lia.
  - destruct (lerp c 255 (PFloat f1_0)) as [l|]; [|discriminate].
    apply Z.eqb_eq in Hw. congruence.
Qed.

Lemma quot10_channel (c : Z) : is_channel c -> is_channel (Z.quot c 10) /\ Z.quot c 10 <= c.
Proof.
  unfold is_channel. intros H. rewrite Z.quot_div_nonneg by lia.
  pose proof (Z.div_le_upper_bound c 10 c ltac:(lia) ltac:(lia)).
  pose proof (Z.div_pos c 10 ltac:(lia) ltac:(lia)). lia.
Qed.

Lemma channel_small (a b : Z) :
  is_channel a -> is_channel b -> Z.abs a < 2 ^ 30 /\ Z.abs (b - a) < 2 ^ 30.
Proof. unfold is_channel. intros. change (2 ^ 30) with 1073741824. lia. Qed.

Lemma lerp_channel_ok (a b : Z) (t : num) :
  is_channel a -> is_channel b -> num_ok t -> exists z, lerp a b t = Ok z.
Proof.
  intros Ha Hb Ht. destruct (channel_small a b Ha Hb). apply lerp_ok; assumption.
Qed.

(** A quotient of two integers, the first at most the second, is a
    factor the interpolation accepts. *)
Lemma truediv_unit_ok (a b : Z) :
  0 <= a <= b -> 0 < b ->
  exists t, truediv (PInt a) (PInt b) = Ok t /\ num_ok t.
Proof.
  intros Ha Hb. cbn [truediv].
  destruct (int_truediv_unit a b Ha Hb) as (f & -> & Hf & _). cbn [bind].
  eexists; split; [reflexivity|]. eapply finite_below_weaken; [exact Hf | lia].
Qed.

(** Three interpolations in a row. *)
Lemma lerp3_ok (a1 b1 a2 b2 a3 b3 : Z) (t : num) :
  is_channel a1 -> is_channel b1 -> is_channel a2 -> is_channel b2 ->
  is_channel a3 -> is_channel b3 -> num_ok t ->
  exists r g b,
    (r <- lerp a1 b1 t ;; g <- lerp a2 b2 t ;; b <- lerp a3 b3 t ;; Ok (r, g, b))
    = Ok (r, g, b).
Proof.
  intros. 
  destruct (lerp_channel_ok a1 b1 t) as (r & ->); auto.
  destruct (lerp_channel_ok a2 b2 t) as (g & ->); auto.
  destruct (lerp_channel_ok a3 b3 t) as (b & ->); auto.
  exists r, g, b. reflexivity.
Qed.

(** ** The glyph variant's ramp *)

Lemma background_color (base : color) :
  is_color base -> is_color (background base) /\ channel_le (background base) base.
Proof.
  destruct base as [[r g] b]. intros (Hr & Hg & Hb). cbn [background is_color channel_le].
  destruct (quot10_channel r Hr), (quot10_channel g Hg), (quot10_channel b Hb). auto 10.
Qed.

Lemma ascii_body_ok (base : color) (nf idx i : Z) :
  is_color base -> 0 <= i < nf -> 0 <= idx ->
  exists c, Ascii.generate_shades_body base (background base) nf idx i = Ok c /\
            is_color c /\ (i = idx -> c = base).
Proof.
  destruct base as [[r g] b]. intros (Hr & Hg & Hb) Hi Hidx.
  unfold Ascii.generate_shades_body. cbn [background].
  destruct (channel_facts r Hr) as (_ & (dr & Edr & Hdr) & (lr & Elr & Hlr) & _).
  destruct (channel_facts g Hg) as (_ & (dg & Edg & Hdg) & (lg & Elg & Hlg) & _).
  destruct (channel_facts b Hb) as (_ & (db & Edb & Hdb) & (lb & Elb & Hlb) & _).
  rewrite Edr; cbn [bind]. rewrite Edg; cbn [bind]. rewrite Edb; cbn [bind].
  rewrite Elr; cbn [bind]. rewrite Elg; cbn [bind]. rewrite Elb; cbn [bind].
  destruct (Z.ltb_spec i idx) as [Hlt | Hge].
  - replace (idx >? 0) with true by (symmetry; apply Z.gtb_lt; lia).
    destruct (truediv_unit_ok i idx ltac:(lia) ltac:(lia)) as (t & -> & Ht). cbn [bind].
    destruct (lerp3_ok dr r dg g db b t) as (r' & g' & b' & ->); auto. cbn [bind].
    eexists; split; [reflexivity|]. split; [|lia].
    cbn [is_color]. auto using clamp_channel.
  - destruct (Z.eqb_spec i idx) as [Heq | Hne].
    + cbn [bind]. eexists; split; [reflexivity|]. split.
      * cbn [is_color]. auto using clamp_channel.
      * intros _. rewrite !clamp_id by assumption. reflexivity.
    + destruct (Z.gtb_spec (nf - 1 - idx) 0) as [Hpos | Hnpos].
      * destruct (truediv_unit_ok (i - idx) (nf - 1 - idx) ltac:(lia) ltac:(lia))
          as (t & -> & Ht). cbn [bind].
        destruct (lerp3_ok r lr g lg b lb t) as (r' & g' & b' & ->); auto. cbn [bind].
        eexists; split; [reflexivity|]. split; [|lia].
        cbn [is_color]. auto using clamp_channel.
      * cbn [bind].
        destruct (lerp3_ok r lr g lg b lb (PInt 0)) as (r' & g' & b' & ->);
          auto; try exact I. cbn [bind].
        eexists; split; [reflexivity|]. split; [|lia].
        cbn [is_color]. auto using clamp_channel.
Qed.

Lemma scale_background (base : color) :
  is_color base ->
  let '(r, g, b) := base in
  scale r (PFloat f0_1) = Ok (Z.quot r 10) /\
  scale g (PFloat f0_1) = Ok (Z.quot g 10) /\
  scale b (PFloat f0_1) = Ok (Z.quot b 10).
Proof.
  destruct base as [[r g] b]. intros (Hr & Hg & Hb).
  repeat split; apply channel_facts; assumption.
Qed.

Lemma ascii_generate_shades_ok (base : color) (N : Z) :
  is_color base -> 2 <= N ->
  exists shades,
    Ascii.generate_shades base N Ascii.bg_brightness_factor = Ok shades /\
    len shades = N /\
    nth_error shades 0 = Some (background base) /\
    Forall is_color shades /\
    nth_error shades (Z.to_nat (1 + (N - 2) / 2)) = Some base.
Proof.
  intros Hbase HN.
  pose proof (scale_background base Hbase) as Hsc.
  pose proof (background_color base Hbase) as [Hbg _].
  pose proof (ascii_body_ok base) as Hbody.
  unfold Ascii.generate_shades, Ascii.bg_brightness_factor.
  destruct base as [[r g] b]. destruct Hsc as (Er & Eg & Eb).
  replace (N <? 2) with false by (symmetry; apply Z.ltb_ge; lia).
  rewrite Er; cbn [bind]. rewrite Eg; cbn [bind]. rewrite Eb; cbn [bind].
  replace (N - 1 =? 0) with false by (symmetry; apply Z.eqb_neq; lia).
  cbn [background] in *.
  destruct (Z.eqb_spec (N - 1) 1) as [H1 | H1].
  - assert (N = 2) as -> by lia.
    eexists; split; [reflexivity|].
    split; [reflexivity|]. split; [reflexivity|].
    split; [|reflexivity].
    constructor; [exact Hbg|]. constructor; [exact Hbase | constructor].
  - set (nf := N - 1) in *. set (idx := (nf - 1) / 2).
    assert (0 <= idx < nf) as Hidx.
    { unfold idx. split; [apply Z.div_pos; lia|].
      apply Z.div_lt_upper_bound; lia. }
    destruct (mapM_ok (Ascii.generate_shades_body (r, g, b)
                         (Z.quot r 10, Z.quot g 10, Z.quot b 10) nf idx)
                      is_color (range nf)) as (fg & Efg & Hlen & HF).
    { intros i Hi. apply in_range in Hi.
      destruct (Hbody nf idx i Hbase Hi ltac:(lia)) as (c & Hc & Hcol & _).
      exists c. split; assumption. }
    rewrite Efg. cbn [bind].
    eexists; split; [reflexivity|].
    rewrite range_length in Hlen.
    split; [|split; [|split]].
    + rewrite len_app. unfold len. cbn [List.length]. rewrite Hlen. lia.
    + reflexivity.
    + apply Forall_app. split; [|assumption].
      constructor; [exact Hbg | constructor].
    + replace (Z.to_nat (1 + (N - 2) / 2)) with (S (Z.to_nat idx)).
      2:{ unfold idx, nf. replace (N - 1 - 1) with (N - 2) by lia.
          pose proof (Z.div_pos (N - 2) 2 ltac:(lia) ltac:(lia)). lia. }
      cbn [app nth_error].
      destruct (mapM_nth _ _ _ Efg (Z.to_nat idx) idx) as (c & Hc & Ec).
      { rewrite nth_error_range by lia. f_equal. lia. }
      destruct (Hbody nf idx idx Hbase Hidx ltac:(lia)) as (c' & Ec' & _ & Hmid).
      rewrite Hc. f_equal. rewrite Ec in Ec'. injection Ec' as ->. auto.
Qed.

(** ** Exact steps: small integers, halving, and the midpoint *)

Lemma Zdigits2_range (z k : Z) :
  0 <= k -> 0 < z < 2 ^ k -> 1 <= Zdigits2 z <= k.
Proof.
  intros Hk Hz. split.
  - assert (0 < Zdigits2 z) by (apply Zdigits2_pos_iff; lia). lia.
  - apply Zdigits2_le_iff; lia.
Qed.

(** A mantissa of 53 digits with exact location is left as it is. *)
Lemma binary_round_aux_exact (s : bool) (m : positive) (e : Z) :
  Zpos (digits2_pos m) = 53 -> -1074 <= e <= 971 ->
  binary_round_aux prec emax s (Zpos m) e loc_Exact = S754_finite s m e.
Proof.
  intros Hd He. unfold binary_round_aux, shr_fexp.
  cbn [Zdigits2 shr_record_of_loc]. rewrite Hd, fexp_eq.
  replace (Z.max (53 + e - 53) (-1074) - e) with 0 by lia.
  cbn [shr loc_of_shr_record shr_m round_nearest_even Zdigits2 shr_record_of_loc].
  rewrite Hd, fexp_eq.
  replace (Z.max (53 + e - 53) (-1074) - e) with 0 by lia.
  cbn [shr shr_m].
  destruct (Z.leb_spec e (emax - prec)) as [_|H]; [reflexivity|].
  unfold emax, prec in H. lia.
Qed.

(** A mantissa of 54 digits whose last digit is 0 loses that digit. *)
Lemma binary_round_aux_even (s : bool) (m : positive) (e : Z) :
  Zpos (digits2_pos m) = 53 -> -1074 <= e <= 970 ->
  binary_round_aux prec emax s (Zpos m~0) e loc_Exact = S754_finite s m (e + 1).
Proof.
  intros Hd He. unfold binary_round_aux, shr_fexp.
  cbn [Zdigits2 shr_record_of_loc digits2_pos]. rewrite Pos2Z.inj_succ, Hd, fexp_eq.
  replace (Z.max (Z.succ 53 + e - 53) (-1074) - e) with 1 by lia.
  cbn [shr iter_pos shr_1 orb loc_of_shr_record shr_m round_nearest_even Zdigits2
       shr_record_of_loc].
  rewrite Hd, fexp_eq.
  replace (Z.max (53 + (e + 1) - 53) (-1074) - (e + 1)) with 0 by lia.
  cbn [shr shr_m].
  destruct (Z.leb_spec (e + 1) (emax - prec)) as [_|H]; [reflexivity|].
  unfold emax, prec in H. lia.
Qed.

(** [float(z)] is exact for [0 < z < 2 ^ 53]. *)
Lemma float_of_int_exact (z : Z) :
  0 < z < 2 ^ 53 ->
  exists m, float_of_int z = Ok (S754_finite false m (Zdigits2 z - 53)) /\
            Zpos (digits2_pos m) = 53 /\
            Zpos m = z * 2 ^ (53 - Zdigits2 z).
Proof.
  intros Hz. destruct z as [|p|p]; try lia.
  assert (1 <= Zdigits2 (Zpos p) <= 53) as Hd by (apply Zdigits2_range; lia).
  cbn [Zdigits2] in *.
  unfold float_of_int. cbn [binary_normalize]. unfold binary_round.
  pose proof (shl_align_spec p 0 (fexp prec emax (Zpos (digits2_pos p) + 0))) as [Hm He].
  destruct (shl_align p 0 (fexp prec emax (Zpos (digits2_pos p) + 0))) as [mz ez].
  cbn [fst snd] in Hm, He. rewrite fexp_eq in Hm, He.
  replace (Z.max 0 (0 - Z.max (Zpos (digits2_pos p) + 0 - 53) (-1074)))
    with (53 - Zpos (digits2_pos p)) in Hm, He by lia.
  assert (Zpos (digits2_pos mz) = 53) as Hdz.
  { change (Zpos (digits2_pos mz)) with (Zdigits2 (Zpos mz)).
    rewrite Hm, Zdigits2_mul_pow2 by lia. cbn [Zdigits2]. lia. }
  rewrite (binary_round_aux_exact false mz ez Hdz) by lia.
  exists mz. split; [f_equal; f_equal; lia|]. split; assumption.
Qed.

(** Dividing a normal float by [2.0] lowers its exponent by one. *)
Lemma float_div_two (s : bool) (m : positive) (e : Z) :
  Zpos (digits2_pos m) = 53 -> -1000 <= e <= 900 ->
  float_div (S754_finite s m e) f2_0 = Ok (S754_finite s m (e - 1)).
Proof.
  intros Hd He. unfold float_div, f2_0. cbn [is_zero]. f_equal.
  unfold SFdiv, SFdiv_core_binary. cbn [Zdigits2]. rewrite Hd.
  change (Zpos (digits2_pos 4503599627370496)) with 53. rewrite fexp_eq.
  replace (Z.min (Z.max (53 + e - (53 + -51) - 53) (-1074)) (e - -51)) with (e - 2) by lia.
  replace (e - -51 - (e - 2)) with 53 by lia.
  rewrite Z.shiftl_mul_pow2 by lia.
  assert (Z.div_eucl (Zpos m * 2 ^ 53) 4503599627370496 = (Zpos m~0, 0)) as ->.
  { pose proof (Z.div_eucl_eq (Zpos m * 2 ^ 53) 4503599627370496 ltac:(lia)) as Heq.
    pose proof (Z.mod_pos_bound (Zpos m * 2 ^ 53) 4503599627370496 ltac:(lia)) as Hmod.
    unfold Z.modulo in Hmod.
    destruct (Z.div_eucl (Zpos m * 2 ^ 53) 4503599627370496) as [q r].
    change (2 ^ 53) with 9007199254740992 in Heq.
    assert (q = Zpos m~0 /\ r = 0) as [-> ->] by lia. reflexivity. }
  change (new_location 4503599627370496 0) with loc_Exact.
  rewrite xorb_false_r.
  rewrite binary_round_aux_even by (assumption || lia).
  f_equal. lia.
Qed.

(** Taking half of a normal float away from it leaves the half. *)
Lemma fsub_half (m : positive) (e : Z) :
  Zpos (digits2_pos m) = 53 -> -1000 <= e <= 900 ->
  fsub (S754_finite false m e) (S754_finite false m (e - 1)) = S754_finite false m (e - 1).
Proof.
  intros Hd He. unfold fsub, SFsub.
  replace (Z.min e (e - 1)) with (e - 1) by lia.
  pose proof (shl_align_spec m e (e - 1)) as [H1 _].
  pose proof (shl_align_spec m (e - 1) (e - 1)) as [H2 _].
  cbv zeta in H1, H2. cbn [cond_Zopp].
  rewrite H1, H2.
  replace (Z.max 0 (e - (e - 1))) with 1 by lia.
  replace (Z.max 0 (e - 1 - (e - 1))) with 0 by lia.
  change (2 ^ 1) with 2. change (2 ^ 0) with 1.
  replace (Zpos m * 2 - Zpos m * 1) with (Zpos m) by lia.
  cbn [binary_normalize]. unfold binary_round.
  pose proof (shl_align_spec m (e - 1) (fexp prec emax (Zpos (digits2_pos m) + (e - 1)))) as [Hm Hez].
  destruct (shl_align m (e - 1) (fexp prec emax (Zpos (digits2_pos m) + (e - 1)))) as [mz ez].
  cbn [fst snd] in Hm, Hez. rewrite Hd, fexp_eq in Hm, Hez.
  replace (Z.max 0 (e - 1 - Z.max (53 + (e - 1) - 53) (-1074))) with 0 in Hm, Hez by lia.
  change (2 ^ 0) with 1 in Hm.
  assert (mz = m) as -> by lia.
  replace ez with (e - 1) by lia.
  apply binary_round_aux_exact; [assumption | lia].
Qed.

(** The midpoint index [(N - 1) / 2.0] of the block variant, exactly. *)
Lemma shader_midpoint (N : Z) :
  2 <= N <= 2 ^ 53 ->
  exists m e,
    truediv (PInt (N - 1)) (PFloat f2_0) = Ok (PFloat (S754_finite false m e)) /\
    float_of_int (N - 1) = Ok (S754_finite false m (e + 1)) /\
    Zpos (digits2_pos m) = 53 /\ -53 <= e <= -1 /\
    Zpos m * 2 = (N - 1) * 2 ^ (- e).
Proof.
  intros HN.
  destruct (float_of_int_exact (N - 1) ltac:(lia)) as (m & Hf & Hd & Hm).
  assert (1 <= Zdigits2 (N - 1) <= 53) as Hdn by (apply Zdigits2_range; lia).
  exists m, (Zdigits2 (N - 1) - 53 - 1).
  cbn [truediv to_float]. rewrite Hf. cbn [bind].
  rewrite float_div_two by (assumption || lia). cbn [bind].
  split; [reflexivity|].
  split; [f_equal; f_equal; lia|].
  split; [assumption|]. split; [lia|].
  rewrite Hm.
  replace (- (Zdigits2 (N - 1) - 53 - 1)) with (Z.succ (53 - Zdigits2 (N - 1))) by lia.
  rewrite Z.pow_succ_r by lia. lia.
Qed.

Lemma compare_int_midpoint (i n : Z) (m : positive) (e : Z) :
  e < 0 -> Zpos m * 2 = n * 2 ^ (- e) ->
  compare_int_float i (S754_finite false m e) = Some (2 * i ?= n).
Proof.
  intros He Hm. cbn [compare_int_float cond_Zopp].
  destruct (Z.leb_spec 0 e) as [|_]; [lia|].
  f_equal.
  assert (0 < 2 ^ (- e)) as Hp by (apply Z.pow_pos_nonneg; lia).
  generalize dependent (2 ^ (- e)). intros P HP HPpos.
  destruct (Z.compare_spec (2 * i) n) as [H | H | H].
  - apply Z.compare_eq_iff. nia.
  - apply Z.compare_lt_iff. nia.
  - apply Z.compare_gt_iff. nia.
Qed.

(** ** The block variant's ramp *)

Lemma fsub_upper_half (m : positive) (e : Z) :
  Zpos (digits2_pos m) = 53 -> -1001 <= e <= 899 ->
  fsub (S754_finite false m (e + 1)) (S754_finite false m e) = S754_finite false m e.
Proof.
  intros Hd He. pose proof (fsub_half m (e + 1) Hd ltac:(lia)) as H.
  replace (e + 1 - 1) with e in H by lia. exact H.
Qed.

Lemma is_channel_255 : is_channel 255.
Proof. unfold is_channel. lia. Qed.

Lemma shader_body_ok (base : color) (N i : Z) :
  is_color base -> 2 <= N <= 2 ^ 53 -> 0 <= i < N ->
  exists c, Shader.generate_shades_body base (background base) N i = Ok c /\
            is_color c /\ (2 * i = N - 1 -> c = base).
Proof.
  destruct base as [[r g] b]. intros (Hr & Hg & Hb) HN Hi.
  destruct (quot10_channel r Hr) as [Hbr _].
  destruct (quot10_channel g Hg) as [Hbg _].
  destruct (quot10_channel b Hb) as [Hbb _].
  pose proof is_channel_255 as H255.
  unfold Shader.generate_shades_body. cbn [background].
  destruct (shader_midpoint N HN) as (m & e & Emid & Efn & Hd & He & Hm).
  rewrite Emid; cbn [bind].
  assert (finite_between (53 + e) (53 + e) (S754_finite false m e)) as Hmid
    by (cbn [finite_between]; lia).
  destruct (float_of_int_ok i 53 (Zdigits2_of_bound i 53 ltac:(lia) ltac:(lia)) ltac:(lia))
    as (fi & Efi & Hfi & _).
  unfold lt, gt. cbn [compare].
  rewrite (compare_int_midpoint i (N - 1) m e ltac:(lia) Hm).
  destruct (Z.compare_spec (2 * i) (N - 1)) as [Heq | Hlt | Hgt].
  - eexists; split; [reflexivity|]. split.
    + cbn [is_color]. auto using clamp_channel.
    + intros _. rewrite !clamp_id by assumption. reflexivity.
  - cbn [truediv to_float]. rewrite Efi; cbn [bind].
    destruct (float_div_ok (53 + 1) (53 + e) (53 + e) fi _ Hfi Hmid ltac:(lia))
      as (f & -> & Hf & _). cbn [bind].
    destruct (lerp3_ok (Z.quot r 10) r (Z.quot g 10) g (Z.quot b 10) b (PFloat f))
      as (r' & g' & b' & ->); auto.
    { cbn [num_ok]. eapply finite_below_weaken; [exact Hf | lia]. }
    cbn [bind]. eexists; split; [reflexivity|]. split; [|lia].
    cbn [is_color]. auto using clamp_channel.
  - cbn [sub to_float]. rewrite Efi; cbn [bind]. rewrite Efn; cbn [bind].
    rewrite fsub_upper_half by (assumption || lia).
    cbn [truediv to_float bind].
    pose proof (fsub_below (53 + 1) (53 + e) fi _ Hfi (finite_between_below _ _ _ Hmid)
                  ltac:(lia)) as Hn.
    destruct (float_div_ok _ (53 + e) (53 + e) _ _ Hn Hmid ltac:(lia))
      as (f & -> & Hf & _). cbn [bind].
    destruct (lerp3_ok r 255 g 255 b 255 (PFloat f)) as (r' & g' & b' & ->); auto.
    { cbn [num_ok]. eapply finite_below_weaken; [exact Hf | lia]. }
    cbn [bind]. eexists; split; [reflexivity|]. split; [|lia].
    cbn [is_color]. auto using clamp_channel.
Qed.

(** With two shades the second one is white. *)
Lemma shader_body_two (base : color) :
  is_color base ->
  Shader.generate_shades_body base (background base) 2 1 = Ok (255, 255, 255).
Proof.
  destruct base as [[r g] b]. intros (Hr & Hg & Hb).
  unfold Shader.generate_shades_body. cbn [background].
  assert (truediv (PInt (2 - 1)) (PFloat f2_0) = Ok (PFloat f0_5)) as ->
    by (vm_compute; reflexivity).
  cbn [bind].
  assert (lt (PInt 1) (PFloat f0_5) = false) as -> by (vm_compute; reflexivity).
  assert (gt (PInt 1) (PFloat f0_5) = true) as -> by (vm_compute; reflexivity).
  assert (sub (PInt 1) (PFloat f0_5) = Ok (PFloat f0_5)) as ->
    by (vm_compute; reflexivity).
  cbn [bind].
  assert (sub (PInt (2 - 1)) (PFloat f0_5) = Ok (PFloat f0_5)) as ->
    by (vm_compute; reflexivity).
  cbn [bind].
  assert (truediv (PFloat f0_5) (PFloat f0_5) = Ok (PFloat f1_0)) as ->
    by (vm_compute; reflexivity).
  cbn [bind].
  destruct (channel_facts r Hr) as (_ & _ & _ & ->).
  destruct (channel_facts g Hg) as (_ & _ & _ & ->).
  destruct (channel_facts b Hb) as (_ & _ & _ & ->).
  reflexivity.
Qed.

Lemma bind_ok_exists {A B : Type} (x : result A) (k : A -> result B) :
  (exists a, x = Ok a /\ exists b, k a = Ok b) -> exists b, bind x k = Ok b.
Proof. intros (a & -> & b & Hb). exists b. exact Hb. Qed.

(** The first ramp of the block variant never raises. *)
Lemma first_ramp_ok (base : color) (N : Z) :
  is_color base ->
  exists l, Shader.first_ramp base (background base) N = Ok l.
Proof.
  destruct base as [[r g] b]. intros (Hr & Hg & Hb).
  destruct (quot10_channel r Hr) as [Hbr _].
  destruct (quot10_channel g Hg) as [Hbg _].
  destruct (quot10_channel b Hb) as [Hbb _].
  pose proof is_channel_255 as H255.
  unfold Shader.first_ramp. cbn [background]. cbv beta iota zeta.
  set (steps := (N - 1) / 2).
  match goal with |- exists _, bind ?X _ = _ =>
    assert (exists shades, X = Ok shades) as (shades & E) end.
  { destruct (steps >? 0); [|eexists; reflexivity].
    match goal with |- context [mapM ?f ?l] =>
      destruct (mapM_ok f (fun _ => True) l) as (bs & Ebs & _ & _) end.
    - intros i Hi. apply in_range2 in Hi.
      destruct (truediv_unit_ok i (steps + 1) ltac:(lia) ltac:(lia)) as (t & -> & Ht).
      cbn [bind].
      destruct (lerp3_ok (Z.quot r 10) r (Z.quot g 10) g (Z.quot b 10) b t)
        as (r' & g' & b' & ->); auto.
      eexists; split; [reflexivity | exact I].
    - rewrite Ebs. cbn [bind]. eexists; reflexivity. }
  apply bind_ok_exists. exists shades. split; [exact E|].
  match goal with |- exists _, (if ?c then _ else _) = _ => destruct c end;
    [|eexists; reflexivity].
  match goal with |- context [mapM ?f ?l] =>
    destruct (mapM_ok f (fun _ => True) l) as (bs & Ebs & _ & _) end.
  - intros i Hi. apply in_range2 in Hi.
    match goal with |- context [truediv (PInt i) (PInt ?d)] =>
      destruct (truediv_unit_ok i d ltac:(lia) ltac:(lia)) as (t & -> & Ht) end.
    cbn [bind].
    destruct (lerp_channel_ok r 255 t) as (r' & ->); auto. cbn [bind].
    destruct (lerp_channel_ok g 255 t) as (g' & ->); auto. cbn [bind].
    destruct (lerp_channel_ok b 255 t) as (b' & ->); auto. cbn [bind].
    eexists; split; [reflexivity | exact I].
  - eexists. rewrite Ebs. cbn [bind]. reflexivity.
Qed.

Lemma shader_generate_shades_ok (base : color) (N : Z) :
  is_color base -> 2 <= N <= 2 ^ 53 ->
  exists shades,
    Shader.generate_shades base N Shader.bg_brightness_factor
      = ([PrintGenerated (len shades) shades], Ok shades) /\
    len shades = N /\
    nth_error shades 0 = Some (background base) /\
    Forall is_color shades /\
    (Z.odd N = true -> nth_error shades (Z.to_nat ((N - 1) / 2)) = Some base) /\
    (N = 2 -> shades = [background base; (255, 255, 255)]).
Proof.
  intros Hbase HN.
  pose proof (scale_background base Hbase) as Hsc.
  pose proof (background_color base Hbase) as [Hbgc _].
  pose proof (fun i => shader_body_ok base N i Hbase HN) as Hbody.
  pose proof (shader_body_two base Hbase) as Htwo.
  destruct (first_ramp_ok base N Hbase) as (l1 & E1).
  unfold Shader.generate_shades, Shader.bg_brightness_factor.
  destruct base as [[r g] b]. destruct Hsc as (Er & Eg & Eb).
  cbn [background] in *.
  replace (N <? 2) with false by (symmetry; apply Z.ltb_ge; lia).
  rewrite Er; cbn [bind]. rewrite Eg; cbn [bind]. rewrite Eb; cbn [bind].
  rewrite E1; cbn [bind].
  destruct (mapM_ok (Shader.generate_shades_body (r, g, b)
                       (Z.quot r 10, Z.quot g 10, Z.quot b 10) N)
                    is_color (range N)) as (sh & Esh & Hlen & HF).
  { intros i Hi. apply in_range in Hi.
    destruct (Hbody i Hi) as (c & Hc & Hcol & _). exists c. split; assumption. }
  rewrite Esh; cbn [bind].
  rewrite range_length in Hlen.
  destruct sh as [|c0 tl]; [cbn [List.length] in Hlen; lia|].
  cbn [Shader.set_first lift iobind emit ret app].
  eexists; split; [reflexivity|].
  split; [unfold len in *; cbn [List.length] in *; lia|].
  split; [reflexivity|].
  split; [inversion HF; subst; constructor; assumption|].
  split.
  - intros Hodd.
    assert (2 * ((N - 1) / 2) = N - 1) as Hhalf.
    { apply Z.odd_spec in Hodd. destruct Hodd as [k Hk].
      replace (N - 1) with (k * 2) by lia. rewrite Z.div_mul by lia. lia. }
    destruct (mapM_nth _ _ _ Esh (Z.to_nat ((N - 1) / 2)) ((N - 1) / 2)) as (c & Hc & Ec).
    { rewrite nth_error_range by lia. f_equal. lia. }
    destruct (Hbody ((N - 1) / 2) ltac:(lia)) as (c' & Ec' & _ & Hmid).
    rewrite Ec in Ec'. injection Ec' as ->. rewrite Hmid in Hc by lia.
    destruct (Z.to_nat ((N - 1) / 2)) as [|k] eqn:Ek; [lia|].
    cbn [nth_error] in *. exact Hc.
  - intros ->.
    destruct (mapM_nth _ _ _ Esh 1%nat 1) as (c & Hc & Ec); [reflexivity|].
    rewrite Htwo in Ec. injection Ec as <-.
    destruct tl as [|c1 [|c2 tl]]; cbn [List.length] in Hlen; try lia.
    cbn [nth_error] in Hc. injection Hc as ->. reflexivity.
Qed.

(** ** The brightness buckets *)

Lemma float_eqb_eq (f g : float) : float_eqb f g = true -> f = g.
Proof.
  destruct f as [s|s| |s m e], g as [s'|s'| |s' m' e']; simpl; try discriminate; intros H.
  - apply eqb_prop in H. congruence.
  - apply eqb_prop in H. congruence.
  - reflexivity.
  - rewrite !andb_true_iff in H. destruct H as [[Hs Hm] He].
    apply eqb_prop in Hs. apply Pos.eqb_eq in Hm. apply Z.eqb_eq in He. congruence.
Qed.

Lemma steps_ok_spec (l : list Z) :
  forall prev last, steps_ok prev l last = true ->
    prev <= last /\
    (forall a, In a l -> prev <= a <= last) /\
    (forall k, prev <= k <= last -> k = prev \/ In k l) /\
    (forall i j a b, (i <= j)%nat -> nth_error l i = Some a ->
                     nth_error l j = Some b -> a <= b).
Proof.
  induction l as [|a tl IH]; intros prev last H; cbn [steps_ok] in H.
  - apply Z.eqb_eq in H. subst. split; [lia|]. split; [|split].
    + intros x [].
    + intros k Hk. left. lia.
    + intros [|i] [|j] x y _ Hx; discriminate.
  - apply andb_true_iff in H. destruct H as [Ha Htl].
    destruct (IH a last Htl) as (Hle & Hin & Hcov & Hsort).
    assert (a = prev \/ a = prev + 1) as Hstep.
    { apply orb_true_iff in Ha. destruct Ha as [Ha | Ha]; apply Z.eqb_eq in Ha; lia. }
    split; [lia|]. split; [|split].
    + intros x [<- | Hx]; [lia|]. specialize (Hin x Hx). lia.
    + intros k Hk. destruct (Z.eq_dec k prev) as [->|Hne]; [left; reflexivity|].
      right. destruct (Hcov k ltac:(lia)) as [-> | Hk']; [left; reflexivity | right; assumption].
    + intros [|i] [|j] x y Hij Hx Hy; cbn [nth_error] in *.
      * injection Hx as <-. injection Hy as <-. lia.
      * injection Hx as <-. apply nth_error_In in Hy. specialize (Hin y Hy). lia.
      * lia.
      * eapply Hsort; [|eassumption|eassumption]. lia.
Qed.

Lemma list_eqb_nth (l l' : list Z) :
  list_eqb l l' = true -> forall i, nth_error l i = nth_error l' i.
Proof.
  revert l'. induction l as [|a tl IH]; intros [|a' tl'] H i; try discriminate.
  - reflexivity.
  - cbn [list_eqb] in H. apply andb_true_iff in H. destruct H as [Ha Htl].
    apply Z.eqb_eq in Ha. subst. destruct i; cbn [nth_error]; [reflexivity | auto].
Qed.

Lemma table_check_all : forallb table_check (range2 1 257) = true.
Proof. vm_cast_no_check (eq_refl true). Qed.

(** For up to 256 levels the two scripts compute the same index for every
    brightness, and the 256 indices climb from 0 to the last level in
    steps of at most 1. *)
Lemma table_facts (L : Z) :
  1 <= L <= 256 ->
  exists t,
    steps_ok 0 t (L - 1) = true /\
    nth_error t 0 = Some 0 /\
    List.length t = 256%nat /\
    forall b, 0 <= b <= 255 ->
      exists k, nth_error t (Z.to_nat b) = Some k /\
                ascii_cell_index L b = Ok k /\
                shader_cell_index L b = Ok k /\
                (L <= 185 -> k = spec_index L b).
Proof.
  intros HL.
  pose proof table_check_all as H. rewrite forallb_forall in H.
  specialize (H L). rewrite in_range2 in H. specialize (H ltac:(lia)).
  unfold table_check in H. cbv zeta in H.
  rewrite !andb_true_iff in H. destruct H as ((((Hst & Hhd) & Hlen) & Heq) & Hex).
  exists (index_table L). split; [exact Hst|].
  split.
  { destruct (index_table L) as [|[| |] tl]; try discriminate. reflexivity. }
  split.
  { apply Z.eqb_eq in Hlen. lia. }
  clear Hhd.
  intros b Hb.
  unfold index_table in *.
  unfold ascii_cell_index, shader_cell_index.
  destruct (Ascii.grayscale_step L) as [[z|f]|e] eqn:Ea; try discriminate.
  destruct (Shader.grayscale_step L) as [[z|g]|e] eqn:Es; try discriminate.
  apply float_eqb_eq in Heq. subst g. cbn [bind].
  set (gfun := fun b0 : Z => match Ascii.element_idx L (PFloat f) b0 with
                             | Ok k => k | Raise _ => -1 end) in *.
  assert (nth_error (map gfun (range 256)) (Z.to_nat b) = Some (gfun b)) as Hnth.
  { rewrite nth_error_map, nth_error_range by lia.
    cbn [option_map]. do 2 f_equal. lia. }
  destruct (steps_ok_spec _ _ _ Hst) as (_ & Hin & _ & _).
  pose proof (Hin _ (nth_error_In _ _ Hnth)) as Hk.
  assert (Shader.shade_index L (PFloat f) b = Ascii.element_idx L (PFloat f) b) as Hsame.
  { unfold Shader.shade_index, Ascii.element_idx.
    replace (L >? 0) with true by (symmetry; apply Z.gtb_lt; lia). reflexivity. }
  rewrite Hsame.
  exists (gfun b). split; [exact Hnth|].
  assert (Ascii.element_idx L (PFloat f) b = Ok (gfun b)) as Hidx.
  { unfold gfun in Hk |- *.
    destruct (Ascii.element_idx L (PFloat f) b); [reflexivity | lia]. }
  split; [exact Hidx|]. split; [exact Hidx|].
  intros H185.
  apply orb_true_iff in Hex. destruct Hex as [Hbig | Hex].
  { apply Z.ltb_lt in Hbig. lia. }
  pose proof (list_eqb_nth _ _ Hex (Z.to_nat b)) as Hn.
  rewrite Hnth, nth_error_map, nth_error_range in Hn by lia.
  cbn [option_map] in Hn. injection Hn as ->. f_equal. lia.
Qed.

(** The index of a cell is within the levels, whatever the step, as long
    as the step is a positive float that is not tiny. *)
Lemma shade_index_range (lo hi : Z) (step : float) (levels b : Z) :
  finite_between lo hi step -> sign_of step = false -> -900 <= lo ->
  1 <= levels -> 0 <= b <= 255 ->
  exists k, Shader.shade_index levels (PFloat step) b = Ok k /\
            0 <= k <= levels - 1.
Proof.
  intros Hstep Hsign Hlo HL Hb.
  unfold Shader.shade_index, truediv. cbn [to_float].
  destruct (float_of_int_ok b 8) as (x & Ex & Hx & Hsx & _).
  { apply Zdigits2_of_bound; [lia|]. rewrite Z.abs_eq by lia.
    change (2 ^ 8) with 256. lia. }
  { lia. }
  rewrite Ex. cbn [bind].
  destruct (float_div_ok 9 lo hi x step Hx Hstep ltac:(lia)) as (q & Eq & Hq & Hsq).
  rewrite Eq. cbn [bind to_int].
  destruct (int_of_float_ok _ q Hq) as (z & Ez & Hz).
  rewrite Ez. cbn [bind].
  rewrite Hsx, Hsign in Hsq by lia. specialize (Hz Hsq).
  eexists. split; [reflexivity | lia].
Qed.

Lemma element_idx_shade_index (levels : Z) (step : num) (b : Z) :
  1 <= levels ->
  Ascii.element_idx levels step b = Shader.shade_index levels step b.
Proof.
  intros HL. unfold Ascii.element_idx, Shader.shade_index.
  replace (levels >? 0) with true by (symmetry; apply Z.gtb_lt; lia).
  reflexivity.
Qed.

Lemma Zdigits2_lt_pow2 (z k : Z) : 0 <= k -> 0 <= z < 2 ^ k -> Zdigits2 z <= k.
Proof.
  intros Hk Hz. apply Zdigits2_of_bound; [lia|]. rewrite Z.abs_eq; lia.
Qed.

Lemma shader_cell_index_range (N b : Z) :
  1 <= N < 2 ^ 900 -> 0 <= b <= 255 ->
  exists k, shader_cell_index N b = Ok k /\ 0 <= k <= N - 1.
Proof.
  intros HN Hb. unfold shader_cell_index, Shader.grayscale_step, truediv.
  pose proof (Zdigits2_lt_pow2 N 900 ltac:(lia) ltac:(lia)) as HdN.
  pose proof (Zdigits2_nonneg N) as HdN0.
  destruct (int_truediv_between 256 N) as (f & Ef & Hf & Hs); try lia.
  { change (Zdigits2 256) with 9. lia. }
  rewrite Ef. cbn [bind].
  change (Zdigits2 256) with 9 in Hf.
  eapply shade_index_range; eauto; lia.
Qed.

Lemma ascii_cell_index_range (L b : Z) :
  1 <= L < 2 ^ 900 -> 0 <= b <= 255 ->
  exists k, ascii_cell_index L b = Ok k /\ 0 <= k <= L - 1.
Proof.
  intros HL Hb. unfold ascii_cell_index, Ascii.grayscale_step, truediv.
  replace (L >? 0) with true by (symmetry; apply Z.gtb_lt; lia).
  cbn [to_float bind].
  pose proof (Zdigits2_lt_pow2 L 900 ltac:(lia) ltac:(lia)) as HdL.
  pose proof (Zdigits2_nonneg L) as HdL0.
  destruct (float_of_int_ok L 900 HdL ltac:(lia)) as (y & Ey & _ & Hsy & Hy).
  specialize (Hy ltac:(lia)). specialize (Hsy ltac:(lia)).
  rewrite Ey. cbn [bind].
  assert (finite_between 9 9 f256_0) as H256 by (cbn; lia).
  destruct (SFdiv_between 9 9 _ _ f256_0 y H256 Hy ltac:(lia) ltac:(lia)) as (Hq & Hsq).
  unfold float_div.
  replace (is_zero y) with false by (destruct y; cbn in Hy |- *; tauto).
  cbn [bind]. rewrite element_idx_shade_index by lia.
  apply (shade_index_range (9 - (Zdigits2 L + 1)) (9 - Zdigits2 L + 2)
           (SFdiv prec emax f256_0 y) L b Hq); try lia.
  rewrite Hsq, Hsy. reflexivity.
Qed.

(** The block variant with two shades sends brightness 200 to index 1;
    with one foreground level the formula gives 0. *)
Lemma shader_index_two_shades :
  shader_cell_index 2 200 = Ok 1 /\ spec_index (2 - 1) 200 = 0.
Proof. split; vm_compute; reflexivity. Qed.

(** The first level count at which the floating-point index leaves the
    exact quotient. *)
Lemma index_rounding_186 :
  ascii_cell_index 186 128 = Ok 92 /\ shader_cell_index 186 128 = Ok 92 /\
  spec_index 186 128 = 93.
Proof. repeat split; vm_compute; reflexivity. Qed.

Lemma index_formula_stmt (L b : Z) :
  1 <= L < 2 ^ 900 -> 0 <= b <= 255 ->
  exists ka ks,
    ascii_cell_index L b = Ok ka /\ shader_cell_index L b = Ok ks /\
    0 <= ka <= L - 1 /\ 0 <= ks <= L - 1 /\
    (L <= 256 -> ka = ks) /\
    (L <= 185 -> ka = spec_index L b).
Proof.
  intros HL Hb.
  destruct (ascii_cell_index_range L b HL Hb) as (ka & Ea & Hka).
  destruct (shader_cell_index_range L b HL Hb) as (ks & Es & Hks).
  exists ka, ks. repeat (split; [assumption || lia|]).
  split.
  - intros H256. destruct (table_facts L ltac:(lia)) as (t & _ & _ & _ & Ht).
    destruct (Ht b Hb) as (k & _ & Ea' & Es' & _). congruence.
  - intros H185. destruct (table_facts L ltac:(lia)) as (t & _ & _ & _ & Ht).
    destruct (Ht b Hb) as (k & _ & Ea' & _ & Hex). specialize (Hex H185). congruence.
Qed.

Lemma index_monotone_onto_stmt (L : Z) :
  1 <= L <= 256 ->
  (forall b1 b2, 0 <= b1 -> b1 <= b2 -> b2 <= 255 ->
     exists k1 k2,
       ascii_cell_index L b1 = Ok k1 /\ shader_cell_index L b1 = Ok k1 /\
       ascii_cell_index L b2 = Ok k2 /\ shader_cell_index L b2 = Ok k2 /\
       k1 <= k2) /\
  (forall k, 0 <= k <= L - 1 ->
     exists b, 0 <= b <= 255 /\
       ascii_cell_index L b = Ok k /\ shader_cell_index L b = Ok k).
Proof.
  intros HL. destruct (table_facts L HL) as (t & Hst & Hhd & Hlen & Ht).
  destruct (steps_ok_spec _ _ _ Hst) as (_ & _ & Hcov & Hsort).
  split.
  - intros b1 b2 H1 H12 H2.
    destruct (Ht b1 ltac:(lia)) as (k1 & N1 & A1 & S1 & _).
    destruct (Ht b2 ltac:(lia)) as (k2 & N2 & A2 & S2 & _).
    exists k1, k2. repeat (split; [assumption|]).
    eapply Hsort; [|exact N1|exact N2]. lia.
  - intros k Hk.
    assert (exists n, nth_error t n = Some k) as (n & Hn).
    { destruct (Hcov k ltac:(lia)) as [-> | Hin].
      - exists 0%nat. exact Hhd.
      - apply In_nth_error in Hin. exact Hin. }
    assert (n < 256)%nat as Hlt.
    { rewrite <- Hlen. apply nth_error_Some. congruence. }
    destruct (Ht (Z.of_nat n) ltac:(lia)) as (k' & N' & A' & S' & _).
    rewrite Nat2Z.id in N'. assert (k' = k) by congruence. subst k'.
    exists (Z.of_nat n). repeat split; try lia; assumption.
Qed.

Lemma range_NoDup (n : Z) : NoDup (range n).
Proof.
  unfold range, range2. apply Injective_map_NoDup; [|apply seq_NoDup].
  intros i j H. lia.
Qed.

(** A function of the 256 brightness values takes at most 256 values. *)
Lemma distinct_values_bounded (f : Z -> result Z) (ks : list Z) :
  NoDup ks ->
  (forall k, In k ks -> exists b, 0 <= b <= 255 /\ f b = Ok k) ->
  (List.length ks <= 256)%nat.
Proof.
  intros Hnd Hall.
  assert (exists bs, NoDup bs /\ incl bs (range 256) /\
                     List.length bs = List.length ks /\
                     forall b, In b bs -> exists k, In k ks /\ f b = Ok k)
    as (bs & Hbs & Hincl & Hlen & _).
  { induction Hnd as [|k ks' Hk Hnd IH].
    - exists []. repeat split; [constructor | intros b [] | intros b []].
    - destruct IH as (bs & Hbs & Hincl & Hlen & Hval).
      { intros k' Hk'. apply Hall. right. exact Hk'. }
      destruct (Hall k (or_introl eq_refl)) as (b & Hb & Eb).
      exists (b :: bs). split; [|split; [|split]].
      + constructor; [|exact Hbs].
        intros Hin. destruct (Hval b Hin) as (k' & Hk' & Ek').
        assert (k' = k) by congruence. subst k'. contradiction.
      + intros x [<- | Hx]; [apply in_range; lia | apply Hincl; exact Hx].
      + cbn [List.length]. congruence.
      + intros x [<- | Hx].
        * exists k. split; [left; reflexivity | exact Eb].
        * destruct (Hval x Hx) as (k' & Hk' & Ek').
          exists k'. split; [right; exact Hk' | exact Ek']. }
  rewrite <- Hlen.
  pose proof (NoDup_incl_length Hbs Hincl) as H.
  rewrite range_length in H. exact H.
Qed.

Lemma not_onto_above_256 (f : Z -> result Z) (L : Z) :
  256 < L ->
  ~ (forall k, 0 <= k <= L - 1 -> exists b, 0 <= b <= 255 /\ f b = Ok k).
Proof.
  intros HL Honto.
  pose proof (distinct_values_bounded f (range 257) (range_NoDup 257)) as H.
  rewrite range_length in H.
  assert (Z.to_nat 257 <= 256)%nat as Hbad.
  { apply H. intros k Hk. apply in_range in Hk. apply Honto. lia. }
  lia.
Qed.

(** ** The grid height *)

(** [h / w] for two image sides is a float below [2 ^ 33]. *)
Lemma aspect_ok (w h : Z) :
  0 < w < 2 ^ 31 -> 0 <= h < 2 ^ 31 ->
  exists f, int_truediv h w = Ok f /\ finite_below 33 f /\ sign_of f = false.
Proof.
  intros Hw Hh. unfold int_truediv.
  replace (w =? 0) with false by (symmetry; apply Z.eqb_neq; lia).
  pose proof (Zdigits2_lt_pow2 w 31 ltac:(lia) ltac:(lia)) as Hdw.
  pose proof (Zdigits2_lt_pow2 h 31 ltac:(lia) ltac:(lia)) as Hdh.
  pose proof (Zdigits2_nonneg h) as Hdh0.
  assert (0 < Zdigits2 w) as Hdw0 by (apply Zdigits2_pos_iff; lia).
  pose proof (raw_below h) as Hx.
  pose proof (raw_between w ltac:(lia)) as Hy.
  destruct (SFdiv_below _ _ _ _ _ Hx Hy ltac:(lia)) as (Hq & Hs).
  rewrite (raw_sign h), (raw_sign w) in Hs by lia. cbn [xorb] in Hs.
  destruct (SFdiv prec emax (raw h) (raw w)) as [s|s| |s m e] eqn:E;
    cbn [finite_below] in Hq; try contradiction.
  - eexists. split; [reflexivity|]. split; [exact I | exact Hs].
  - eexists. split; [reflexivity|]. split; [cbn [finite_below]; lia | exact Hs].
Qed.

Lemma at_least_one (z : Z) : 1 <= (if z <? 1 then 1 else z).
Proof. destruct (z <? 1) eqn:E; [lia | apply Z.ltb_ge in E; lia]. Qed.

Lemma glyph_height_ok (w h W : Z) (c : float) :
  0 < w < 2 ^ 31 -> 0 <= h < 2 ^ 31 -> 0 <= W < 2 ^ 31 ->
  finite_between (-60) 60 c ->
  exists g, Ascii.output_grid_height_chars w h W (PFloat c) = Ok g /\ 1 <= g.
Proof.
  intros Hw Hh HW Hc. unfold Ascii.output_grid_height_chars.
  replace (w >? 0) with true by (symmetry; apply Z.gtb_lt; lia).
  unfold truediv at 1.
  destruct (aspect_ok w h Hw Hh) as (a & Ea & Ha & _).
  rewrite Ea. cbn [bind mul to_float].
  destruct (float_of_int_ok W 31) as (x & Ex & Hx & _).
  { apply Zdigits2_lt_pow2; lia. }
  { lia. }
  rewrite Ex. cbn [bind truediv to_float].
  destruct (fmul_below 32 33 x a Hx Ha ltac:(lia)) as (Hp & _).
  destruct (float_div_ok _ _ _ _ _ Hp Hc ltac:(lia)) as (q & Eq & Hq & _).
  rewrite Eq. cbn [bind to_int].
  destruct (int_of_float_ok _ q Hq) as (z & Ez & _).
  rewrite Ez. cbn [bind].
  eexists. split; [reflexivity | apply at_least_one].
Qed.

Lemma block_height_ok (w h W : Z) (c : float) :
  0 < w < 2 ^ 31 -> 0 <= h < 2 ^ 31 -> 0 <= W < 2 ^ 31 ->
  finite_between (-60) 60 c ->
  exists s, Shader.height w h W (PFloat c) = Ok s /\ 1 <= s.
Proof.
  intros Hw Hh HW Hc. unfold Shader.height.
  unfold truediv at 1.
  destruct (aspect_ok w h Hw Hh) as (a & Ea & Ha & _).
  rewrite Ea. cbn [bind mul to_float].
  destruct (float_of_int_ok W 31) as (x & Ex & Hx & _).
  { apply Zdigits2_lt_pow2; lia. }
  { lia. }
  rewrite Ex. cbn [bind mul to_float to_int].
  destruct (fmul_below 32 33 x a Hx Ha ltac:(lia)) as (Hp & _).
  destruct (fmul_below _ 60 _ c Hp (finite_between_below _ _ _ Hc) ltac:(lia)) as (Hq & _).
  destruct (int_of_float_ok _ _ Hq) as (z & Ez & _).
  rewrite Ez. cbn [bind].
  eexists. split; [reflexivity | apply at_least_one].
Qed.

(** The example of the specification, and one where truncation shows. *)
Lemma height_examples :
  Ascii.output_grid_height_chars 1000 500 100 (PFloat f0_5) = Ok 100 /\
  Shader.height 1000 500 100 (PFloat f0_5) = Ok 25 /\
  Ascii.output_grid_height_chars 10 7 4 (PFloat f1_0) = Ok 2 /\
  Shader.height 10 7 4 (PFloat f1_0) = Ok 2 /\
  spec_grid_height 1000 500 100 1 2 = 100 /\
  truncated_quotient_height 1000 500 100 1 2 = 100 /\
  truncated_product_height 1000 500 100 1 2 = 25 /\
  spec_grid_height 10 7 4 1 1 = 3 /\
  truncated_quotient_height 10 7 4 1 1 = 2 /\
  truncated_product_height 10 7 4 1 1 = 2.
Proof. repeat split; vm_compute; reflexivity. Qed.

(** ** The drawing loop of the block variant *)

Lemma in_box_in_cell (cw ch x y px py : Z) :
  in_box (x * cw) (y * ch) (x * cw + cw - 1) (y * ch + ch - 1) px py = true
  <-> in_cell cw ch x y px py.
Proof.
  unfold in_box, in_cell. rewrite !andb_true_iff, !Z.leb_le. tauto.
Qed.

(** The regions of two cells do not overlap. *)
Lemma in_cell_unique (cw ch x y x' y' px py : Z) :
  1 <= cw -> 1 <= ch ->
  in_cell cw ch x y px py -> in_cell cw ch x' y' px py -> x = x' /\ y = y'.
Proof.
  unfold in_cell. intros Hcw Hch [Hx Hy] [Hx' Hy']. split; nia.
Qed.

Lemma list_get_nth {A : Type} (l : list A) (k : Z) (a : A) :
  0 <= k -> nth_error l (Z.to_nat k) = Some a -> list_get l k = Ok a.
Proof.
  intros Hk Hn. unfold list_get.
  assert ((k <? 0) = false) as E by (apply Z.ltb_ge; lia).
  rewrite E. cbv zeta. rewrite E, Hn. reflexivity.
Qed.

(** One cell: nothing happens at index 0, one rectangle over the region of
    the cell otherwise. *)
Lemma draw_cell_step (shades : list color) (N : Z) (step : num)
    (cw ch : Z) (grid : Z -> Z -> Z) (cv : canvas) (x y k : Z) (c : color) :
  Shader.shade_index N step (grid x y) = Ok k -> 0 <= k ->
  nth_error shades (Z.to_nat k) = Some c -> 1 <= cw -> 1 <= ch ->
  Shader.draw_cell shades N step cw ch grid cv (x, y) =
    if k >? 0
    then ([DrawRectangle (x * cw) (y * ch) (x * cw + cw - 1) (y * ch + ch - 1) c],
          Ok {| cwidth := cwidth cv; cheight := cheight cv;
                pixel := fun px py =>
                  if in_box (x * cw) (y * ch) (x * cw + cw - 1)
                       (y * ch + ch - 1) px py
                  then c else pixel cv px py |})
    else ([], Ok cv).
Proof.
  intros Hidx Hk Hc Hcw Hch. unfold Shader.draw_cell.
  rewrite Hidx. unfold lift at 1. cbn [iobind].
  rewrite (list_get_nth shades k c Hk Hc). unfold lift at 1. cbn [iobind app].
  destruct (k >? 0); [|reflexivity].
  unfold emit, lift, rectangle. cbn [iobind app].
  replace (x * cw + cw - 1 <? x * cw) with false by (symmetry; apply Z.ltb_ge; lia).
  replace (y * ch + ch - 1 <? y * ch) with false by (symmetry; apply Z.ltb_ge; lia).
  reflexivity.
Qed.

Lemma draw_fold (shades : list color) (N : Z) (step : num) (cw ch : Z)
    (grid : Z -> Z -> Z) (l : list (Z * Z)) :
  1 <= cw -> 1 <= ch ->
  (forall x y, In (x, y) l ->
     exists k c, Shader.shade_index N step (grid x y) = Ok k /\ 0 <= k /\
                 nth_error shades (Z.to_nat k) = Some c) ->
  forall cv,
  exists out cv',
    iofold (Shader.draw_cell shades N step cw ch grid) l cv = (out, Ok cv') /\
    (forall x y k c, In (x, y) l ->
       Shader.shade_index N step (grid x y) = Ok k -> 0 < k ->
       nth_error shades (Z.to_nat k) = Some c ->
       (forall px py, in_cell cw ch x y px py -> pixel cv' px py = c) /\
       In (DrawRectangle (x * cw) (y * ch) (x * cw + cw - 1)
             (y * ch + ch - 1) c) out) /\
    (forall px py,
       (forall x y, In (x, y) l -> in_cell cw ch x y px py ->
          Shader.shade_index N step (grid x y) = Ok 0) ->
       pixel cv' px py = pixel cv px py /\
       forall e, In e out -> paints e px py = false).
Proof.
  intros Hcw Hch. induction l as [|[hx hy] tl IH]; intros Hall cv.
  - exists [], cv. split; [reflexivity|]. split.
    + intros x y k c [].
    + intros px py _. split; [reflexivity | intros e []].
  - destruct (Hall hx hy (or_introl eq_refl)) as (hk & hc & Ehk & Hhk & Ehc).
    cbn [iofold].
    rewrite (draw_cell_step shades N step cw ch grid cv hx hy hk hc Ehk Hhk Ehc Hcw Hch).
    assert (forall x y, In (x, y) tl ->
              exists k c, Shader.shade_index N step (grid x y) = Ok k /\ 0 <= k /\
                          nth_error shades (Z.to_nat k) = Some c) as Hall'.
    { intros x y Hin. apply Hall. right. exact Hin. }
    destruct (hk >? 0) eqn:Egt.
    + apply Z.gtb_lt in Egt.
      set (cv1 := {| cwidth := cwidth cv; cheight := cheight cv;
                     pixel := fun px py =>
                       if in_box (hx * cw) (hy * ch) (hx * cw + cw - 1)
                            (hy * ch + ch - 1) px py
                       then hc else pixel cv px py |}).
      destruct (IH Hall' cv1) as (out & cv' & Efold & HA & HB).
      exists (DrawRectangle (hx * cw) (hy * ch) (hx * cw + cw - 1)
                (hy * ch + ch - 1) hc :: out), cv'.
      split; [cbn [iobind]; rewrite Efold; reflexivity|]. split.
      * intros x y k c Hin Ek Hk Ec.
        destruct (in_dec (fun a b : Z * Z =>
                    match Z.eq_dec (fst a) (fst b), Z.eq_dec (snd a) (snd b) with
                    | left e1, left e2 => left (injective_projections _ _ e1 e2)
                    | right n, _ => right (fun e => n (f_equal fst e))
                    | _, right n => right (fun e => n (f_equal snd e))
                    end) (x, y) tl) as [Htl | Hnot].
        -- destruct (HA x y k c Htl Ek Hk Ec) as [Hpix Hev].
           split; [exact Hpix | right; exact Hev].
        -- destruct Hin as [Heq | Htl]; [|contradiction].
           injection Heq as -> ->.
           assert (k = hk) by congruence. subst k.
           assert (c = hc) by congruence. subst c.
           split; [|left; reflexivity].
           intros px py Hcell.
           destruct (HB px py) as [Hpix _].
           { intros x' y' Hin' Hcell'.
             destruct (in_cell_unique cw ch x y x' y' px py Hcw Hch Hcell Hcell') as [-> ->].
             contradiction. }
           rewrite Hpix. unfold cv1. cbn [pixel].
           apply in_box_in_cell in Hcell. rewrite Hcell. reflexivity.
      * intros px py Hzero.
        destruct (HB px py) as [Hpix Hev].
        { intros x y Hin. apply Hzero. right. exact Hin. }
        assert (in_box (hx * cw) (hy * ch) (hx * cw + cw - 1)
                  (hy * ch + ch - 1) px py = false) as Hout.
        { destruct (in_box (hx * cw) (hy * ch) (hx * cw + cw - 1)
                      (hy * ch + ch - 1) px py) eqn:E; [|reflexivity].
          apply in_box_in_cell in E.
          pose proof (Hzero hx hy (or_introl eq_refl) E) as E0.
          assert (hk = 0) by congruence. lia. }
        split.
        -- rewrite Hpix. unfold cv1. cbn [pixel]. rewrite Hout. reflexivity.
        -- intros e [<- | He]; [exact Hout | apply Hev; exact He].
    + assert (hk = 0) as -> by (destruct (Z.gtb_spec hk 0); [discriminate | lia]).
      destruct (IH Hall' cv) as (out & cv' & Efold & HA & HB).
      exists out, cv'.
      split; [cbn [iobind]; rewrite Efold; reflexivity|]. split.
      * intros x y k c Hin Ek Hk Ec.
        destruct Hin as [Heq | Htl].
        -- injection Heq as -> ->. assert (k = 0) by congruence. lia.
        -- exact (HA x y k c Htl Ek Hk Ec).
      * intros px py Hzero. apply HB.
        intros x y Hin. apply Hzero. right. exact Hin.
Qed.

Lemma in_cells (w h x y : Z) : In (x, y) (cells w h) <-> 0 <= x < w /\ 0 <= y < h.
Proof.
  unfold cells. rewrite in_flat_map. split.
  - intros (y' & Hy' & Hin). apply in_map_iff in Hin.
    destruct Hin as (x' & Heq & Hx'). injection Heq as -> ->.
    apply in_range in Hy'. apply in_range in Hx'. lia.
  - intros [Hx Hy]. exists y. split; [apply in_range; lia|].
    apply in_map_iff. exists x. split; [reflexivity | apply in_range; lia].
Qed.

Lemma shader_step_ok (N : Z) :
  1 <= N < 2 ^ 900 ->
  exists step, Shader.grayscale_step N = Ok step /\
    forall b, 0 <= b <= 255 ->
      shader_cell_index N b = Shader.shade_index N step b /\
      exists k, Shader.shade_index N step b = Ok k /\ 0 <= k <= N - 1.
Proof.
  intros HN.
  destruct (Shader.grayscale_step N) as [step|e] eqn:E.
  - exists step. split; [reflexivity|]. intros b Hb.
    destruct (shader_cell_index_range N b HN Hb) as (k & Ek & Hk).
    unfold shader_cell_index in *. rewrite E in *. cbn [bind] in *.
    split; [reflexivity|]. exists k. split; assumption.
  - exfalso. destruct (shader_cell_index_range N 0 HN ltac:(lia)) as (k & Ek & _).
    unfold shader_cell_index in Ek. rewrite E in Ek. discriminate.
Qed.

Lemma nth_error_in_len {A : Type} (l : list A) (k : Z) :
  0 <= k < len l -> exists a, nth_error l (Z.to_nat k) = Some a.
Proof.
  intros Hk. unfold len in Hk.
  destruct (nth_error l (Z.to_nat k)) as [a|] eqn:E; [exists a; reflexivity|].
  apply nth_error_None in E. lia.
Qed.

Lemma block_canvas_stmt (shades : list color) (N width height cw ch : Z)
    (grid : Z -> Z -> Z) :
  len shades = N -> 1 <= N < 2 ^ 900 ->
  0 <= width -> 0 <= height -> 1 <= cw -> 1 <= ch ->
  (forall x y, 0 <= x < width -> 0 <= y < height -> 0 <= grid x y <= 255) ->
  exists out cv bg,
    Shader.draw_cells shades N width height cw ch grid = (out, Ok cv) /\
    nth_error shades 0 = Some bg /\
    forall x y, 0 <= x < width -> 0 <= y < height ->
      exists k c,
        shader_cell_index N (grid x y) = Ok k /\
        nth_error shades (Z.to_nat k) = Some c /\
        (forall px py, in_cell cw ch x y px py -> pixel cv px py = c) /\
        (k = 0 -> c = bg /\
                  forall e px py, In e out -> in_cell cw ch x y px py ->
                                  paints e px py = false) /\
        (0 < k -> In (DrawRectangle (x * cw) (y * ch) (x * cw + cw - 1)
                        (y * ch + ch - 1) c) out).
Proof.
  intros Hlen HN Hw Hh Hcw Hch Hgrid.
  destruct (nth_error_in_len shades 0 ltac:(lia)) as (bg & Ebg).
  change (Z.to_nat 0) with 0%nat in Ebg.
  destruct (shader_step_ok N HN) as (step & Estep & Hstep).
  assert (forall x y, In (x, y) (cells width height) ->
            exists k c, Shader.shade_index N step (grid x y) = Ok k /\ 0 <= k /\
                        nth_error shades (Z.to_nat k) = Some c) as Hall.
  { intros x y Hin. apply in_cells in Hin. destruct Hin as [Hx Hy].
    destruct (Hstep (grid x y) (Hgrid x y Hx Hy)) as (_ & k & Ek & Hk).
    destruct (nth_error_in_len shades k ltac:(lia)) as (c & Ec).
    exists k, c. repeat split; [assumption | lia | assumption]. }
  set (cv0 := {| cwidth := width * cw; cheight := height * ch;
                 pixel := fun _ _ => bg |}).
  destruct (draw_fold shades N step cw ch grid (cells width height) Hcw Hch Hall cv0)
    as (out & cv & Efold & HA & HB).
  exists out, cv, bg. split.
  { unfold Shader.draw_cells.
    rewrite (list_get_nth shades 0 bg ltac:(lia) Ebg). cbn [bind].
    unfold image_new.
    replace (width * cw <? 0) with false by (symmetry; apply Z.ltb_ge; nia).
    replace (height * ch <? 0) with false by (symmetry; apply Z.ltb_ge; nia).
    cbn [orb]. unfold lift at 1. cbn [iobind].
    rewrite Estep. unfold lift. cbn [iobind].
    fold cv0. rewrite Efold. reflexivity. }
  split; [exact Ebg|].
  intros x y Hx Hy.
  assert (In (x, y) (cells width height)) as Hin by (apply in_cells; tauto).
  destruct (Hall x y Hin) as (k & c & Ek & Hk & Ec).
  destruct (Hstep (grid x y) (Hgrid x y Hx Hy)) as (Eidx & _).
  exists k, c. split; [rewrite Eidx; exact Ek|]. split; [exact Ec|].
  assert (k = 0 -> forall px py, in_cell cw ch x y px py ->
            forall x' y', In (x', y') (cells width height) ->
              in_cell cw ch x' y' px py ->
              Shader.shade_index N step (grid x' y') = Ok 0) as Hzero.
  { intros -> px py Hcell x' y' _ Hcell'.
    destruct (in_cell_unique cw ch x y x' y' px py Hcw Hch Hcell Hcell') as [<- <-].
    exact Ek. }
  split; [|split].
  - intros px py Hcell.
    destruct (Z.eq_dec k 0) as [-> | Hne].
    + destruct (HB px py (Hzero eq_refl px py Hcell)) as [Hpix _].
      rewrite Hpix. unfold cv0. cbn [pixel].
      change (Z.to_nat 0) with 0%nat in Ec. congruence.
    + destruct (HA x y k c Hin Ek ltac:(lia) Ec) as [Hpix _].
      apply Hpix. exact Hcell.
  - intros ->. split.
    + change (Z.to_nat 0) with 0%nat in Ec. congruence.
    + intros e px py He Hcell.
      destruct (HB px py (Hzero eq_refl px py Hcell)) as [_ Hev].
      apply Hev. exact He.
  - intros Hpos. destruct (HA x y k c Hin Ek Hpos Ec) as [_ Hev]. exact Hev.
Qed.

(** ** [hex_to_rgb] *)

Lemma hex_digit_check_all (c : ascii) : hex_digit_check c = true.
Proof.
  destruct c as [[] [] [] [] [] [] [] []]; vm_compute; reflexivity.
Qed.

Lemma hex_digit_facts (c : ascii) :
  is_hex_digit c = true ->
  exists d, hex_digit c = Some d /\ 0 <= d <= 15 /\
            is_space c = false /\ is_char 35 c = false /\
            is_char 43 c = false /\ is_char 45 c = false /\
            is_char 95 c = false /\ is_char 120 c = false /\
            is_char 88 c = false.
Proof.
  intros H. pose proof (hex_digit_check_all c) as Hc.
  unfold is_hex_digit in H. unfold hex_digit_check in Hc.
  destruct (hex_digit c) as [d|]; [|discriminate].
  rewrite !andb_true_iff, !negb_true_iff, !Z.leb_le in Hc.
  exists d. intuition.
Qed.

(** [int(s, 16)] of two hexadecimal digits. *)
Lemma int16_two_digits (c1 c2 : ascii) :
  is_hex_digit c1 = true -> is_hex_digit c2 = true ->
  exists v, int16 (String c1 (String c2 EmptyString)) = Ok v /\ 0 <= v <= 255.
Proof.
  intros H1 H2.
  destruct (hex_digit_facts c1 H1) as (d1 & E1 & Hd1 & Hsp1 & _ & Hpl1 & Hmi1 & Hus1 & _).
  destruct (hex_digit_facts c2 H2) as (d2 & E2 & Hd2 & _ & _ & _ & _ & _ & Hx2 & HX2).
  exists (16 * (16 * 0 + d1) + d2). split; [|lia].
  unfold int16. cbn [skip_space]. rewrite Hsp1.
  cbn [skip_sign]. rewrite Hpl1, Hmi1.
  cbn [skip_prefix16]. rewrite Hx2, HX2, andb_false_r.
  cbn [starts_with_underscore]. rewrite Hus1.
  cbn [scan_digits]. rewrite E1, E2. cbn [orb negb skip_space]. reflexivity.
Qed.

Lemma hex_to_rgb_six_digits (s : string) :
  six_hex_digits s = true ->
  exists r g b, hex_to_rgb s = Ok (r, g, b) /\ is_color (r, g, b).
Proof.
  unfold six_hex_digits. intros H. apply andb_true_iff in H. destruct H as [Hlen Hall].
  apply Z.eqb_eq in Hlen. unfold strlen in Hlen.
  destruct s as [|c1 [|c2 [|c3 [|c4 [|c5 [|c6 [|c7 s]]]]]]];
    cbn [String.length] in Hlen; try lia.
  cbn [list_ascii_of_string forallb] in Hall.
  rewrite !andb_true_iff in Hall.
  destruct Hall as (H1 & H2 & H3 & H4 & H5 & H6 & _).
  destruct (int16_two_digits c1 c2 H1 H2) as (r & Er & Hr).
  destruct (int16_two_digits c3 c4 H3 H4) as (g & Eg & Hg).
  destruct (int16_two_digits c5 c6 H5 H6) as (b & Eb & Hb).
  destruct (hex_digit_facts c1 H1) as (_ & _ & _ & _ & Hh & _).
  exists r, g, b. split; [|cbn; unfold is_channel; lia].
  unfold hex_to_rgb. cbn [lstrip_hash]. rewrite Hh.
  change (strlen (String c1 (String c2 (String c3 (String c4 (String c5
            (String c6 EmptyString)))))) =? 6) with true.
  cbn [negb]. unfold slice2. cbn [substring].
  rewrite Er, Eg, Eb. reflexivity.
Qed.

Lemma lstrip_hash_hashes (n : nat) (s : string) :
  lstrip_hash (hashes n ++ s) = lstrip_hash s.
Proof.
  induction n as [|n IH]; [reflexivity|].
  cbn [hashes append lstrip_hash].
  change (is_char 35 "#") with true. exact IH.
Qed.

Lemma hex_to_rgb_hashes (n : nat) (s : string) :
  hex_to_rgb (hashes n ++ s) = hex_to_rgb s.
Proof. unfold hex_to_rgb. rewrite lstrip_hash_hashes. reflexivity. Qed.

Lemma hex_to_rgb_bad_length (s : string) :
  strlen (lstrip_hash s) <> 6 ->
  hex_to_rgb s = Raise (ValueError (Text "Invalid hex color format. Use #RRGGBB.")).
Proof.
  intros H. unfold hex_to_rgb.
  replace (strlen (lstrip_hash s) =? 6) with false
    by (symmetry; apply Z.eqb_neq; exact H).
  reflexivity.
Qed.

Lemma hex_to_rgb_minus : hex_to_rgb "-fffff" = Ok (-15, 255, 255).
Proof. vm_compute. reflexivity. Qed.

Lemma hex_to_rgb_sample : hex_to_rgb "#44ccaa" = Ok (68, 204, 170).
Proof. vm_compute. reflexivity. Qed.

(** Whatever [int(s, 16)] and [hex_to_rgb] raise is a [ValueError]. *)
Lemma int16_raises (s : string) (e : exn) :
  int16 s = Raise e -> is_ValueError e = true.
Proof.
  unfold int16. destruct (skip_sign (skip_space s)) as [neg s1].
  destruct (starts_with_underscore (skip_prefix16 s1)).
  - intros H. injection H as <-. reflexivity.
  - destruct (scan_digits (skip_prefix16 s1) false false 0) as [[v rest]|].
    + destruct (skip_space rest); intros H; [discriminate|].
      injection H as <-. reflexivity.
    + intros H. injection H as <-. reflexivity.
Qed.

Lemma hex_to_rgb_raises (s : string) (e : exn) :
  hex_to_rgb s = Raise e -> is_ValueError e = true.
Proof.
  unfold hex_to_rgb.
  destruct (negb (strlen (lstrip_hash s) =? 6)).
  - intros H. injection H as <-. reflexivity.
  - destruct (int16 (slice2 (lstrip_hash s) 0)) as [r|e1] eqn:E1; cbn [bind].
    2: { intros H. injection H as <-. eapply int16_raises; eassumption. }
    destruct (int16 (slice2 (lstrip_hash s) 2)) as [g|e2] eqn:E2; cbn [bind].
    2: { intros H. injection H as <-. eapply int16_raises; eassumption. }
    destruct (int16 (slice2 (lstrip_hash s) 4)) as [b|e3] eqn:E3; cbn [bind].
    2: { intros H. injection H as <-. eapply int16_raises; eassumption. }
    discriminate.
Qed.

(** ** The first ramp of the block variant is dead *)

Lemma generate_shades_simplified_eq (base : color) (N : Z) :
  is_color base ->
  Shader.generate_shades base N Shader.bg_brightness_factor
  = generate_shades_simplified base N Shader.bg_brightness_factor.
Proof.
  intros Hbase.
  pose proof (scale_background base Hbase) as Hsc.
  destruct (first_ramp_ok base N Hbase) as (l & El).
  unfold Shader.generate_shades, generate_shades_simplified,
    Shader.bg_brightness_factor.
  destruct (N <? 2); [reflexivity|].
  destruct base as [[r g] b]. destruct Hsc as (Er & Eg & Eb).
  cbn [background] in El.
  rewrite Er, Eg, Eb. cbn [bind]. rewrite El. cbn [bind]. reflexivity.
Qed.

(** ** The drivers and the two checks *)

Lemma try_or_return_ok {A : Type} (out : list event) (a : A)
    (handler : exn -> option (io unit)) (k : A -> io unit) :
  try_or_return (out, Ok a) handler k = (out ++ fst (k a), snd (k a)).
Proof. unfold try_or_return. destruct (k a). reflexivity. Qed.

(** A color string [hex_to_rgb] refuses ends either driver at once: the
    message is printed and nothing else happens. *)
Lemma shader_driver_bad_color (w : world) (image_path hex_color : string)
    (width num_shades cell_width cell_height : Z) (output_path : string)
    (c : num) (e : exn) :
  hex_to_rgb hex_color = Raise e ->
  Shader.image_to_ascii_art w image_path hex_color width num_shades
    cell_width cell_height output_path c
  = ([PrintExn "Error: " e], Ok tt).
Proof.
  intros H. unfold Shader.image_to_ascii_art. rewrite H.
  unfold lift, try_or_return. rewrite (hex_to_rgb_raises _ _ H). reflexivity.
Qed.

Lemma ascii_driver_bad_color (w : world) (image_path hex_color : string)
    (output_width_chars : Z) (charset : string) (font_path : option string)
    (font_size : Z) (cell_width_px cell_height_px : option Z) (c : num)
    (posterize_bits : Z) (skip : bool) (output_path : string) (e : exn) :
  hex_to_rgb hex_color = Raise e ->
  Ascii.image_to_ascii_art w image_path hex_color output_width_chars charset
    font_path font_size cell_width_px cell_height_px c posterize_bits skip
    output_path
  = ([PrintExn "Error: " e], Ok tt).
Proof.
  intros H. unfold Ascii.image_to_ascii_art. rewrite H.
  unfold lift, try_or_return. rewrite (hex_to_rgb_raises _ _ H). reflexivity.
Qed.

(** Fewer than two shades ends the block variant's driver the same way;
    the glyph variant's driver stops at an empty character set. *)
Lemma shader_driver_few_shades (w : world) (image_path hex_color : string)
    (width num_shades cell_width cell_height : Z) (output_path : string)
    (c : num) (base : color) :
  hex_to_rgb hex_color = Ok base -> num_shades < 2 ->
  Shader.image_to_ascii_art w image_path hex_color width num_shades
    cell_width cell_height output_path c
  = ([PrintExn "Error: "
        (ValueError (Text "Number of shades must be at least 2."))], Ok tt).
Proof.
  intros H HN. unfold Shader.image_to_ascii_art. rewrite H.
  unfold lift at 1. rewrite try_or_return_ok.
  unfold Shader.generate_shades.
  replace (num_shades <? 2) with true by (symmetry; apply Z.ltb_lt; lia).
  reflexivity.
Qed.

Lemma ascii_driver_empty_charset (w : world) (image_path hex_color : string)
    (output_width_chars : Z) (font_path : option string)
    (font_size : Z) (cell_width_px cell_height_px : option Z) (c : num)
    (posterize_bits : Z) (skip : bool) (output_path : string) (base : color) :
  hex_to_rgb hex_color = Ok base ->
  Ascii.image_to_ascii_art w image_path hex_color output_width_chars
    EmptyString font_path font_size cell_width_px cell_height_px c
    posterize_bits skip output_path
  = ([Print "Error: Character set cannot be empty."], Ok tt).
Proof.
  intros H. unfold Ascii.image_to_ascii_art. rewrite H.
  unfold lift at 1. rewrite try_or_return_ok. reflexivity.
Qed.

Lemma ascii_generate_shades_few (base : color) (N : Z) (k : num) :
  N < 2 ->
  Ascii.generate_shades base N k = Raise (ValueError (Text
    "Total number of shades must be at least 2 (background + one foreground).")).
Proof.
  intros HN. unfold Ascii.generate_shades.
  replace (N <? 2) with true by (symmetry; apply Z.ltb_lt; lia).
  reflexivity.
Qed.

(** The ramps of the color that [-fffff] decodes to. *)
Lemma shader_shades_minus :
  Shader.generate_shades (-15, 255, 255) 5 Shader.bg_brightness_factor
  = ([PrintGenerated 5 [(-1, 25, 25); (0, 140, 140); (0, 255, 255);
                        (120, 255, 255); (255, 255, 255)]],
     Ok [(-1, 25, 25); (0, 140, 140); (0, 255, 255); (120, 255, 255);
         (255, 255, 255)]).
Proof. vm_compute. reflexivity. Qed.

Lemma ascii_shades_minus :
  Ascii.generate_shades (-15, 255, 255) 3 Ascii.bg_brightness_factor
  = Ok [(-1, 25, 25); (0, 255, 255); (214, 255, 255)].
Proof. vm_compute. reflexivity. Qed.

(** Opening the image is the first thing the rest of a driver does. *)
Lemma open_image_first (w : world) (image_path : string)
    (handler : exn -> option (io unit)) (k : source -> io unit) :
  (forall e, handler e <> None) ->
  exists out r,
    try_or_return
      (_ <~ emit (ImageOpen image_path) ;; lift (image_open w image_path))
      handler k
    = (ImageOpen image_path :: out, r).
Proof.
  intros Hh. unfold emit, lift, iobind.
  destruct (image_open w image_path) as [img|e]; cbn [app].
  - rewrite try_or_return_ok. eexists _, _. reflexivity.
  - unfold try_or_return. specialize (Hh e).
    destruct (handler e) as [[out r]|]; [|congruence].
    eexists _, _. reflexivity.
Qed.

Lemma shader_driver_minus (w : world) (image_path : string)
    (width cell_width cell_height : Z) (output_path : string) (c : num) :
  exists shades out r,
    Shader.image_to_ascii_art w image_path "-fffff" width 5 cell_width
      cell_height output_path c
    = (PrintGenerated 5 shades :: ImageOpen image_path :: out, r).
Proof.
  unfold Shader.image_to_ascii_art.
  rewrite hex_to_rgb_minus. unfold lift at 1. rewrite try_or_return_ok.
  rewrite shader_shades_minus, try_or_return_ok.
  match goal with |- context [try_or_return ?m ?h ?k] =>
    destruct (open_image_first w image_path h k) as (out & r & E) end.
  { intros e. destruct (is_FileNotFoundError e); discriminate. }
  rewrite E. cbn [app fst snd]. eexists _, _, _. reflexivity.
Qed.

Lemma ascii_driver_minus (w : world) (image_path : string)
    (output_width_chars font_size cw ch : Z) (c : num) (posterize_bits : Z)
    (skip : bool) (output_path : string) (f : font) :
  truetype w "DejaVuSansMono.ttf" font_size = Ok f ->
  exists out r,
    Ascii.image_to_ascii_art w image_path "-fffff" output_width_chars "ab"
      (Some "DejaVuSansMono.ttf"%string) font_size (Some cw) (Some ch) c
      posterize_bits skip output_path
    = (FontLoad "DejaVuSansMono.ttf" font_size :: ImageOpen image_path :: out,
       r).
Proof.
  intros Hf. unfold Ascii.image_to_ascii_art.
  rewrite hex_to_rgb_minus. unfold lift at 1. rewrite try_or_return_ok.
  change (strlen "ab" =? 0) with false. cbv iota zeta.
  change (strlen "ab" + 1) with 3.
  rewrite ascii_shades_minus. unfold lift at 1. rewrite try_or_return_ok.
  unfold Ascii.load_font. cbn [Ascii.truthy]. cbv iota.
  rewrite Hf. unfold emit at 1, lift at 1, iobind at 1. cbn [app].
  unfold try_except. rewrite try_or_return_ok.
  destruct (char_estimate w f font_size) as [cwe che].
  unfold lift at 1 2. cbn [iobind].
  match goal with |- context [try_or_return ?m ?h ?k] =>
    destruct (open_image_first w image_path h k) as (out & r & E) end.
  { intros e. destruct (is_FileNotFoundError e); discriminate. }
  rewrite E. cbn [app fst snd]. eexists _, _. reflexivity.
Qed.

(** ** The value of a rounded result

    A mantissa of 53 digits or more, rounded to 53 digits, moves by at
    most one unit of the last digit kept: in units of [2 ^ ex], the
    rounded value [V] and every number between [mx] and [mx + 1] are
    within the factor [1 + 2 ^ -52] of each other. *)
Lemma binary_round_aux_value (s : bool) (mx ex : Z) (l : location) :
  0 < mx -> 53 <= Zdigits2 mx -> -1021 <= Zdigits2 mx + ex <= 1023 ->
  exists (m : positive) (e : Z),
    binary_round_aux prec emax s mx ex l = S754_finite s m e /\
    Zpos (digits2_pos m) = 53 /\ ex <= e /\
    Zdigits2 mx + ex <= 53 + e <= Zdigits2 mx + ex + 1 /\
    Zpos m * 2 ^ (e - ex) * 2 ^ 52 <= mx * (2 ^ 52 + 1) /\
    (mx + 1) * 2 ^ 52 <= Zpos m * 2 ^ (e - ex) * (2 ^ 52 + 1).
Proof.
  intros Hm Hd Hr.
  pose proof (shr_fexp_spec mx ex l ltac:(lia)) as [H1m H1e].
  unfold binary_round_aux.
  destruct (shr_fexp prec emax mx ex l) as [mrs1 e1] eqn:E1.
  cbn [fst snd] in H1m, H1e.
  set (dx := Zdigits2 mx) in *.
  replace (Z.max 0 (Z.max (dx + ex - 53) (-1074) - ex)) with (dx - 53)
    in H1m, H1e by lia.
  set (n1 := dx - 53) in *.
  assert (0 < 2 ^ n1) as Hp1 by (apply Z.pow_pos_nonneg; lia).
  set (m1' := shr_m mrs1) in *.
  assert (Zdigits2 m1' = 53) as Hd1'.
  { rewrite H1m, Zdigits2_div_pow2 by lia. fold dx. lia. }
  assert (0 <= m1') as Hm1'0 by (rewrite H1m; apply Z.div_pos; lia).
  assert (2 ^ 52 <= m1' < 2 ^ 53) as Hm1'.
  { split.
    - apply (Zdigits2_ge_iff m1' 53); [|lia|lia].
      apply Zdigits2_pos_iff; lia.
    - apply (Zdigits2_le_iff m1' 53); lia. }
  assert (m1' * 2 ^ n1 <= mx < m1' * 2 ^ n1 + 2 ^ n1) as Hlo.
  { pose proof (Z.div_mod mx (2 ^ n1) ltac:(lia)) as Hdm.
    pose proof (Z.mod_pos_bound mx (2 ^ n1) ltac:(lia)) as Hmod.
    rewrite <- H1m in Hdm. lia. }
  set (m1 := round_nearest_even m1' (loc_of_shr_record mrs1)).
  pose proof (round_nearest_even_bounds m1' (loc_of_shr_record mrs1)) as Hrd.
  fold m1 in Hrd.
  pose proof (shr_fexp_spec m1 e1 loc_Exact ltac:(lia)) as [H2m H2e].
  destruct (shr_fexp prec emax m1 e1 loc_Exact) as [mrs2 e2] eqn:E2.
  cbn [fst snd] in H2m, H2e.
  assert (53 <= Zdigits2 m1 <= 54) as Hd1.
  { split.
    - rewrite <- Hd1'. apply Zdigits2_mono. lia.
    - apply Zdigits2_le_iff; [lia | lia |].
      change (2 ^ 54) with (2 * 2 ^ 53). lia. }
  change (2 ^ 52) with 4503599627370496 in *.
  change (2 ^ 53) with 9007199254740992 in *.
  assert (Zdigits2 m1 = 53 \/ Zdigits2 m1 = 54) as [Hc | Hc] by lia.
  - (* no second shift *)
    replace (Z.max 0 (Z.max (Zdigits2 m1 + e1 - 53) (-1074) - e1)) with 0
      in H2m, H2e by lia.
    rewrite Z.pow_0_r, Z.div_1_r in H2m.
    rewrite H2m.
    destruct m1 as [|p|p] eqn:Ep; try lia.
    replace (e2 <=? emax - prec) with true
      by (symmetry; apply Z.leb_le; unfold emax, prec; lia).
    exists p, e2. split; [reflexivity|].
    split; [exact Hc|]. split; [lia|]. split; [lia|].
    replace (e2 - ex) with n1 by lia. nia.
  - (* the mantissa became 2 ^ 53 *)
    assert (m1 = 9007199254740992) as Hm1.
    { assert (2 ^ 53 <= m1) as H
        by (apply (Zdigits2_ge_iff m1 54); lia).
      change (2 ^ 53) with 9007199254740992 in H. lia. }
    replace (Z.max 0 (Z.max (Zdigits2 m1 + e1 - 53) (-1074) - e1)) with 1
      in H2m, H2e by lia.
    rewrite H2m, Hm1.
    change (9007199254740992 / 2 ^ 1) with 4503599627370496.
    replace (e2 <=? emax - prec) with true
      by (symmetry; apply Z.leb_le; unfold emax, prec; lia).
    exists 4503599627370496%positive, e2. split; [reflexivity|].
    split; [reflexivity|]. split; [lia|]. split; [lia|].
    replace (e2 - ex) with (n1 + 1) by lia.
    rewrite Z.pow_add_r by lia. change (2 ^ 1) with 2. nia.
Qed.

(** ** Powers of two as rationals *)

Lemma two_neq_0 : ~ (2 == 0)%Q.
Proof. discriminate. Qed.

Lemma Qpow2_pos (e : Z) : (0 < 2 ^ e)%Q.
Proof. apply Qpower_0_lt. reflexivity. Qed.

Lemma pos_pow_1_l (p : positive) : (1 ^ p = 1)%positive.
Proof.
  induction p as [|p IH] using Pos.peano_ind; [reflexivity|].
  rewrite Pos.pow_succ_r, IH. reflexivity.
Qed.

Lemma inject_Z_pow2 (n : Z) : 0 <= n -> (inject_Z (2 ^ n) == 2 ^ n)%Q.
Proof.
  intros Hn. destruct n as [|p|p]; [reflexivity | | lia].
  change 2%Q with (2 # 1). rewrite Qpower_decomp_pos.
  rewrite pos_pow_1_l. reflexivity.
Qed.

Lemma inject_Z_scale (m ex e : Z) :
  ex <= e -> (inject_Z (m * 2 ^ (e - ex)) * 2 ^ ex == inject_Z m * 2 ^ e)%Q.
Proof.
  intros H. rewrite inject_Z_mult, inject_Z_pow2 by lia.
  rewrite <- Qmult_assoc, <- Qpower_plus by exact two_neq_0.
  replace (e - ex + ex) with e by lia. reflexivity.
Qed.

Lemma fval_pos (m : positive) (e : Z) :
  (fval (S754_finite false m e) == inject_Z (Zpos m) * 2 ^ e)%Q.
Proof. reflexivity. Qed.

Lemma fval_nonneg (f : float) : sign_of f = false -> (0 <= fval f)%Q.
Proof.
  destruct f as [s|s| |s m e]; cbn [fval sign_of]; intros Hs; try lra.
  subst s. cbn [cond_Zopp].
  pose proof (Qpow2_pos e).
  assert (0 < inject_Z (Zpos m))%Q by (unfold Qlt; cbn; lia).
  nra.
Qed.

(** ** Chains of roundings *)

Lemma within_refl (a : Q) : (0 <= a)%Q -> within 1 a a.
Proof. intros H. unfold within. repeat split; lra. Qed.

Lemma within_sym (k a b : Q) : within k a b -> within k b a.
Proof. unfold within. tauto. Qed.

Lemma within_trans (k k' a b c : Q) :
  (0 <= k)%Q -> (0 <= k')%Q ->
  within k a b -> within k' b c -> within (k * k') a c.
Proof.
  unfold within. intros Hk Hk' (Ha & Hb & H1 & H2) (_ & Hc & H3 & H4).
  repeat split; try assumption.
  - apply Qle_trans with (b * k)%Q; [exact H1|].
    setoid_replace (c * (k * k'))%Q with (c * k' * k)%Q by ring.
    apply Qmult_le_compat_r; assumption.
  - apply Qle_trans with (b * k')%Q; [exact H4|].
    setoid_replace (a * (k * k'))%Q with (a * k * k')%Q by ring.
    apply Qmult_le_compat_r; assumption.
Qed.

Lemma within_mult (k a b c : Q) :
  (0 <= c)%Q -> within k a b -> within k (c * a) (c * b).
Proof.
  unfold within. intros Hc (Ha & Hb & H1 & H2).
  repeat split; nra.
Qed.

Lemma within_div (k a b c : Q) :
  (0 < c)%Q -> within k a b -> within k (a / c) (b / c).
Proof.
  intros Hc (Ha & Hb & H1 & H2). unfold within, Qdiv.
  assert (0 < / c)%Q as Hi by (apply Qinv_lt_0_compat; exact Hc).
  set (i := (/ c)%Q) in *.
  repeat split; nra.
Qed.

Lemma within_weaken (k k' a b : Q) :
  (k <= k')%Q -> within k a b -> within k' a b.
Proof.
  unfold within. intros Hk (Ha & Hb & H1 & H2).
  repeat split; try assumption; nra.
Qed.

(** ** The value of a product, a quotient, a conversion *)

Lemma inject_Z_nonneg (z : Z) : 0 <= z -> (0 <= inject_Z z)%Q.
Proof. intros H. unfold Qle. cbn. lia. Qed.

Lemma inject_Z_pos (z : Z) : 0 < z -> (0 < inject_Z z)%Q.
Proof. intros H. unfold Qlt. cbn. lia. Qed.

Lemma Zle_Qle_mul (a b c d : Z) :
  a * b <= c * d -> (inject_Z a * inject_Z b <= inject_Z c * inject_Z d)%Q.
Proof. intros H. rewrite <- !inject_Z_mult, <- Zle_Qle. exact H. Qed.

Lemma Zlt_Qlt_mul (a c d : Z) :
  a < c * d -> (inject_Z a < inject_Z c * inject_Z d)%Q.
Proof. intros H. rewrite <- !inject_Z_mult, <- Zlt_Qlt. exact H. Qed.

Lemma Zle_Qle_mul_l (a b c : Z) :
  a * b <= c -> (inject_Z a * inject_Z b <= inject_Z c)%Q.
Proof. intros H. rewrite <- !inject_Z_mult, <- Zle_Qle. exact H. Qed.

(** Integers within one unit of the last digit, scaled by [t]. *)
Lemma within_units (V P : Z) (t : Q) :
  (0 < t)%Q -> 0 <= V -> 0 <= P ->
  V * 2 ^ 52 <= P * (2 ^ 52 + 1) -> P * 2 ^ 52 <= V * (2 ^ 52 + 1) ->
  within one_ulp (inject_Z V * t) (inject_Z P * t).
Proof.
  intros Ht HV HP H1 H2.
  pose proof (inject_Z_nonneg V HV) as HV'.
  pose proof (inject_Z_nonneg P HP) as HP'.
  apply Zle_Qle_mul in H1, H2.
  change (inject_Z (2 ^ 52)) with (4503599627370496 # 1) in H1, H2.
  change (inject_Z (2 ^ 52 + 1)) with (4503599627370497 # 1) in H1, H2.
  set (v := inject_Z V) in *. set (p := inject_Z P) in *.
  assert (v <= p * one_ulp)%Q as A by (unfold one_ulp; lra).
  assert (p <= v * one_ulp)%Q as B by (unfold one_ulp; lra).
  unfold within. repeat split; try nra.
Qed.

(** The same for a quotient [M / d] known by its integer part [q]. *)
Lemma within_units_div (V q M d : Z) (t : Q) :
  (0 < t)%Q -> 0 <= V -> 0 <= q -> 0 < d ->
  V * 2 ^ 52 <= q * (2 ^ 52 + 1) -> (q + 1) * 2 ^ 52 <= V * (2 ^ 52 + 1) ->
  q * d <= M < (q + 1) * d ->
  within one_ulp (inject_Z V * t) (inject_Z M / inject_Z d * t).
Proof.
  intros Ht HV Hq Hd H1 H2 [H3 H4].
  pose proof (inject_Z_nonneg V HV) as HV'.
  pose proof (inject_Z_nonneg q Hq) as Hq'.
  pose proof (inject_Z_pos d Hd) as Hd'.
  apply Zle_Qle_mul in H1, H2. apply Zle_Qle_mul_l in H3.
  apply Zlt_Qlt_mul in H4.
  rewrite inject_Z_plus in H2, H4.
  change (inject_Z (2 ^ 52)) with (4503599627370496 # 1) in H1, H2.
  change (inject_Z (2 ^ 52 + 1)) with (4503599627370497 # 1) in H1, H2.
  change (inject_Z 1) with 1%Q in H2, H4.
  set (v := inject_Z V) in *. set (k := inject_Z q) in *.
  set (m := inject_Z M) in *. set (dd := inject_Z d) in *.
  assert (k <= m / dd)%Q as A by (apply Qle_shift_div_l; assumption).
  assert (m / dd < k + 1)%Q as B by (apply Qlt_shift_div_r; assumption).
  set (r := (m / dd)%Q) in *. clearbody r.
  assert (v <= r * one_ulp)%Q as C by (unfold one_ulp; lra).
  assert (r <= v * one_ulp)%Q as E by (unfold one_ulp; lra).
  assert (0 <= r)%Q by lra.
  unfold within. repeat split; try nra.
Qed.

Lemma digits_mul (a b : positive) :
  Zpos (digits2_pos a) + Zpos (digits2_pos b) - 1
  <= Zdigits2 (Zpos (a * b))
  <= Zpos (digits2_pos a) + Zpos (digits2_pos b).
Proof.
  pose proof (digits2_pos_bounds a) as [Ha1 Ha2].
  pose proof (digits2_pos_bounds b) as [Hb1 Hb2].
  set (da := Zpos (digits2_pos a)) in *. set (db := Zpos (digits2_pos b)) in *.
  assert (0 < 2 ^ (da - 1)) by (apply Z.pow_pos_nonneg; lia).
  assert (0 < 2 ^ (db - 1)) by (apply Z.pow_pos_nonneg; lia).
  split.
  - apply Zdigits2_ge_iff; [lia | lia |].
    replace (da + db - 1 - 1) with ((da - 1) + (db - 1)) by lia.
    rewrite Z.pow_add_r, Pos2Z.inj_mul by lia. nia.
  - apply Zdigits2_le_iff; [lia | lia |].
    rewrite Z.pow_add_r, Pos2Z.inj_mul by lia. nia.
Qed.

(** A product with at least 53 digits, rounded. *)
Lemma fmul_value (mx my : positive) (ex ey : Z) :
  let Mx := Zpos (digits2_pos mx) + ex in
  let My := Zpos (digits2_pos my) + ey in
  54 <= Zpos (digits2_pos mx) + Zpos (digits2_pos my) ->
  -1020 <= Mx + My -> Mx + My <= 1023 ->
  exists (m : positive) (e : Z),
    fmul (S754_finite false mx ex) (S754_finite false my ey)
      = S754_finite false m e /\
    Zpos (digits2_pos m) = 53 /\
    Mx + My - 1 <= 53 + e <= Mx + My + 1 /\
    within one_ulp (fval (S754_finite false m e))
      (fval (S754_finite false mx ex) * fval (S754_finite false my ey)).
Proof.
  intros Mx My Hd Hlo Hhi. unfold fmul, SFmul. cbn [xorb].
  pose proof (digits_mul mx my) as Hdm.
  destruct (binary_round_aux_value false (Zpos (mx * my)) (ex + ey) loc_Exact)
    as (m & e & E & Hm & He & Hmag & H1 & H2);
    [lia | lia | unfold Mx, My in *; lia |].
  exists m, e. split; [exact E|]. split; [exact Hm|].
  split; [unfold Mx, My in *; lia|].
  assert (0 < 2 ^ (e - (ex + ey))) by (apply Z.pow_pos_nonneg; lia).
  pose proof (within_units (Zpos m * 2 ^ (e - (ex + ey))) (Zpos (mx * my))
                (2 ^ (ex + ey)) (Qpow2_pos _) ltac:(lia) ltac:(lia)
                H1 ltac:(lia)) as W.
  unfold within in *. cbn [fval cond_Zopp].
  rewrite inject_Z_scale in W by lia.
  assert (inject_Z (Zpos mx) * 2 ^ ex * (inject_Z (Zpos my) * 2 ^ ey)
          == inject_Z (Zpos (mx * my)) * 2 ^ (ex + ey))%Q as Eq.
  { rewrite Pos2Z.inj_mul, inject_Z_mult, Qpower_plus by exact two_neq_0.
    ring. }
  rewrite Eq. exact W.
Qed.

Lemma within_eq (k a a' b b' : Q) :
  (a == a')%Q -> (b == b')%Q -> within k a b -> within k a' b'.
Proof.
  unfold within. intros Ha Hb H. rewrite <- Ha, <- Hb. exact H.
Qed.

(** The quotient handed to the rounding step: its integer part, with at
    least 53 digits. *)
Lemma SFdiv_core_value (m1 m2 : positive) (e1 e2 : Z) :
  let D := Zpos (digits2_pos m1) + e1 - (Zpos (digits2_pos m2) + e2) in
  -1021 <= D ->
  exists q e l,
    SFdiv_core_binary prec emax (Zpos m1) e1 (Zpos m2) e2 = (q, e, l) /\
    0 < q /\ 53 <= Zdigits2 q /\ D <= Zdigits2 q + e <= D + 1 /\
    e <= e1 - e2 /\
    q * Zpos m2 <= Zpos m1 * 2 ^ (e1 - e2 - e) < (q + 1) * Zpos m2.
Proof.
  intros D HD.
  destruct (SFdiv_core_binary_spec m1 m2 e1 e2)
    as (q & e & l & E & Hq & Hup & Hdn).
  cbv zeta in Hup, Hdn. fold D in Hup, Hdn.
  destruct (Hdn HD) as [Hqpos Hge].
  exists q, e, l. split; [exact E|].
  unfold SFdiv_core_binary in E. cbn [Zdigits2] in E. rewrite fexp_eq in E.
  fold D in E.
  set (e' := Z.min (Z.max (D - 53) (-1074)) (e1 - e2)) in *.
  set (s := e1 - e2 - e') in *.
  assert (0 <= s) as Hs by (unfold s, e'; lia).
  set (m' := match s with
             | Z0 => Zpos m1
             | Zpos _ => Z.shiftl (Zpos m1) s
             | Zneg _ => 0
             end) in *.
  assert (m' = Zpos m1 * 2 ^ s) as Hm'.
  { unfold m'. destruct s as [|p|p] eqn:Es; [simpl; lia | | lia].
    rewrite Z.shiftl_mul_pow2 by lia. reflexivity. }
  assert (Z.div_eucl m' (Zpos m2) = (m' / Zpos m2, m' mod Zpos m2)) as Hde
    by (unfold Z.div, Z.modulo; destruct (Z.div_eucl m' (Zpos m2));
        reflexivity).
  rewrite Hde in E. injection E as Eq Ee _.
  assert (e = e') as -> by congruence.
  split; [exact Hqpos|].
  split; [unfold e' in *; lia|].
  split; [lia|].
  split; [unfold e'; lia|].
  fold s. rewrite <- Hm', <- Eq.
  pose proof (Z.div_mod m' (Zpos m2) ltac:(lia)) as Hdm.
  pose proof (Z.mod_pos_bound m' (Zpos m2) ltac:(lia)) as Hmod.
  lia.
Qed.

(** A quotient of two positive floats, rounded. *)
Lemma SFdiv_value (mx my : positive) (ex ey : Z) :
  let D := Zpos (digits2_pos mx) + ex - (Zpos (digits2_pos my) + ey) in
  -1021 <= D -> D <= 1022 ->
  exists (m : positive) (e : Z),
    SFdiv prec emax (S754_finite false mx ex) (S754_finite false my ey)
      = S754_finite false m e /\
    Zpos (digits2_pos m) = 53 /\
    D <= 53 + e <= D + 2 /\
    within one_ulp (fval (S754_finite false m e))
      (fval (S754_finite false mx ex) / fval (S754_finite false my ey)).
Proof.
  intros D Hlo Hhi. unfold SFdiv. cbn [xorb].
  destruct (SFdiv_core_value mx my ex ey Hlo)
    as (q & e0 & l & E & Hq & Hdq & Hmag & He0 & Hval).
  fold D in Hmag. rewrite E.
  destruct (binary_round_aux_value false q e0 l Hq Hdq ltac:(lia))
    as (m & e & Er & Hm & He & Hmag' & H1 & H2).
  exists m, e. split; [exact Er|]. split; [exact Hm|]. split; [lia|].
  assert (0 < 2 ^ (e - e0)) by (apply Z.pow_pos_nonneg; lia).
  pose proof (within_units_div (Zpos m * 2 ^ (e - e0)) q
                (Zpos mx * 2 ^ (ex - ey - e0)) (Zpos my) (2 ^ e0)
                (Qpow2_pos _) ltac:(lia) ltac:(lia) ltac:(lia) H1 H2 Hval)
    as W.
  eapply within_eq; [| |exact W].
  - cbn [fval cond_Zopp]. apply inject_Z_scale. lia.
  - cbn [fval cond_Zopp].
    rewrite inject_Z_mult, inject_Z_pow2 by lia.
    assert (2 ^ ex == 2 ^ (ex - ey - e0) * 2 ^ e0 * 2 ^ ey)%Q as Epow.
    { rewrite <- !Qpower_plus by exact two_neq_0.
      replace (ex - ey - e0 + e0 + ey) with ex by lia. reflexivity. }
    rewrite Epow.
    pose proof (Qpow2_pos ey) as Hey.
    assert (0 < inject_Z (Zpos my))%Q as Hmy by (apply inject_Z_pos; lia).
    field. split; lra.
Qed.

Lemma fval_raw (z : Z) : (fval (raw z) == inject_Z z)%Q.
Proof.
  destruct z as [|p|p]; cbn [raw fval cond_Zopp]; [reflexivity | |];
    unfold Qeq; cbn; lia.
Qed.

(** The quotient of two positive integers. *)
Lemma int_truediv_value (a b : Z) :
  0 < a -> 0 < b -> -1021 <= Zdigits2 a - Zdigits2 b <= 1022 ->
  exists (m : positive) (e : Z),
    int_truediv a b = Ok (S754_finite false m e) /\
    Zpos (digits2_pos m) = 53 /\
    Zdigits2 a - Zdigits2 b <= 53 + e <= Zdigits2 a - Zdigits2 b + 2 /\
    within one_ulp (fval (S754_finite false m e)) (inject_Z a / inject_Z b).
Proof.
  intros Ha Hb Hr. unfold int_truediv.
  replace (b =? 0) with false by (symmetry; apply Z.eqb_neq; lia).
  destruct a as [|pa|pa]; try lia. destruct b as [|pb|pb]; try lia.
  cbn [raw Zdigits2] in *.
  destruct (SFdiv_value pa pb 0 0) as (m & e & E & Hm & Hmag & W);
    [lia | lia |].
  rewrite E. exists m, e. split; [reflexivity|]. split; [exact Hm|].
  split; [lia|].
  eapply within_eq; [reflexivity | | exact W].
  change (S754_finite false pa 0) with (raw (Zpos pa)).
  change (S754_finite false pb 0) with (raw (Zpos pb)).
  rewrite !fval_raw. reflexivity.
Qed.

(** [float(z)] for [0 < z < 2 ^ 53] is [z]. *)
Lemma float_of_int_value (z : Z) :
  0 < z < 2 ^ 53 ->
  exists (m : positive) (e : Z),
    float_of_int z = Ok (S754_finite false m e) /\
    Zpos (digits2_pos m) = 53 /\ 53 + e = Zdigits2 z /\
    (fval (S754_finite false m e) == inject_Z z)%Q.
Proof.
  intros Hz. destruct (float_of_int_exact z Hz) as (m & E & Hm & Hv).
  exists m, (Zdigits2 z - 53). split; [exact E|]. split; [exact Hm|].
  split; [lia|].
  assert (1 <= Zdigits2 z <= 53) as Hd by (apply Zdigits2_range; lia).
  cbn [fval cond_Zopp]. rewrite Hv.
  replace (53 - Zdigits2 z) with (0 - (Zdigits2 z - 53)) by lia.
  rewrite inject_Z_scale by lia. change (2 ^ 0)%Q with 1%Q. ring.
Qed.

(** [int(f)] of a non-negative float is the integer part of its value. *)
Lemma int_of_float_floor (m : positive) (e : Z) :
  exists z, int_of_float (S754_finite false m e) = Ok z /\ 0 <= z /\
            (inject_Z z <= fval (S754_finite false m e) < inject_Z z + 1)%Q.
Proof.
  cbn [int_of_float cond_Zopp fval].
  exists (Z.shiftl (Zpos m) e). split; [reflexivity|].
  split; [apply Z.shiftl_nonneg; lia|].
  destruct (Z.le_gt_cases 0 e) as [He|He].
  - rewrite Z.shiftl_mul_pow2, inject_Z_mult, inject_Z_pow2 by lia.
    split; lra.
  - rewrite Z.shiftl_div_pow2 by lia.
    assert (0 < 2 ^ (- e)) as Hp by (apply Z.pow_pos_nonneg; lia).
    pose proof (Z.div_mod (Zpos m) (2 ^ (- e)) ltac:(lia)) as Hdm.
    pose proof (Z.mod_pos_bound (Zpos m) (2 ^ (- e)) ltac:(lia)) as Hmod.
    set (z := Zpos m / 2 ^ (- e)) in *.
    assert (z * 2 ^ (- e) <= Zpos m) as Hlo by lia.
    assert (Zpos m < (z + 1) * 2 ^ (- e)) as Hhi by lia.
    apply Zle_Qle_mul_l in Hlo. apply Zlt_Qlt_mul in Hhi.
    rewrite inject_Z_plus in Hhi. change (inject_Z 1) with 1%Q in Hhi.
    rewrite inject_Z_pow2 in Hlo, Hhi by lia.
    assert (2 ^ e == / 2 ^ (- e))%Q as Einv.
    { rewrite <- Qpower_opp. replace (- - e) with e by lia. reflexivity. }
    rewrite Einv.
    pose proof (Qpow2_pos (- e)) as Hpos.
    set (t := (2 ^ (- e))%Q) in *. clearbody t.
    set (mm := inject_Z (Zpos m)) in *. set (zz := inject_Z z) in *.
    clearbody mm zz.
    split.
    + apply Qle_shift_div_l; assumption.
    + apply Qlt_shift_div_r; assumption.
Qed.

(** ** The index grows with the brightness, for every number of levels *)

(** The index before it is cut off at the last level: 0 for brightness 0,
    and otherwise the integer part of a float one rounding away from
    [b / step]. *)
Lemma shade_index_value (ms : positive) (es levels b : Z) :
  -900 <= Zpos (digits2_pos ms) + es <= 20 -> 0 <= b <= 255 ->
  exists z,
    Shader.shade_index levels (PFloat (S754_finite false ms es)) b
      = Ok (Z.min z (levels - 1)) /\
    0 <= z /\
    (b = 0 -> z = 0) /\
    (0 < b ->
     exists v, within one_ulp v
                 (inject_Z b / fval (S754_finite false ms es)) /\
               (inject_Z z <= v < inject_Z z + 1)%Q).
Proof.
  intros Hs Hb. unfold Shader.shade_index, truediv. cbn [to_float].
  destruct (Z.eq_dec b 0) as [-> | Hb0].
  - change (float_of_int 0) with (Ok (S754_zero false)). cbn [bind].
    unfold float_div. cbn [is_zero SFdiv bind to_int int_of_float xorb].
    exists 0. split; [reflexivity|]. split; [lia|]. split; [reflexivity|].
    intros H. lia.
  - assert (0 < b < 2 ^ 53) as Hb53.
    { split; [lia|]. apply Z.le_lt_trans with 255; [lia | reflexivity]. }
    destruct (float_of_int_value b Hb53) as (mb & eb & Eb & Hmb & Heb & Vb).
    assert (1 <= Zdigits2 b <= 8) as Hdb.
    { apply Zdigits2_range; [lia|]. change (2 ^ 8) with 256. lia. }
    rewrite Eb. cbn [bind]. unfold float_div. cbn [is_zero bind].
    destruct (SFdiv_value mb ms eb es) as (m & e & E & Hm & Hmag & W);
      [lia | lia |].
    rewrite E. cbn [bind to_int].
    destruct (int_of_float_floor m e) as (z & Ez & Hz & Hfl).
    rewrite Ez. cbn [bind].
    exists z. split; [reflexivity|]. split; [exact Hz|].
    split; [intros H; lia|].
    intros _. exists (fval (S754_finite false m e)). split; [|exact Hfl].
    unfold within in *. rewrite <- Vb. exact W.
Qed.

Lemma one_ulp_gap (b1 b2 : Z) :
  0 < b1 -> b1 < b2 -> b2 <= 255 ->
  (inject_Z b1 * one_ulp * one_ulp <= inject_Z b2)%Q.
Proof.
  intros H1 H12 H2.
  assert (inject_Z b1 + 1 <= inject_Z b2)%Q.
  { change 1%Q with (inject_Z 1). rewrite <- inject_Z_plus, <- Zle_Qle. lia. }
  assert (0 < inject_Z b1)%Q by (apply inject_Z_pos; lia).
  assert (inject_Z b1 <= 255)%Q.
  { change 255%Q with (inject_Z 255). rewrite <- Zle_Qle. lia. }
  unfold one_ulp. lra.
Qed.

(** For one step, the index is monotonic in the brightness. *)
Lemma shade_index_monotone (lo hi : Z) (step : float) (levels b1 b2 : Z) :
  finite_between lo hi step -> sign_of step = false ->
  -900 <= lo -> hi <= 20 ->
  0 <= b1 -> b1 <= b2 -> b2 <= 255 ->
  exists k1 k2,
    Shader.shade_index levels (PFloat step) b1 = Ok k1 /\
    Shader.shade_index levels (PFloat step) b2 = Ok k2 /\
    k1 <= k2.
Proof.
  intros Hst Hsg Hlo Hhi H1 H12 H2.
  destruct step as [s|s| |s ms es]; cbn [finite_between] in Hst;
    try contradiction.
  cbn [sign_of] in Hsg. subst s.
  destruct (shade_index_value ms es levels b1 ltac:(lia) ltac:(lia))
    as (z1 & E1 & Hz1 & Hzero1 & Hv1).
  destruct (shade_index_value ms es levels b2 ltac:(lia) ltac:(lia))
    as (z2 & E2 & Hz2 & Hzero2 & Hv2).
  destruct (Z.eq_dec b1 b2) as [<- | Hne].
  { exists (Z.min z1 (levels - 1)), (Z.min z1 (levels - 1)).
    split; [exact E1|]. split; [exact E1 | lia]. }
  exists (Z.min z1 (levels - 1)), (Z.min z2 (levels - 1)).
  split; [exact E1|]. split; [exact E2|].
  assert (z1 <= z2); [|lia].
  destruct (Z.eq_dec b1 0) as [Hb1 | Hb1]; [rewrite (Hzero1 Hb1); lia|].
  destruct (Hv1 ltac:(lia)) as (v1 & (_ & _ & W1 & _) & Hf1 & _).
  destruct (Hv2 ltac:(lia)) as (v2 & (_ & _ & _ & W2) & _ & Hf2).
  pose proof (one_ulp_gap b1 b2 ltac:(lia) ltac:(lia) H2) as Hgap.
  pose proof (fval_nonneg (S754_finite false ms es) eq_refl) as Hs0.
  assert (0 < fval (S754_finite false ms es))%Q as Hspos.
  { cbn [fval cond_Zopp]. pose proof (Qpow2_pos es).
    assert (0 < inject_Z (Zpos ms))%Q by (apply inject_Z_pos; lia). nra. }
  set (S := fval (S754_finite false ms es)) in *. clearbody S.
  unfold Qdiv in W1, W2.
  assert (0 < / S)%Q as Hi by (apply Qinv_lt_0_compat; exact Hspos).
  set (i := (/ S)%Q) in *. clearbody i.
  set (x1 := inject_Z b1) in *. set (x2 := inject_Z b2) in *.
  assert (0 < one_ulp)%Q as HU by reflexivity.
  assert (v1 * one_ulp <= v2 * one_ulp)%Q as Hle.
  { apply Qle_trans with (x1 * i * one_ulp * one_ulp)%Q; [nra|].
    apply Qle_trans with (x2 * i)%Q; [|exact W2].
    setoid_replace (x1 * i * one_ulp * one_ulp)%Q
      with (x1 * one_ulp * one_ulp * i)%Q by ring.
    apply Qmult_le_compat_r; [exact Hgap | lra]. }
  assert (v1 <= v2)%Q as Hv by (apply (Qmult_le_r _ _ one_ulp HU); exact Hle).
  assert (inject_Z z1 < inject_Z z2 + 1)%Q as Hlt by lra.
  change 1%Q with (inject_Z 1) in Hlt.
  rewrite <- inject_Z_plus, <- Zlt_Qlt in Hlt. lia.
Qed.

(** Both variants, every number of levels. *)
Lemma index_monotone_all (L b1 b2 : Z) :
  1 <= L < 2 ^ 900 -> 0 <= b1 -> b1 <= b2 -> b2 <= 255 ->
  (exists k1 k2, ascii_cell_index L b1 = Ok k1 /\
                 ascii_cell_index L b2 = Ok k2 /\ k1 <= k2) /\
  (exists k1 k2, shader_cell_index L b1 = Ok k1 /\
                 shader_cell_index L b2 = Ok k2 /\ k1 <= k2).
Proof.
  intros HL H1 H12 H2.
  pose proof (Zdigits2_lt_pow2 L 900 ltac:(lia) ltac:(lia)) as HdL.
  assert (1 <= Zdigits2 L) as HdL0
    by (assert (0 < Zdigits2 L) by (apply Zdigits2_pos_iff; lia); lia).
  split.
  - unfold ascii_cell_index, Ascii.grayscale_step, truediv.
    replace (L >? 0) with true by (symmetry; apply Z.gtb_lt; lia).
    cbn [to_float bind].
    destruct (float_of_int_ok L 900 HdL ltac:(lia)) as (y & Ey & _ & Hsy & Hy).
    specialize (Hy ltac:(lia)). specialize (Hsy ltac:(lia)).
    rewrite Ey. cbn [bind].
    assert (finite_between 9 9 f256_0) as H256 by (cbn; lia).
    destruct (SFdiv_between 9 9 _ _ f256_0 y H256 Hy ltac:(lia) ltac:(lia))
      as (Hq & Hsq).
    unfold float_div.
    replace (is_zero y) with false by (destruct y; cbn in Hy |- *; tauto).
    cbn [bind]. rewrite !element_idx_shade_index by lia.
    apply (shade_index_monotone (9 - (Zdigits2 L + 1)) (9 - Zdigits2 L + 2)
             (SFdiv prec emax f256_0 y) L b1 b2 Hq); try lia.
    rewrite Hsq, Hsy. reflexivity.
  - unfold shader_cell_index, Shader.grayscale_step, truediv.
    destruct (int_truediv_between 256 L) as (f & Ef & Hf & Hs); try lia.
    { change (Zdigits2 256) with 9. lia. }
    rewrite Ef. cbn [bind]. change (Zdigits2 256) with 9 in Hf.
    apply (shade_index_monotone (9 - Zdigits2 L) (9 - Zdigits2 L + 2)
             f L b1 b2 Hf Hs); lia.
Qed.

(** ** The grid height as a number *)

(** The value of a float is the fraction [float_ratio] gives. *)
Lemma fval_ratio (m : positive) (e : Z) :
  let '(cn, cd) := float_ratio (S754_finite false m e) in
  0 < cn /\ 0 < cd /\
  (fval (S754_finite false m e) == inject_Z cn / inject_Z cd)%Q.
Proof.
  cbn [float_ratio cond_Zopp fval].
  assert (0 < 2 ^ Z.max 0 e) by (apply Z.pow_pos_nonneg; lia).
  assert (0 < 2 ^ Z.max 0 (- e)) by (apply Z.pow_pos_nonneg; lia).
  split; [lia|]. split; [lia|].
  rewrite inject_Z_mult, !inject_Z_pow2 by lia.
  assert (2 ^ e == 2 ^ Z.max 0 e / 2 ^ Z.max 0 (- e))%Q as ->.
  { rewrite <- Qpower_minus by exact two_neq_0.
    replace (Z.max 0 e - Z.max 0 (- e)) with e by lia. reflexivity. }
  pose proof (Qpow2_pos (Z.max 0 (- e))).
  field. lra.
Qed.

Lemma Qmult_le_l' (a x y : Q) :
  (0 <= a)%Q -> (x <= y)%Q -> (a * x <= a * y)%Q.
Proof. intros Ha H. nra. Qed.

Lemma three_ulps_up :
  (one_ulp * one_ulp * one_ulp <= 1125899906842625 # 1125899906842624)%Q.
Proof. vm_compute. discriminate. Qed.

Lemma three_ulps_down :
  ((1125899906842623 # 1125899906842624) * (one_ulp * one_ulp * one_ulp)
   <= 1)%Q.
Proof. vm_compute. discriminate. Qed.

Lemma three_ulps_pos : (1 <= one_ulp * one_ulp * one_ulp)%Q.
Proof. vm_compute. discriminate. Qed.

(** The integer part of a number three roundings away from [n / d]. *)
Lemma floor_between (n d z : Z) (v : Q) :
  0 <= n -> 0 < d -> 0 <= z ->
  within (one_ulp * one_ulp * one_ulp) v (inject_Z n / inject_Z d) ->
  (inject_Z z <= v < inject_Z z + 1)%Q ->
  (n * (2 ^ 50 - 1)) / (d * 2 ^ 50) <= z <= (n * (2 ^ 50 + 1)) / (d * 2 ^ 50).
Proof.
  intros Hn Hd Hz (Hv & Hr & H1 & H2) [Hlo Hhi].
  pose proof three_ulps_up as Hup. pose proof three_ulps_down as Hdown.
  pose proof three_ulps_pos as Hk.
  set (k := (one_ulp * one_ulp * one_ulp)%Q) in *. clearbody k.
  pose proof (inject_Z_pos d Hd) as Hd'.
  assert (inject_Z n / inject_Z d * inject_Z d == inject_Z n)%Q as Er
    by (field; lra).
  set (r := (inject_Z n / inject_Z d)%Q) in *. clearbody r.
  change (2 ^ 50) with 1125899906842624.
  change (1125899906842624 - 1) with 1125899906842623.
  change (1125899906842624 + 1) with 1125899906842625.
  split.
  - assert ((n * 1125899906842623) / (d * 1125899906842624) < z + 1);
      [|lia].
    apply Z.div_lt_upper_bound; [lia|].
    rewrite Zlt_Qlt, !inject_Z_mult, inject_Z_plus.
    change (inject_Z 1125899906842623) with (1125899906842623 # 1).
    change (inject_Z 1125899906842624) with (1125899906842624 # 1).
    change (inject_Z 1) with 1%Q.
    rewrite <- Er.
    set (x := inject_Z z) in *. set (dd := inject_Z d) in *.
    assert (r * (1125899906842623 # 1125899906842624) < x + 1)%Q as Hx.
    { set (c := (1125899906842623 # 1125899906842624)%Q) in *.
      assert (0 <= c)%Q as Hc by (unfold c; lra).
      assert (r * c <= v * k * c)%Q as A1
        by (apply Qmult_le_compat_r; assumption).
      assert (v * k * c <= v)%Q as A2.
      { setoid_replace (v * k * c)%Q with (v * (c * k))%Q by ring.
        setoid_replace v with (v * 1)%Q at 2 by ring.
        apply Qmult_le_l'; assumption. }
      lra. }
    assert (r * (1125899906842623 # 1125899906842624) * dd
            < (x + 1) * dd)%Q as Hy
      by (apply Qmult_lt_compat_r; assumption).
    lra.
  - apply Z.div_le_lower_bound; [lia|].
    rewrite Zle_Qle, !inject_Z_mult.
    change (inject_Z 1125899906842625) with (1125899906842625 # 1).
    change (inject_Z 1125899906842624) with (1125899906842624 # 1).
    rewrite <- Er.
    set (x := inject_Z z) in *. set (dd := inject_Z d) in *.
    assert (x <= r * (1125899906842625 # 1125899906842624))%Q as Hx.
    { apply Qle_trans with (r * k)%Q; [lra|].
      apply Qmult_le_l'; assumption. }
    assert (x * dd <= r * (1125899906842625 # 1125899906842624) * dd)%Q as Hy
      by (apply Qmult_le_compat_r; [assumption | lra]).
    lra.
Qed.

Lemma height_bounds_zero (d : Z) :
  height_below 0 d = 1 /\ height_above 0 d = 1.
Proof. unfold height_below, height_above. cbn. split; reflexivity. Qed.

Lemma height_bounds_order (n d : Z) :
  0 <= n -> 0 < d ->
  height_below n d <= Z.max 1 (n / d) <= height_above n d.
Proof.
  intros Hn Hd. unfold height_below, height_above.
  change (2 ^ 50) with 1125899906842624.
  assert (n * (1125899906842624 - 1) / (d * 1125899906842624) <= n / d).
  { apply Z.div_le_lower_bound; [lia|].
    pose proof (Z.mul_div_le (n * (1125899906842624 - 1))
                  (d * 1125899906842624) ltac:(lia)) as H.
    nia. }
  assert (n / d <= n * (1125899906842624 + 1) / (d * 1125899906842624)).
  { apply Z.div_le_lower_bound; [lia|].
    pose proof (Z.mul_div_le n d ltac:(lia)). nia. }
  lia.
Qed.

(** [float(W) * (h / w)], two roundings away from [W * h / w]. *)
Lemma width_times_aspect (w h W : Z) :
  0 < w < 2 ^ 31 -> 0 < h < 2 ^ 31 -> 0 < W < 2 ^ 31 ->
  exists (a p : float) (mp : positive) (ep : Z),
    int_truediv h w = Ok a /\ float_of_int W = Ok p /\
    fmul p a = S754_finite false mp ep /\
    Zpos (digits2_pos mp) = 53 /\ -31 <= 53 + ep <= 65 /\
    within (one_ulp * one_ulp) (fval (S754_finite false mp ep))
      (inject_Z (W * h) / inject_Z w).
Proof.
  intros Hw Hh HW.
  assert (1 <= Zdigits2 w <= 31) as Hdw by (apply Zdigits2_range; lia).
  assert (1 <= Zdigits2 h <= 31) as Hdh by (apply Zdigits2_range; lia).
  assert (1 <= Zdigits2 W <= 31) as HdW by (apply Zdigits2_range; lia).
  destruct (int_truediv_value h w) as (ma & ea & Ea & Hma & Hmaga & Wa);
    [lia | lia | lia |].
  assert (0 < W < 2 ^ 53) as HW53.
  { split; [lia|]. apply Z.lt_trans with (2 ^ 31); [lia | reflexivity]. }
  destruct (float_of_int_value W HW53) as (mW & eW & EW & HmW & HmagW & VW).
  destruct (fmul_value mW ma eW ea) as (mp & ep & Ep & Hmp & Hmagp & Wp);
    [lia | lia | lia |].
  exists (S754_finite false ma ea), (S754_finite false mW eW), mp, ep.
  split; [exact Ea|]. split; [exact EW|]. split; [exact Ep|].
  split; [exact Hmp|]. split; [lia|].
  pose proof (inject_Z_pos W ltac:(lia)) as HWq.
  pose proof (inject_Z_pos w ltac:(lia)) as Hwq.
  assert (within one_ulp
            (fval (S754_finite false mW eW) * fval (S754_finite false ma ea))
            (inject_Z (W * h) / inject_Z w)) as Wa'.
  { eapply within_eq;
      [| | apply (within_mult one_ulp _ _ (inject_Z W) ltac:(lra) Wa)].
    - rewrite VW. reflexivity.
    - rewrite inject_Z_mult. field. lra. }
  apply (within_trans one_ulp one_ulp _ _ _ ltac:(discriminate)
           ltac:(discriminate) Wp Wa').
Qed.

(** The grid height of the glyph variant is the truncated exact quotient,
    up to the three roundings. *)
Lemma glyph_height_value (w h W : Z) (c : float) (cn cd : Z) :
  0 < w < 2 ^ 31 -> 0 <= h < 2 ^ 31 -> 0 <= W < 2 ^ 31 ->
  finite_between (-60) 60 c -> sign_of c = false ->
  float_ratio c = (cn, cd) ->
  exists g,
    Ascii.output_grid_height_chars w h W (PFloat c) = Ok g /\
    height_below (W * h * cd) (w * cn) <= g
      <= height_above (W * h * cd) (w * cn).
Proof.
  intros Hw Hh HW Hc Hs Hratio.
  destruct c as [s|s| |s mc ec]; cbn [finite_between] in Hc;
    try contradiction.
  cbn [sign_of] in Hs. subst s.
  pose proof (fval_ratio mc ec) as Hfr. rewrite Hratio in Hfr.
  destruct Hfr as (Hcn & Hcd & Vc).
  unfold Ascii.output_grid_height_chars.
  replace (w >? 0) with true by (symmetry; apply Z.gtb_lt; lia).
  unfold truediv at 1.
  destruct (Z.eq_dec (W * h) 0) as [Hz | Hnz].
  - (* an empty product: the height is 1 *)
    rewrite Hz. cbn [Z.mul].
    destruct (height_bounds_zero (w * cn)) as [-> ->].
    destruct (aspect_ok w h Hw Hh) as (a & Ea & Ha & _).
    rewrite Ea. cbn [bind mul to_float].
    destruct (float_of_int_ok W 31) as (x & Ex & Hx & _).
    { apply Zdigits2_lt_pow2; lia. }
    { lia. }
    rewrite Ex. cbn [bind truediv to_float].
    assert (exists s, fmul x a = S754_zero s) as (s & ->).
    { assert (W = 0 \/ h = 0) as [-> | ->] by lia.
      - change (float_of_int 0) with (Ok (S754_zero false)) in Ex.
        injection Ex as <-.
        destruct a as [sa|sa| |sa ma ea]; cbn [finite_below] in Ha;
          try contradiction; eexists; reflexivity.
      - assert (a = S754_zero false) as ->.
        { unfold int_truediv in Ea.
          replace (w =? 0) with false in Ea by (symmetry; apply Z.eqb_neq; lia).
          destruct w as [|pw|pw]; try lia. cbn in Ea. congruence. }
        destruct x as [sx|sx| |sx mx ex]; cbn [finite_below] in Hx;
          try contradiction; eexists; reflexivity. }
    unfold float_div. cbn [is_zero bind SFdiv to_int int_of_float].
    exists 1. split; [reflexivity | lia].
  - assert (0 < h /\ 0 < W) as [Hh0 HW0] by nia.
    destruct (width_times_aspect w h W Hw ltac:(lia) ltac:(lia))
      as (a & p & mp & ep & Ea & Ep & Em & Hmp & Hmagp & Wp).
    rewrite Ea. cbn [bind mul to_float]. rewrite Ep. cbn [bind].
    rewrite Em. cbn [truediv to_float bind]. unfold float_div.
    cbn [is_zero bind].
    destruct (SFdiv_value mp mc ep ec) as (mq & eq & Eq & Hmq & Hmagq & Wq);
      [lia | lia |].
    rewrite Eq. cbn [bind to_int].
    destruct (int_of_float_floor mq eq) as (z & Ez & Hz & Hfl).
    rewrite Ez. cbn [bind].
    exists (if z <? 1 then 1 else z). split; [reflexivity|].
    pose proof (inject_Z_pos cn Hcn) as Hcnq.
    pose proof (inject_Z_pos cd Hcd) as Hcdq.
    pose proof (inject_Z_pos w ltac:(lia)) as Hwq.
    assert (0 < fval (S754_finite false mc ec))%Q as Hcpos.
    { rewrite Vc. apply Qlt_shift_div_l; lra. }
    assert (within (one_ulp * one_ulp * one_ulp)
              (fval (S754_finite false mq eq))
              (inject_Z (W * h * cd) / inject_Z (w * cn))) as Wtot.
    { eapply within_eq;
        [reflexivity | |
         apply (within_trans one_ulp (one_ulp * one_ulp) _ _ _
                  ltac:(discriminate) ltac:(discriminate) Wq
                  (within_div _ _ _ _ Hcpos Wp))].
      rewrite Vc, !inject_Z_mult. field. repeat split; lra. }
    pose proof (floor_between (W * h * cd) (w * cn) z _ ltac:(nia)
                  ltac:(nia) Hz Wtot Hfl) as Hb.
    unfold height_below, height_above.
    destruct (Z.ltb_spec z 1); lia.
Qed.

(** The grid height of the block variant is the truncated exact product,
    up to the three roundings. *)
Lemma block_height_value (w h W : Z) (c : float) (cn cd : Z) :
  0 < w < 2 ^ 31 -> 0 <= h < 2 ^ 31 -> 0 <= W < 2 ^ 31 ->
  finite_between (-60) 60 c -> sign_of c = false ->
  float_ratio c = (cn, cd) ->
  exists g,
    Shader.height w h W (PFloat c) = Ok g /\
    height_below (W * h * cn) (w * cd) <= g
      <= height_above (W * h * cn) (w * cd).
Proof.
  intros Hw Hh HW Hc Hs Hratio.
  destruct c as [s|s| |s mc ec]; cbn [finite_between] in Hc;
    try contradiction.
  cbn [sign_of] in Hs. subst s.
  pose proof (fval_ratio mc ec) as Hfr. rewrite Hratio in Hfr.
  destruct Hfr as (Hcn & Hcd & Vc).
  unfold Shader.height. unfold truediv at 1.
  destruct (Z.eq_dec (W * h) 0) as [Hz | Hnz].
  - rewrite Hz. cbn [Z.mul].
    destruct (height_bounds_zero (w * cd)) as [-> ->].
    destruct (aspect_ok w h Hw Hh) as (a & Ea & Ha & _).
    rewrite Ea. cbn [bind mul to_float].
    destruct (float_of_int_ok W 31) as (x & Ex & Hx & _).
    { apply Zdigits2_lt_pow2; lia. }
    { lia. }
    rewrite Ex. cbn [bind mul to_float].
    assert (exists s, fmul x a = S754_zero s) as (s & ->).
    { assert (W = 0 \/ h = 0) as [-> | ->] by lia.
      - change (float_of_int 0) with (Ok (S754_zero false)) in Ex.
        injection Ex as <-.
        destruct a as [sa|sa| |sa ma ea]; cbn [finite_below] in Ha;
          try contradiction; eexists; reflexivity.
      - assert (a = S754_zero false) as ->.
        { unfold int_truediv in Ea.
          replace (w =? 0) with false in Ea by (symmetry; apply Z.eqb_neq; lia).
          destruct w as [|pw|pw]; try lia. cbn in Ea. congruence. }
        destruct x as [sx|sx| |sx mx ex]; cbn [finite_below] in Hx;
          try contradiction; eexists; reflexivity. }
    cbn [bind fmul SFmul to_int int_of_float].
    exists 1. split; [reflexivity | lia].
  - assert (0 < h /\ 0 < W) as [Hh0 HW0] by nia.
    destruct (width_times_aspect w h W Hw ltac:(lia) ltac:(lia))
      as (a & p & mp & ep & Ea & Ep & Em & Hmp & Hmagp & Wp).
    rewrite Ea. cbn [bind mul to_float]. rewrite Ep. cbn [bind].
    rewrite Em. cbn [mul to_float bind].
    destruct (fmul_value mp mc ep ec) as (mq & eq & Eq & Hmq & Hmagq & Wq);
      [lia | lia | lia |].
    rewrite Eq. cbn [bind to_int].
    destruct (int_of_float_floor mq eq) as (z & Ez & Hz & Hfl).
    rewrite Ez. cbn [bind].
    exists (if z <? 1 then 1 else z). split; [reflexivity|].
    pose proof (inject_Z_pos cn Hcn) as Hcnq.
    pose proof (inject_Z_pos cd Hcd) as Hcdq.
    pose proof (inject_Z_pos w ltac:(lia)) as Hwq.
    assert (0 < fval (S754_finite false mc ec))%Q as Hcpos.
    { rewrite Vc. apply Qlt_shift_div_l; lra. }
    assert (within (one_ulp * one_ulp)
              (fval (S754_finite false mp ep) * fval (S754_finite false mc ec))
              (inject_Z (W * h * cn) / inject_Z (w * cd))) as Wpc.
    { eapply within_eq;
        [| | apply (within_mult (one_ulp * one_ulp) _ _
                      (fval (S754_finite false mc ec)) ltac:(lra) Wp)].
      - ring.
      - rewrite Vc, !inject_Z_mult. field. repeat split; lra. }
    pose proof (within_trans one_ulp (one_ulp * one_ulp) _ _ _
                  ltac:(discriminate) ltac:(discriminate) Wq Wpc) as Wtot.
    pose proof (floor_between (W * h * cn) (w * cd) z _ ltac:(nia)
                  ltac:(nia) Hz Wtot Hfl) as Hb.
    unfold height_below, height_above.
    destruct (Z.ltb_spec z 1); lia.
Qed.

Lemma float_ratio_pos (c : float) (cn cd : Z) :
  finite_between (-60) 60 c -> sign_of c = false ->
  float_ratio c = (cn, cd) -> 0 < cn /\ 0 < cd.
Proof.
  intros Hc Hs Hr.
  destruct c as [s|s| |s mc ec]; cbn [finite_between] in Hc;
    try contradiction.
  cbn [sign_of] in Hs. subst s.
  pose proof (fval_ratio mc ec) as H. rewrite Hr in H. tauto.
Qed.

(** * The claims of the specification *)

Lemma sample_is_color : is_color (68, 204, 170).
Proof. cbn. unfold is_channel. lia. Defined.

(** C1. For a base color of three 8-bit channels and a total shade count
    [N >= 2], [generate_shades] of the glyph variant returns exactly [N]
    colors; element 0 is the base color with every channel multiplied by
    0.1 and rounded toward zero; every channel of every element is within
    [[0, 255]]; and element 0 is channel by channel at most the base
    color.  The block variant does the same, shown for [N <= 2 ^ 53]. *)
Theorem ramp_shape (base : color) (N : Z) :
  is_color base -> 2 <= N ->
  channel_le (background base) base /\
  (exists shades,
     Ascii.generate_shades base N Ascii.bg_brightness_factor = Ok shades /\
     len shades = N /\
     nth_error shades 0 = Some (background base) /\
     Forall is_color shades) /\
  (N <= 2 ^ 53 ->
   exists shades,
     snd (Shader.generate_shades base N Shader.bg_brightness_factor)
       = Ok shades /\
     len shades = N /\
     nth_error shades 0 = Some (background base) /\
     Forall is_color shades).
Proof.
  intros Hbase HN. split; [apply background_color; exact Hbase|]. split.
  - destruct (ascii_generate_shades_ok base N Hbase HN)
      as (shades & E & Hlen & H0 & Hall & _).
    exists shades. auto.
  - intros Hmax.
    destruct (shader_generate_shades_ok base N Hbase (conj HN Hmax))
      as (shades & E & Hlen & H0 & Hall & _).
    exists shades. rewrite E. auto.
Qed.

Lemma ramp_shape_witness :
  channel_le (background (68, 204, 170)) (68, 204, 170) /\
  (exists shades,
     Ascii.generate_shades (68, 204, 170) 5 Ascii.bg_brightness_factor
       = Ok shades /\
     len shades = 5 /\
     nth_error shades 0 = Some (background (68, 204, 170)) /\
     Forall is_color shades) /\
  (5 <= 2 ^ 53 ->
   exists shades,
     snd (Shader.generate_shades (68, 204, 170) 5 Shader.bg_brightness_factor)
       = Ok shades /\
     len shades = 5 /\
     nth_error shades 0 = Some (background (68, 204, 170)) /\
     Forall is_color shades).
Proof. apply (ramp_shape (68, 204, 170) 5 sample_is_color). lia. Defined.

(** C2 (as the code has it).  Both variants map a brightness [b] in
    [[0, 255]] to [min(int(b / (256 / L)), L - 1)], computed in double
    precision, an index in [[0, L - 1]]; [L] is the length of the
    character set in the glyph variant and the total number of shades in
    the block variant.  Up to 256 levels the two variants give the same
    index, and up to 185 levels it is the exact [floor(b * L / 256)]. *)
Theorem cell_index_formula (L b : Z) :
  1 <= L < 2 ^ 900 -> 0 <= b <= 255 ->
  exists ka ks,
    ascii_cell_index L b = Ok ka /\ shader_cell_index L b = Ok ks /\
    0 <= ka <= L - 1 /\ 0 <= ks <= L - 1 /\
    (L <= 256 -> ka = ks) /\
    (L <= 185 -> ka = spec_index L b).
Proof.
  intros HL Hb.
  destruct (ascii_cell_index_range L b HL Hb) as (ka & Ea & Hka).
  destruct (shader_cell_index_range L b HL Hb) as (ks & Es & Hks).
  exists ka, ks. repeat (split; [assumption || lia|]).
  split.
  - intros H256. destruct (table_facts L ltac:(lia)) as (t & _ & _ & _ & Ht).
    destruct (Ht b Hb) as (k & _ & Ea' & Es' & _). congruence.
  - intros H185. destruct (table_facts L ltac:(lia)) as (t & _ & _ & _ & Ht).
    destruct (Ht b Hb) as (k & _ & Ea' & _ & Hex). specialize (Hex H185). congruence.
Qed.

Lemma cell_index_formula_witness :
  exists ka ks,
    ascii_cell_index 10 128 = Ok ka /\ shader_cell_index 10 128 = Ok ks /\
    0 <= ka <= 10 - 1 /\ 0 <= ks <= 10 - 1 /\
    (10 <= 256 -> ka = ks) /\
    (10 <= 185 -> ka = spec_index 10 128).
Proof.
  apply (cell_index_formula 10 128).
  - split; [lia | reflexivity].
  - lia.
Defined.

(** C2, the claim as stated fails: with two shades the block variant sends
    brightness 200 to index 1, while one foreground level (two shades
    minus one) leaves only index 0. *)
Lemma block_index_uses_all_shades :
  shader_cell_index 2 200 <> Ok (spec_index (2 - 1) 200).
Proof. vm_compute. discriminate. Qed.

(** C3 (as the code has it).  For an image of width [0 < w] and height
    [h], a grid width [W] and a positive correction factor [c], the glyph
    variant computes [int(W * (h / w) / c)] and the block variant
    [int(W * (h / w) * c)] in double precision, each raised to at least 1.
    With [c] the fraction [cn / cd], the three roundings of either
    computation move its value by a factor of at most [1 + 2 ^ -50]: the
    height of the glyph variant lies between the exact quotient
    [W h cd / (w cn)] scaled down and scaled up by that factor, truncated
    and raised to at least 1, and the height of the block variant between
    the exact product [W h cn / (w cd)] treated likewise; the truncated
    exact value lies between the same two bounds, so the height is that
    value wherever the bounds agree.  For a source of 1000 by 500 with
    [W = 100] and [c = 0.5] the glyph variant gives 100 and the block
    variant 25; for a source of 10 by 7 with [W = 4] and [c = 1.0] both
    give 2, the truncated 2.8, where rounding gives 3; for a source of 11
    by 3 with [W = 55] and [c = 1.0] the glyph variant gives 14, the
    rounded quotient being just below the exact 15. *)
Theorem grid_height :
  (forall (w h W : Z) (c : float) (cn cd : Z),
     0 < w < 2 ^ 31 -> 0 <= h < 2 ^ 31 -> 0 <= W < 2 ^ 31 ->
     finite_between (-60) 60 c -> sign_of c = false ->
     float_ratio c = (cn, cd) ->
     exists g s,
       Ascii.output_grid_height_chars w h W (PFloat c) = Ok g /\
       Shader.height w h W (PFloat c) = Ok s /\
       height_below (W * h * cd) (w * cn) <= g
         <= height_above (W * h * cd) (w * cn) /\
       height_below (W * h * cd) (w * cn)
         <= truncated_quotient_height w h W cn cd
         <= height_above (W * h * cd) (w * cn) /\
       height_below (W * h * cn) (w * cd) <= s
         <= height_above (W * h * cn) (w * cd) /\
       height_below (W * h * cn) (w * cd)
         <= truncated_product_height w h W cn cd
         <= height_above (W * h * cn) (w * cd)) /\
  Ascii.output_grid_height_chars 1000 500 100 (PFloat f0_5)
    = Ok (truncated_quotient_height 1000 500 100 1 2) /\
  Shader.height 1000 500 100 (PFloat f0_5)
    = Ok (truncated_product_height 1000 500 100 1 2) /\
  truncated_quotient_height 1000 500 100 1 2 = 100 /\
  truncated_product_height 1000 500 100 1 2 = 25 /\
  Ascii.output_grid_height_chars 10 7 4 (PFloat f1_0)
    = Ok (truncated_quotient_height 10 7 4 1 1) /\
  Shader.height 10 7 4 (PFloat f1_0)
    = Ok (truncated_product_height 10 7 4 1 1) /\
  truncated_quotient_height 10 7 4 1 1 = 2 /\
  truncated_product_height 10 7 4 1 1 = 2 /\
  spec_grid_height 10 7 4 1 1 = 3 /\
  Ascii.output_grid_height_chars 11 3 55 (PFloat f1_0) = Ok 14 /\
  truncated_quotient_height 11 3 55 1 1 = 15.
Proof.
  split.
  - intros w h W c cn cd Hw Hh HW Hc Hs Hr.
    destruct (glyph_height_value w h W c cn cd Hw Hh HW Hc Hs Hr)
      as (g & Eg & Hg).
    destruct (block_height_value w h W c cn cd Hw Hh HW Hc Hs Hr)
      as (s & Es & Hsb).
    destruct (float_ratio_pos c cn cd Hc Hs Hr) as [Hcn Hcd].
    exists g, s. split; [exact Eg|]. split; [exact Es|].
    split; [exact Hg|].
    split; [apply height_bounds_order; nia|].
    split; [exact Hsb|].
    apply height_bounds_order; nia.
  - repeat split; vm_compute; reflexivity.
Qed.

Lemma grid_height_witness :
  exists g s,
    Ascii.output_grid_height_chars 640 480 80 (PFloat f0_5) = Ok g /\
    Shader.height 640 480 80 (PFloat f0_5) = Ok s /\
    height_below (80 * 480 * 9007199254740992) (640 * 4503599627370496)
      <= g
      <= height_above (80 * 480 * 9007199254740992)
           (640 * 4503599627370496) /\
    height_below (80 * 480 * 9007199254740992) (640 * 4503599627370496)
      <= truncated_quotient_height 640 480 80 4503599627370496
           9007199254740992
      <= height_above (80 * 480 * 9007199254740992)
           (640 * 4503599627370496) /\
    height_below (80 * 480 * 4503599627370496) (640 * 9007199254740992)
      <= s
      <= height_above (80 * 480 * 4503599627370496)
           (640 * 9007199254740992) /\
    height_below (80 * 480 * 4503599627370496) (640 * 9007199254740992)
      <= truncated_product_height 640 480 80 4503599627370496
           9007199254740992
      <= height_above (80 * 480 * 4503599627370496)
           (640 * 9007199254740992).
Proof.
  apply (proj1 grid_height 640 480 80 f0_5 4503599627370496
           9007199254740992).
  - split; [lia | reflexivity].
  - split; [lia | reflexivity].
  - split; [lia | reflexivity].
  - cbn. lia.
  - reflexivity.
  - reflexivity.
Defined.

(** C3, the claim as stated fails: for the 1000 by 500 source with grid
    width 100 and correction factor 0.5 the block variant computes 25 rows,
    not 100. *)
Lemma block_height_is_not_100 :
  Shader.height 1000 500 100 (PFloat f0_5)
  <> Ok (spec_grid_height 1000 500 100 1 2).
Proof. vm_compute. discriminate. Qed.

(** C4 (as the code has it).  With a total shade count of 2 the glyph
    variant returns [[background; base]] and the block variant
    [[background; white]], the background being the base color scaled by
    0.1. *)
Theorem two_shades (base : color) :
  is_color base ->
  Ascii.generate_shades base 2 Ascii.bg_brightness_factor
    = Ok [background base; base] /\
  snd (Shader.generate_shades base 2 Shader.bg_brightness_factor)
    = Ok [background base; (255, 255, 255)].
Proof.
  intros Hbase. split.
  - destruct (ascii_generate_shades_ok base 2 Hbase ltac:(lia))
      as (shades & E & Hlen & H0 & _ & Hmid).
    rewrite E. f_equal.
    change (Z.to_nat (1 + (2 - 2) / 2)) with 1%nat in Hmid.
    destruct shades as [|a [|b [|c tl]]]; cbn in Hlen, H0, Hmid; try discriminate.
    + congruence.
    + unfold len in Hlen. cbn [List.length] in Hlen. lia.
  - destruct (shader_generate_shades_ok base 2 Hbase) as (shades & E & _ & _ & _ & _ & H2).
    { split; [lia | discriminate]. }
    rewrite E. cbn [snd]. rewrite (H2 eq_refl). reflexivity.
Qed.

Lemma two_shades_witness :
  Ascii.generate_shades (68, 204, 170) 2 Ascii.bg_brightness_factor
    = Ok [background (68, 204, 170); (68, 204, 170)] /\
  snd (Shader.generate_shades (68, 204, 170) 2 Shader.bg_brightness_factor)
    = Ok [background (68, 204, 170); (255, 255, 255)].
Proof. apply (two_shades (68, 204, 170) sample_is_color). Defined.

(** C4, the claim as stated fails: for the base color #44ccaa and two
    shades the block variant does not return [[background; base]]. *)
Lemma block_two_shades_not_base :
  snd (Shader.generate_shades (68, 204, 170) 2 Shader.bg_brightness_factor)
  <> Ok [background (68, 204, 170); (68, 204, 170)].
Proof. vm_compute. discriminate. Qed.

(** C5 (as the code has it).  In both variants the index is monotonic
    non-decreasing in the brightness, for every number of levels (shown
    below [2 ^ 900]).  For 1 to 256 levels the two variants give the same
    index and the brightness values 0..255 reach every index in
    [[0, L - 1]]; for more than 256 levels they cannot reach every
    index. *)
Theorem index_monotone_onto (L : Z) :
  1 <= L ->
  (L < 2 ^ 900 ->
   forall b1 b2, 0 <= b1 -> b1 <= b2 -> b2 <= 255 ->
     (exists k1 k2, ascii_cell_index L b1 = Ok k1 /\
                    ascii_cell_index L b2 = Ok k2 /\ k1 <= k2) /\
     (exists k1 k2, shader_cell_index L b1 = Ok k1 /\
                    shader_cell_index L b2 = Ok k2 /\ k1 <= k2)) /\
  (L <= 256 ->
   (forall b1 b2, 0 <= b1 -> b1 <= b2 -> b2 <= 255 ->
      exists k1 k2,
        ascii_cell_index L b1 = Ok k1 /\ shader_cell_index L b1 = Ok k1 /\
        ascii_cell_index L b2 = Ok k2 /\ shader_cell_index L b2 = Ok k2 /\
        k1 <= k2) /\
   (forall k, 0 <= k <= L - 1 ->
      exists b, 0 <= b <= 255 /\
        ascii_cell_index L b = Ok k /\ shader_cell_index L b = Ok k)) /\
  (256 < L ->
   ~ (forall k, 0 <= k <= L - 1 ->
        exists b, 0 <= b <= 255 /\ ascii_cell_index L b = Ok k) /\
   ~ (forall k, 0 <= k <= L - 1 ->
        exists b, 0 <= b <= 255 /\ shader_cell_index L b = Ok k)).
Proof.
  intros HL. split; [|split].
  - intros Hmax b1 b2 H1 H12 H2.
    apply index_monotone_all; [lia | assumption..].
  - intros H256. apply index_monotone_onto_stmt. lia.
  - intros Hbig. split; apply not_onto_above_256; exact Hbig.
Qed.

Lemma index_monotone_onto_witness :
  (300 < 2 ^ 900 ->
   forall b1 b2, 0 <= b1 -> b1 <= b2 -> b2 <= 255 ->
     (exists k1 k2, ascii_cell_index 300 b1 = Ok k1 /\
                    ascii_cell_index 300 b2 = Ok k2 /\ k1 <= k2) /\
     (exists k1 k2, shader_cell_index 300 b1 = Ok k1 /\
                    shader_cell_index 300 b2 = Ok k2 /\ k1 <= k2)) /\
  (300 <= 256 ->
   (forall b1 b2, 0 <= b1 -> b1 <= b2 -> b2 <= 255 ->
      exists k1 k2,
        ascii_cell_index 300 b1 = Ok k1 /\ shader_cell_index 300 b1 = Ok k1 /\
        ascii_cell_index 300 b2 = Ok k2 /\ shader_cell_index 300 b2 = Ok k2 /\
        k1 <= k2) /\
   (forall k, 0 <= k <= 300 - 1 ->
      exists b, 0 <= b <= 255 /\
        ascii_cell_index 300 b = Ok k /\ shader_cell_index 300 b = Ok k)) /\
  (256 < 300 ->
   ~ (forall k, 0 <= k <= 300 - 1 ->
        exists b, 0 <= b <= 255 /\ ascii_cell_index 300 b = Ok k) /\
   ~ (forall k, 0 <= k <= 300 - 1 ->
        exists b, 0 <= b <= 255 /\ shader_cell_index 300 b = Ok k)).
Proof. apply (index_monotone_onto 300). lia. Defined.

(** C5, the claim as stated fails: with 257 levels the 256 brightness
    values do not reach every index in [[0, 256]]. *)
Lemma index_not_onto_257 :
  ~ (forall k, 0 <= k <= 257 - 1 ->
       exists b, 0 <= b <= 255 /\ ascii_cell_index 257 b = Ok k).
Proof. apply not_onto_above_256. lia. Qed.

(** C6. In the block variant, with a ramp of [N] shades and a grid of
    brightness values in [[0, 255]], the cell loop ends with a canvas on
    which the region of every cell has the ramp color of the index of the
    cell; a cell of index 0 keeps the background shade (ramp element 0) the
    canvas was created with, and no rectangle is drawn over any of its
    pixels; for a cell of a nonzero index one rectangle over exactly its
    region is drawn in its ramp color. *)
Theorem block_canvas (shades : list color) (N width height cw ch : Z)
    (grid : Z -> Z -> Z) :
  len shades = N -> 1 <= N < 2 ^ 900 ->
  0 <= width -> 0 <= height -> 1 <= cw -> 1 <= ch ->
  (forall x y, 0 <= x < width -> 0 <= y < height -> 0 <= grid x y <= 255) ->
  exists out cv bg,
    Shader.draw_cells shades N width height cw ch grid = (out, Ok cv) /\
    nth_error shades 0 = Some bg /\
    forall x y, 0 <= x < width -> 0 <= y < height ->
      exists k c,
        shader_cell_index N (grid x y) = Ok k /\
        nth_error shades (Z.to_nat k) = Some c /\
        (forall px py, in_cell cw ch x y px py -> pixel cv px py = c) /\
        (k = 0 -> c = bg /\
                  forall e px py, In e out -> in_cell cw ch x y px py ->
                                  paints e px py = false) /\
        (0 < k -> In (DrawRectangle (x * cw) (y * ch) (x * cw + cw - 1)
                        (y * ch + ch - 1) c) out).
Proof. exact (block_canvas_stmt shades N width height cw ch grid). Qed.

Lemma block_canvas_witness :
  exists out cv bg,
    Shader.draw_cells [(6, 20, 17); (255, 255, 255)] 2 2 1 8 16
      (fun x _ => 200 * x) = (out, Ok cv) /\
    nth_error [(6, 20, 17); (255, 255, 255)] 0 = Some bg /\
    forall x y, 0 <= x < 2 -> 0 <= y < 1 ->
      exists k c,
        shader_cell_index 2 ((fun x _ => 200 * x) x y) = Ok k /\
        nth_error [(6, 20, 17); (255, 255, 255)] (Z.to_nat k) = Some c /\
        (forall px py, in_cell 8 16 x y px py -> pixel cv px py = c) /\
        (k = 0 -> c = bg /\
                  forall e px py, In e out -> in_cell 8 16 x y px py ->
                                  paints e px py = false) /\
        (0 < k -> In (DrawRectangle (x * 8) (y * 16) (x * 8 + 8 - 1)
                        (y * 16 + 16 - 1) c) out).
Proof.
  apply (block_canvas [(6, 20, 17); (255, 255, 255)] 2 2 1 8 16
           (fun x _ => 200 * x)).
  - reflexivity.
  - split; [lia | reflexivity].
  - lia.
  - lia.
  - lia.
  - lia.
  - intros x y Hx Hy. lia.
Defined.

(** C7 (where the code departs from the specification).  The color string
    [-fffff] does not decode to three 8-bit channel values, yet
    [hex_to_rgb] raises nothing on it: it returns [(-15, 255, 255)], the
    ramp is generated, and both drivers go on to open the source image
    (the glyph variant after loading its font). *)
Theorem sign_color_reaches_image (w : world) (image_path output_path : string)
    (width cell_width cell_height font_size posterize_bits : Z) (c : num)
    (skip : bool) :
  hex_to_rgb "-fffff" = Ok (-15, 255, 255) /\
  ~ is_color (-15, 255, 255) /\
  (exists shades out r,
     Shader.image_to_ascii_art w image_path "-fffff" width 5 cell_width
       cell_height output_path c
     = (PrintGenerated 5 shades :: ImageOpen image_path :: out, r)) /\
  (forall f, truetype w "DejaVuSansMono.ttf" font_size = Ok f ->
     exists out r,
       Ascii.image_to_ascii_art w image_path "-fffff" width "ab"
         (Some "DejaVuSansMono.ttf"%string) font_size (Some cell_width)
         (Some cell_height) c posterize_bits skip output_path
       = (FontLoad "DejaVuSansMono.ttf" font_size :: ImageOpen image_path
            :: out, r)).
Proof.
  split; [exact hex_to_rgb_minus|]. split.
  - cbn. unfold is_channel. lia.
  - split.
    + apply shader_driver_minus.
    + intros f Hf. eapply ascii_driver_minus. exact Hf.
Qed.

Lemma sign_color_reaches_image_witness :
  exists out r,
    Ascii.image_to_ascii_art sample_world "in.png" "-fffff" 80 "ab"
      (Some "DejaVuSansMono.ttf"%string) 15 (Some 8) (Some 16)
      (PFloat f0_5) 0 true "out.png"
    = (FontLoad "DejaVuSansMono.ttf" 15 :: ImageOpen "in.png" :: out, r).
Proof.
  apply (proj2 (proj2 (proj2
           (sign_color_reaches_image sample_world "in.png" "out.png"
              80 8 16 15 0 (PFloat f0_5) true)))
           {| font_name := "DejaVuSansMono.ttf"; font_size := 15 |}).
  reflexivity.
Defined.

(** C8. When an exact integer midpoint index exists, the ramp holds the
    base color itself there: in the glyph variant, whose midpoint
    [(N - 2) / 2] counts the foreground shades only, at position
    [1 + (N - 2) / 2] of the ramp for an even [N]; in the block variant,
    whose midpoint [(N - 1) / 2] counts the whole ramp, at position
    [(N - 1) / 2] for an odd [N] (shown for [N <= 2 ^ 53]). *)
Theorem base_at_midpoint (base : color) (N m : Z) :
  is_color base -> 2 <= N ->
  (2 * m = N - 2 ->
   exists shades,
     Ascii.generate_shades base N Ascii.bg_brightness_factor = Ok shades /\
     nth_error shades (Z.to_nat (1 + m)) = Some base) /\
  (2 * m = N - 1 -> N <= 2 ^ 53 ->
   exists shades,
     snd (Shader.generate_shades base N Shader.bg_brightness_factor)
       = Ok shades /\
     nth_error shades (Z.to_nat m) = Some base).
Proof.
  intros Hbase HN. split.
  - intros Hm.
    destruct (ascii_generate_shades_ok base N Hbase HN)
      as (shades & E & _ & _ & _ & Hmid).
    exists shades. split; [exact E|].
    replace m with ((N - 2) / 2); [exact Hmid|].
    symmetry. apply Z.div_unique_exact; lia.
  - intros Hm Hmax.
    destruct (shader_generate_shades_ok base N Hbase (conj HN Hmax))
      as (shades & E & _ & _ & _ & Hmid & _).
    exists shades. rewrite E. split; [reflexivity|].
    replace m with ((N - 1) / 2).
    + apply Hmid. rewrite <- Z.negb_even.
      replace N with (1 + 2 * m) by lia.
      rewrite Z.even_add_mul_2. reflexivity.
    + symmetry. apply Z.div_unique_exact; lia.
Qed.

Lemma base_at_midpoint_witness :
  (exists shades,
     Ascii.generate_shades (68, 204, 170) 4 Ascii.bg_brightness_factor
       = Ok shades /\
     nth_error shades (Z.to_nat (1 + 1)) = Some (68, 204, 170)) /\
  (exists shades,
     snd (Shader.generate_shades (68, 204, 170) 5 Shader.bg_brightness_factor)
       = Ok shades /\
     nth_error shades (Z.to_nat 2) = Some (68, 204, 170)).
Proof.
  split.
  - apply (proj1 (base_at_midpoint (68, 204, 170) 4 1 sample_is_color
                    ltac:(lia))).
    reflexivity.
  - apply (proj2 (base_at_midpoint (68, 204, 170) 5 2 sample_is_color
                    ltac:(lia))).
    + reflexivity.
    + discriminate.
Defined.

(** C9. In the block variant the first ramp computation of
    [generate_shades] is dead: for every base color of three 8-bit
    channels and every shade count, the function returns and prints what
    the function without the first computation does. *)
Theorem first_ramp_is_dead (base : color) (N : Z) :
  is_color base ->
  Shader.generate_shades base N Shader.bg_brightness_factor
  = generate_shades_simplified base N Shader.bg_brightness_factor.
Proof. exact (generate_shades_simplified_eq base N). Qed.

Lemma first_ramp_is_dead_witness :
  Shader.generate_shades (68, 204, 170) 5 Shader.bg_brightness_factor
  = generate_shades_simplified (68, 204, 170) 5 Shader.bg_brightness_factor.
Proof. apply (first_ramp_is_dead (68, 204, 170) 5 sample_is_color). Defined.

(** C10. On six hexadecimal digits [hex_to_rgb] returns three integers in
    [[0, 255]]; any number of [#] characters in front changes nothing;
    every input whose form without the leading [#]s does not have length
    6 raises [ValueError]; and the six characters [-fffff] are accepted,
    with the channel value -15. *)
Theorem hex_to_rgb_contract :
  (forall s, six_hex_digits s = true ->
     exists r g b, hex_to_rgb s = Ok (r, g, b) /\ is_color (r, g, b)) /\
  (forall n s, hex_to_rgb (hashes n ++ s) = hex_to_rgb s) /\
  (forall s, strlen (lstrip_hash s) <> 6 ->
     hex_to_rgb s
     = Raise (ValueError (Text "Invalid hex color format. Use #RRGGBB."))) /\
  hex_to_rgb "-fffff" = Ok (-15, 255, 255) /\
  ~ is_color (-15, 255, 255).
Proof.
  split; [exact hex_to_rgb_six_digits|].
  split; [exact hex_to_rgb_hashes|].
  split; [exact hex_to_rgb_bad_length|].
  split; [exact hex_to_rgb_minus|].
  cbn. unfold is_channel. lia.
Qed.

Lemma hex_to_rgb_contract_witness :
  (exists r g b, hex_to_rgb "44ccaa" = Ok (r, g, b) /\ is_color (r, g, b)) /\
  hex_to_rgb "12345"
  = Raise (ValueError (Text "Invalid hex color format. Use #RRGGBB.")).
Proof.
  split.
  - apply (proj1 hex_to_rgb_contract "44ccaa"%string). reflexivity.
  - apply (proj1 (proj2 (proj2 hex_to_rgb_contract)) "12345"%string). discriminate.
Defined.

(** * Further properties of the two scripts *)

(** ** The color check of the drivers *)

(** X1. Whatever [hex_to_rgb] raises is a [ValueError], and on it either
    driver prints [Error: ] with the message and returns: no font is
    loaded, no image opened, nothing saved. *)
Theorem color_error_ends_run (w : world) (image_path hex_color : string)
    (width num_shades cell_width cell_height : Z) (output_path : string)
    (c : num) (charset : string) (font_path : option string) (font_size : Z)
    (cell_width_px cell_height_px : option Z) (posterize_bits : Z)
    (skip : bool) (e : exn) :
  hex_to_rgb hex_color = Raise e ->
  is_ValueError e = true /\
  Shader.image_to_ascii_art w image_path hex_color width num_shades
    cell_width cell_height output_path c
  = ([PrintExn "Error: " e], Ok tt) /\
  Ascii.image_to_ascii_art w image_path hex_color width charset
    font_path font_size cell_width_px cell_height_px c posterize_bits skip
    output_path
  = ([PrintExn "Error: " e], Ok tt).
Proof.
  intros H. split; [exact (hex_to_rgb_raises _ _ H)|]. split.
  - apply shader_driver_bad_color. exact H.
  - apply ascii_driver_bad_color. exact H.
Qed.

Lemma color_error_ends_run_witness :
  is_ValueError (ValueError (Text "Invalid hex color format. Use #RRGGBB."))
  = true /\
  Shader.image_to_ascii_art sample_world "in.png" "#12345" 80 5 10 16
    "out.png" (PFloat f0_5)
  = ([PrintExn "Error: "
        (ValueError (Text "Invalid hex color format. Use #RRGGBB."))],
     Ok tt) /\
  Ascii.image_to_ascii_art sample_world "in.png" "#12345" 80 " .:"
    None 15 None None (PFloat f0_5) 0 true "out.png"
  = ([PrintExn "Error: "
        (ValueError (Text "Invalid hex color format. Use #RRGGBB."))],
     Ok tt).
Proof.
  apply (color_error_ends_run sample_world "in.png" "#12345" 80 5 10 16
           "out.png" (PFloat f0_5) " .:" None 15 None None 0 true).
  reflexivity.
Defined.

(** ** Loading the font in the glyph variant *)






(** ** A whole run of the block variant *)

Lemma iobind_ok {A B : Type} (out : list event) (a : A) (k : A -> io B) :
  iobind (out, Ok a) k = (out ++ fst (k a), snd (k a)).
Proof. unfold iobind. destruct (k a). reflexivity. Qed.

Lemma pow2_53_lt_900 (N : Z) : N <= 2 ^ 53 -> N < 2 ^ 900.
Proof.
  intros H. apply Z.le_lt_trans with (2 ^ 53); [exact H|].
  apply Z.pow_lt_mono_r; lia.
Qed.

(** The cell loop keeps the size of the canvas. *)
Lemma draw_cell_size (shades : list color) (N : Z) (step : num) (cw ch : Z)
    (grid : Z -> Z -> Z) (cv : canvas) (xy : Z * Z) (out : list event)
    (cv' : canvas) :
  Shader.draw_cell shades N step cw ch grid cv xy = (out, Ok cv') ->
  cwidth cv' = cwidth cv /\ cheight cv' = cheight cv.
Proof.
  destruct xy as [x y]. unfold Shader.draw_cell, lift, emit, ret, iobind.
  destruct (Shader.shade_index N step (grid x y)) as [k|e]; [|discriminate].
  destruct (list_get shades k) as [c|e]; [|discriminate].
  destruct (k >? 0).
  - unfold rectangle.
    destruct ((x * cw + cw - 1 <? x * cw) || (y * ch + ch - 1 <? y * ch));
      [discriminate|].
    intros H. injection H as _ <-. split; reflexivity.
  - intros H. injection H as _ <-. split; reflexivity.
Qed.

Lemma draw_fold_size (shades : list color) (N : Z) (step : num) (cw ch : Z)
    (grid : Z -> Z -> Z) (l : list (Z * Z)) :
  forall cv out cv',
    iofold (Shader.draw_cell shades N step cw ch grid) l cv = (out, Ok cv') ->
    cwidth cv' = cwidth cv /\ cheight cv' = cheight cv.
Proof.
  induction l as [|xy tl IH]; intros cv out cv' H.
  - cbn [iofold] in H. unfold ret in H. injection H as _ <-. split; reflexivity.
  - cbn [iofold] in H.
    destruct (Shader.draw_cell shades N step cw ch grid cv xy) as [o [cv1|e]] eqn:E1.
    + rewrite iobind_ok in H.
      destruct (iofold (Shader.draw_cell shades N step cw ch grid) tl cv1)
        as [o2 r2] eqn:E2.
      cbn [fst snd] in H. injection H as _ ->.
      destruct (IH _ _ _ E2) as [Hw Hh].
      destruct (draw_cell_size _ _ _ _ _ _ _ _ _ _ E1) as [Hw1 Hh1].
      split; congruence.
    + unfold iobind in H. discriminate.
Qed.

Lemma draw_cells_size (shades : list color) (N width height cw ch : Z)
    (grid : Z -> Z -> Z) (out : list event) (cv : canvas) :
  Shader.draw_cells shades N width height cw ch grid = (out, Ok cv) ->
  cwidth cv = width * cw /\ cheight cv = height * ch.
Proof.
  unfold Shader.draw_cells, lift.
  destruct (list_get shades 0) as [bg|e]; cbn [bind]; [|discriminate].
  unfold image_new.
  destruct ((width * cw <? 0) || (height * ch <? 0)); [discriminate|].
  rewrite iobind_ok.
  destruct (Shader.grayscale_step N) as [step|e]; [|discriminate].
  rewrite iobind_ok. cbn [app fst snd].
  match goal with |- context [iofold ?f ?l ?c] =>
    destruct (iofold f l c) as [o r] eqn:E end.
  cbn [fst snd]. intros H. injection H as _ ->.
  apply draw_fold_size in E. exact E.
Qed.

(** X3. A run of the block variant on a readable image: with an 8-bit
    base color and at least two shades it computes the grid height,
    resamples, draws the cells, saves the canvas once, and returns; the
    canvas has the size of the grid times the cell size; a failure to
    save is reported and not raised. *)
Theorem shader_run_saves_canvas (w : world) (image_path hex_color : string)
    (width N cw ch : Z) (output_path : string) (cf : float)
    (base : color) (img : source) (ow oh : Z) :
  hex_to_rgb hex_color = Ok base -> is_color base -> 2 <= N <= 2 ^ 53 ->
  image_open w image_path = Ok img -> size img = (ow, oh) ->
  0 < ow < 2 ^ 31 -> 0 <= oh < 2 ^ 31 -> 0 <= width < 2 ^ 31 ->
  finite_between (-60) 60 cf -> 1 <= cw -> 1 <= ch ->
  (forall h, 1 <= h ->
     exists grid, gray_resized img 0 width h = Ok grid /\
       forall x y, 0 <= x < width -> 0 <= y < h -> 0 <= grid x y <= 255) ->
  exists shades height grid out cv,
    snd (Shader.generate_shades base N Shader.bg_brightness_factor)
      = Ok shades /\
    Shader.height ow oh width (PFloat cf) = Ok height /\ 1 <= height /\
    gray_resized img 0 width height = Ok grid /\
    Shader.draw_cells shades N width height cw ch grid = (out, Ok cv) /\
    cwidth cv = width * cw /\ cheight cv = height * ch /\
    Shader.image_to_ascii_art w image_path hex_color width N cw ch
      output_path (PFloat cf)
    = (PrintGenerated N shades :: ImageOpen image_path :: out
         ++ [ImageSave output_path cv;
             match image_save w output_path cv with
             | Ok _ => PrintQuoted "ASCII-style art saved to " output_path ""
             | Raise e => PrintExn "Error saving image: " e
             end],
       Ok tt).
Proof.
  intros Hhex Hbase HN Hopen Hsize How Hoh Hwidth Hcf Hcw Hch Hgrid.
  destruct (shader_generate_shades_ok base N Hbase HN)
    as (shades & Esh & Hlen & _).
  destruct (block_height_ok ow oh width cf How Hoh Hwidth Hcf)
    as (height & Eh & Hh).
  destruct (Hgrid height Hh) as (grid & Eg & Hg).
  destruct (block_canvas_stmt shades N width height cw ch grid Hlen
              ltac:(split; [lia | apply pow2_53_lt_900; lia])
              ltac:(lia) ltac:(lia) Hcw Hch Hg)
    as (out & cv & bg & Edraw & _).
  destruct (draw_cells_size _ _ _ _ _ _ _ _ _ Edraw) as [Hcwid Hchei].
  exists shades, height, grid, out, cv.
  split; [rewrite Esh; reflexivity|].
  split; [exact Eh|]. split; [exact Hh|]. split; [exact Eg|].
  split; [exact Edraw|]. split; [exact Hcwid|]. split; [exact Hchei|].
  unfold Shader.image_to_ascii_art, lift, emit.
  rewrite Hhex, !try_or_return_ok. cbv beta.
  rewrite Esh, Hlen, !try_or_return_ok. cbv beta.
  rewrite !iobind_ok. cbv beta. rewrite Hopen. cbn [fst snd app].
  rewrite !try_or_return_ok. cbv beta. rewrite Hsize.
  rewrite Eh, !iobind_ok. cbv beta.
  rewrite Eg, !iobind_ok. cbv beta.
  rewrite Edraw, !iobind_ok. cbv beta. rewrite ?iobind_ok. cbv beta.
  destruct (image_save w output_path cv) as [u|e]; cbn [fst snd app];
    rewrite ?app_nil_r; reflexivity.
Qed.

Lemma sample_source_grid :
  forall h, 1 <= h ->
    exists grid,
      gray_resized {| size := (1000, 500);
                      gray_resized := fun _ _ _ => Ok (fun x y => 128) |}
        0 100 h = Ok grid /\
      forall x y, 0 <= x < 100 -> 0 <= y < h -> 0 <= grid x y <= 255.
Proof.
  intros h Hh. exists (fun _ _ => 128). split; [reflexivity|]. intros; lia.
Defined.

Lemma shader_run_saves_canvas_witness :
  exists shades height grid out cv,
    snd (Shader.generate_shades (68, 204, 170) 5 Shader.bg_brightness_factor)
      = Ok shades /\
    Shader.height 1000 500 100 (PFloat f0_5) = Ok height /\ 1 <= height /\
    gray_resized {| size := (1000, 500);
                    gray_resized := fun _ _ _ => Ok (fun x y => 128) |}
      0 100 height = Ok grid /\
    Shader.draw_cells shades 5 100 height 10 16 grid = (out, Ok cv) /\
    cwidth cv = 100 * 10 /\ cheight cv = height * 16 /\
    Shader.image_to_ascii_art
      {| image_open := fun _ =>
           Ok {| size := (1000, 500);
                 gray_resized := fun _ _ _ => Ok (fun x y => 128) |};
         truetype := truetype sample_world;
         load_default := load_default sample_world;
         char_estimate := char_estimate sample_world;
         draw_text := draw_text sample_world;
         draw_text_legacy := draw_text_legacy sample_world;
         has_getbbox := has_getbbox sample_world;
         getbbox := getbbox sample_world;
         has_getsize := has_getsize sample_world;
         getsize := getsize sample_world;
         has_getmetrics := has_getmetrics sample_world;
         getmetrics := getmetrics sample_world;
         image_save := fun _ _ => Ok tt |}
      "in.png" "#44ccaa" 100 5 10 16 "out.png" (PFloat f0_5)
    = (PrintGenerated 5 shades :: ImageOpen "in.png" :: out
         ++ [ImageSave "out.png" cv;
             match Ok tt with
             | Ok _ => PrintQuoted "ASCII-style art saved to " "out.png" ""
             | Raise e => PrintExn "Error saving image: " e
             end],
       Ok tt).
Proof.
  apply (shader_run_saves_canvas
           {| image_open := fun _ =>
                Ok {| size := (1000, 500);
                      gray_resized := fun _ _ _ => Ok (fun x y => 128) |};
              truetype := truetype sample_world;
              load_default := load_default sample_world;
              char_estimate := char_estimate sample_world;
              draw_text := draw_text sample_world;
              draw_text_legacy := draw_text_legacy sample_world;
              has_getbbox := has_getbbox sample_world;
              getbbox := getbbox sample_world;
              has_getsize := has_getsize sample_world;
              getsize := getsize sample_world;
              has_getmetrics := has_getmetrics sample_world;
              getmetrics := getmetrics sample_world;
              image_save := fun _ _ => Ok tt |}
           "in.png" "#44ccaa" 100 5 10 16 "out.png" f0_5 (68, 204, 170)
           {| size := (1000, 500);
              gray_resized := fun _ _ _ => Ok (fun x y => 128) |}
           1000 500).
  - reflexivity.
  - exact sample_is_color.
  - split; [lia | discriminate].
  - reflexivity.
  - reflexivity.
  - split; [lia | reflexivity].
  - split; [lia | reflexivity].
  - split; [lia | reflexivity].
  - cbn. lia.
  - lia.
  - lia.
  - exact sample_source_grid.
Defined.

(** X4. An image that cannot be opened ends the run of the block variant
    with a message and without a save: the not-found message for
    [FileNotFoundError], [Error opening image: ] with the exception for
    anything else.  Nothing is raised. *)
Theorem shader_image_open_failure (w : world) (image_path hex_color : string)
    (width N cw ch : Z) (output_path : string) (c : num) (base : color)
    (e : exn) :
  hex_to_rgb hex_color = Ok base -> is_color base -> 2 <= N <= 2 ^ 53 ->
  image_open w image_path = Raise e ->
  exists shades,
    Shader.image_to_ascii_art w image_path hex_color width N cw ch
      output_path c
    = ([PrintGenerated N shades; ImageOpen image_path;
        if is_FileNotFoundError e
        then PrintQuoted "Error: Input image file not found at " image_path ""
        else PrintExn "Error opening image: " e],
       Ok tt).
Proof.
  intros Hhex Hbase HN Hopen.
  destruct (shader_generate_shades_ok base N Hbase HN)
    as (shades & Esh & Hlen & _).
  exists shades. unfold Shader.image_to_ascii_art.
  rewrite Hhex. unfold lift at 1. rewrite try_or_return_ok.
  rewrite Esh, Hlen, try_or_return_ok.
  unfold emit, lift, iobind. cbn [app]. rewrite Hopen.
  unfold try_or_return. destruct (is_FileNotFoundError e); reflexivity.
Qed.

Lemma shader_image_open_failure_witness :
  exists shades,
    Shader.image_to_ascii_art sample_world "in.png" "#44ccaa" 80 5 10 16
      "out.png" (PFloat f0_5)
    = ([PrintGenerated 5 shades; ImageOpen "in.png";
        if is_FileNotFoundError FileNotFoundError
        then PrintQuoted "Error: Input image file not found at " "in.png" ""
        else PrintExn "Error opening image: " FileNotFoundError],
       Ok tt).
Proof.
  apply (shader_image_open_failure sample_world "in.png" "#44ccaa" 80 5 10 16
           "out.png" (PFloat f0_5) (68, 204, 170) FileNotFoundError).
  - reflexivity.
  - exact sample_is_color.
  - split; [lia | discriminate].
  - reflexivity.
Defined.

(** ** A float divided by itself *)

Lemma SFdiv_core_self (m : positive) (e : Z) :
  SFdiv_core_binary prec emax (Zpos m) e (Zpos m) e
  = (2 ^ 53, -53, loc_Exact).
Proof.
  unfold SFdiv_core_binary.
  replace (Zdigits2 (Zpos m) + e - (Zdigits2 (Zpos m) + e)) with 0 by lia.
  replace (e - e) with 0 by lia.
  change (fexp prec emax 0) with (-53).
  change (Z.min (-53) 0) with (-53). change (0 - -53) with 53.
  cbv iota zeta.
  rewrite Z.shiftl_mul_pow2 by lia.
  assert (Z.div_eucl (Zpos m * 2 ^ 53) (Zpos m) = (2 ^ 53, 0)) as ->.
  { pose proof (Z.div_mul (2 ^ 53) (Zpos m) ltac:(lia)) as Hq.
    pose proof (Z.mod_mul (2 ^ 53) (Zpos m) ltac:(lia)) as Hr.
    rewrite (Z.mul_comm (Zpos m)).
    unfold Z.div, Z.modulo in Hq, Hr.
    destruct (Z.div_eucl (2 ^ 53 * Zpos m) (Zpos m)) as [q r].
    cbn [fst snd] in Hq, Hr. subst. reflexivity. }
  unfold new_location.
  destruct (Z.even (Zpos m)); reflexivity.
Qed.

Lemma SFdiv_self (s : bool) (m : positive) (e : Z) :
  SFdiv prec emax (S754_finite s m e) (S754_finite s m e) = f1_0.
Proof.
  cbn [SFdiv]. rewrite SFdiv_core_self. rewrite xorb_nilpotent.
  vm_compute. reflexivity.
Qed.

Lemma int_truediv_self (a : Z) : 0 < a -> int_truediv a a = Ok f1_0.
Proof.
  intros Ha. unfold int_truediv.
  replace (a =? 0) with false by (symmetry; apply Z.eqb_neq; lia).
  destruct a as [|p|p]; try lia.
  cbn [raw]. rewrite SFdiv_self. reflexivity.
Qed.

Lemma int_truediv_zero (b : Z) : 0 < b -> int_truediv 0 b = Ok (S754_zero false).
Proof.
  intros Hb. unfold int_truediv.
  replace (b =? 0) with false by (symmetry; apply Z.eqb_neq; lia).
  destruct b as [|p|p]; try lia. reflexivity.
Qed.

(** ** The ends of the two ramps *)

Lemma ramp_end_check_all : forallb ramp_end_check (range 256) = true.
Proof. vm_compute. reflexivity. Qed.

Lemma result_is_eq (r : result Z) (z : Z) : result_is r z = true -> r = Ok z.
Proof.
  destruct r as [v|e]; cbn [result_is]; [|discriminate].
  intros H. apply Z.eqb_eq in H. congruence.
Qed.

Lemma ramp_end_facts (c : Z) :
  is_channel c ->
  lerp (Z.quot c 10) c (PFloat f0_3) = Ok (dark_start c) /\
  lerp c 255 (PFloat f0_85) = Ok (light_end c) /\
  lerp c (light_end c) (PFloat f1_0) = Ok (light_end c) /\
  lerp (dark_start c) c (PFloat (S754_zero false)) = Ok (dark_start c) /\
  0 <= dark_start c <= c /\ c <= light_end c <= 255.
Proof.
  intros Hc. pose proof ramp_end_check_all as H.
  rewrite forallb_forall in H. specialize (H c).
  rewrite in_range in H. specialize (H ltac:(unfold is_channel in Hc; lia)).
  unfold ramp_end_check in H.
  rewrite !andb_true_iff, !Z.leb_le in H.
  destruct H as (((((((H1 & H2) & H3) & H4) & H5) & H6) & H7) & H8).
  repeat split; try lia; apply result_is_eq; assumption.
Qed.

(** Every foreground shade of the glyph variant is what the loop body
    computes for its index. *)
Lemma ascii_generate_shades_nth (base : color) (N : Z) :
  is_color base -> 3 <= N ->
  exists shades,
    Ascii.generate_shades base N Ascii.bg_brightness_factor = Ok shades /\
    forall i, 0 <= i < N - 1 ->
      exists c, nth_error shades (Z.to_nat (1 + i)) = Some c /\
                Ascii.generate_shades_body base (background base) (N - 1)
                  ((N - 1 - 1) / 2) i = Ok c.
Proof.
  intros Hbase HN.
  pose proof (scale_background base Hbase) as Hsc.
  pose proof (ascii_body_ok base) as Hbody.
  unfold Ascii.generate_shades, Ascii.bg_brightness_factor.
  destruct base as [[r g] b]. destruct Hsc as (Er & Eg & Eb).
  replace (N <? 2) with false by (symmetry; apply Z.ltb_ge; lia).
  rewrite Er; cbn [bind]. rewrite Eg; cbn [bind]. rewrite Eb; cbn [bind].
  replace (N - 1 =? 0) with false by (symmetry; apply Z.eqb_neq; lia).
  replace (N - 1 =? 1) with false by (symmetry; apply Z.eqb_neq; lia).
  cbn [background] in *.
  destruct (mapM_ok (Ascii.generate_shades_body (r, g, b)
                       (Z.quot r 10, Z.quot g 10, Z.quot b 10) (N - 1)
                       ((N - 1 - 1) / 2))
                    is_color (range (N - 1))) as (fg & Efg & Hlen & HF).
  { intros i Hi. apply in_range in Hi.
    destruct (Hbody (N - 1) ((N - 1 - 1) / 2) i Hbase Hi) as (c & Hc & Hcol & _).
    { apply Z.div_pos; lia. }
    exists c. split; assumption. }
  rewrite Efg. cbn [bind].
  eexists; split; [reflexivity|].
  intros i Hi.
  destruct (mapM_nth _ _ _ Efg (Z.to_nat i) i) as (c & Hc & Ec).
  { rewrite nth_error_range by lia. f_equal. lia. }
  exists c. split; [|exact Ec].
  replace (Z.to_nat (1 + i)) with (S (Z.to_nat i)) by lia.
  cbn [app nth_error]. exact Hc.
Qed.

(** X5. The glyph variant's ramp for an 8-bit base color: with three
    shades or more the last one is the base color moved 85% of the way
    to white, channel by channel [(3 c + 4335) / 20], and with four or
    more the first foreground shade is the base color's dark start
    [(7 (c / 10) + 3 c) / 10]; channel by channel the dark start is at
    most the base color and the base color at most the light end, which
    is an 8-bit color. *)
Theorem glyph_ramp_ends (base : color) (N : Z) :
  is_color base -> 3 <= N ->
  exists shades,
    Ascii.generate_shades base N Ascii.bg_brightness_factor = Ok shades /\
    nth_error shades (Z.to_nat (N - 1)) = Some (light_color base) /\
    (4 <= N -> nth_error shades 1 = Some (dark_color base)) /\
    channel_le (dark_color base) base /\
    channel_le base (light_color base) /\
    is_color (light_color base).
Proof.
  intros Hbase HN.
  destruct (ascii_generate_shades_nth base N Hbase HN) as (shades & E & Hnth).
  exists shades. split; [exact E|].
  destruct base as [[r g] b]. destruct Hbase as (Hr & Hg & Hb).
  destruct (ramp_end_facts r Hr) as (Dr & Lr & L1r & D0r & HDr & HLr).
  destruct (ramp_end_facts g Hg) as (Dg & Lg & L1g & D0g & HDg & HLg).
  destruct (ramp_end_facts b Hb) as (Db & Lb & L1b & D0b & HDb & HLb).
  assert (0 <= (N - 1 - 1) / 2 < N - 1 - 1 + 1) as Hidx.
  { split; [apply Z.div_pos; lia|]. apply Z.div_lt_upper_bound; lia. }
  assert ((N - 1 - 1) / 2 < N - 1 - 1) as Hidx'.
  { apply Z.div_lt_upper_bound; lia. }
  split; [|split; [|split; [|split]]].
  - destruct (Hnth (N - 1 - 1) ltac:(lia)) as (c & Hc & Ec).
    replace (1 + (N - 1 - 1)) with (N - 1) in Hc by lia.
    rewrite Hc. f_equal.
    unfold Ascii.generate_shades_body in Ec. cbn [background] in Ec.
    rewrite Dr, Dg, Db, Lr, Lg, Lb in Ec. cbn [bind] in Ec.
    replace (N - 1 - 1 <? (N - 1 - 1) / 2) with false in Ec
      by (symmetry; apply Z.ltb_ge; lia).
    replace (N - 1 - 1 =? (N - 1 - 1) / 2) with false in Ec
      by (symmetry; apply Z.eqb_neq; lia).
    replace (N - 1 - 1 - (N - 1 - 1) / 2 >? 0) with true in Ec
      by (symmetry; apply Z.gtb_lt; lia).
    unfold truediv in Ec. rewrite int_truediv_self in Ec by lia.
    cbn [bind] in Ec. rewrite L1r, L1g, L1b in Ec. cbn [bind] in Ec.
    rewrite !clamp_id in Ec by (unfold is_channel; lia).
    cbn [light_color]. congruence.
  - intros H4. destruct (Hnth 0 ltac:(lia)) as (c & Hc & Ec).
    change (Z.to_nat (1 + 0)) with 1%nat in Hc.
    rewrite Hc. f_equal.
    assert (1 <= (N - 1 - 1) / 2) as Hpos.
    { apply Z.div_le_lower_bound; lia. }
    unfold Ascii.generate_shades_body in Ec. cbn [background] in Ec.
    rewrite Dr, Dg, Db, Lr, Lg, Lb in Ec. cbn [bind] in Ec.
    replace (0 <? (N - 1 - 1) / 2) with true in Ec
      by (symmetry; apply Z.ltb_lt; lia).
    replace ((N - 1 - 1) / 2 >? 0) with true in Ec
      by (symmetry; apply Z.gtb_lt; lia).
    unfold truediv in Ec. rewrite int_truediv_zero in Ec by lia.
    cbn [bind] in Ec. rewrite D0r, D0g, D0b in Ec. cbn [bind] in Ec.
    rewrite !clamp_id in Ec by (unfold is_channel; lia).
    cbn [dark_color]. congruence.
  - cbn [dark_color channel_le]. lia.
  - cbn [light_color channel_le]. lia.
  - cbn [light_color is_color]. unfold is_channel. lia.
Qed.

Lemma glyph_ramp_ends_witness :
  exists shades,
    Ascii.generate_shades (68, 204, 170) 12 Ascii.bg_brightness_factor
      = Ok shades /\
    nth_error shades (Z.to_nat (12 - 1)) = Some (light_color (68, 204, 170)) /\
    (4 <= 12 -> nth_error shades 1 = Some (dark_color (68, 204, 170))) /\
    channel_le (dark_color (68, 204, 170)) (68, 204, 170) /\
    channel_le (68, 204, 170) (light_color (68, 204, 170)) /\
    is_color (light_color (68, 204, 170)).
Proof. apply (glyph_ramp_ends (68, 204, 170) 12 sample_is_color). lia. Defined.

(** Every shade of the block variant after the first is what the loop
    body computes for its index. *)
Lemma shader_generate_shades_nth (base : color) (N : Z) :
  is_color base -> 2 <= N <= 2 ^ 53 ->
  exists shades,
    Shader.generate_shades base N Shader.bg_brightness_factor
      = ([PrintGenerated (len shades) shades], Ok shades) /\
    forall i, 1 <= i < N ->
      exists c, nth_error shades (Z.to_nat i) = Some c /\
                Shader.generate_shades_body base (background base) N i = Ok c.
Proof.
  intros Hbase HN.
  pose proof (scale_background base Hbase) as Hsc.
  pose proof (fun i => shader_body_ok base N i Hbase HN) as Hbody.
  destruct (first_ramp_ok base N Hbase) as (l1 & E1).
  unfold Shader.generate_shades, Shader.bg_brightness_factor.
  destruct base as [[r g] b]. destruct Hsc as (Er & Eg & Eb).
  cbn [background] in *.
  replace (N <? 2) with false by (symmetry; apply Z.ltb_ge; lia).
  rewrite Er; cbn [bind]. rewrite Eg; cbn [bind]. rewrite Eb; cbn [bind].
  rewrite E1; cbn [bind].
  destruct (mapM_ok (Shader.generate_shades_body (r, g, b)
                       (Z.quot r 10, Z.quot g 10, Z.quot b 10) N)
                    is_color (range N)) as (sh & Esh & Hlen & HF).
  { intros i Hi. apply in_range in Hi.
    destruct (Hbody i Hi) as (c & Hc & Hcol & _). exists c. split; assumption. }
  rewrite Esh; cbn [bind].
  rewrite range_length in Hlen.
  destruct sh as [|c0 tl]; [cbn [List.length] in Hlen; lia|].
  cbn [Shader.set_first lift iobind emit ret app].
  eexists; split; [reflexivity|].
  intros i Hi.
  destruct (mapM_nth _ _ _ Esh (Z.to_nat i) i) as (c & Hc & Ec).
  { rewrite nth_error_range by lia. f_equal. lia. }
  exists c. split; [|exact Ec].
  destruct (Z.to_nat i) as [|k] eqn:Ek; [lia|].
  cbn [nth_error] in *. exact Hc.
Qed.

(** X6. The block variant's ramp for an 8-bit base color has the length
    asked for and ends in pure white, whatever the base color and the
    number of shades (shown for [N <= 2 ^ 53]). *)
Theorem block_ramp_ends_white (base : color) (N : Z) :
  is_color base -> 2 <= N <= 2 ^ 53 ->
  exists shades,
    snd (Shader.generate_shades base N Shader.bg_brightness_factor)
      = Ok shades /\
    len shades = N /\
    nth_error shades (Z.to_nat (N - 1)) = Some (255, 255, 255).
Proof.
  intros Hbase HN.
  destruct (shader_generate_shades_ok base N Hbase HN)
    as (shades' & E' & Hlen & _).
  destruct (shader_generate_shades_nth base N Hbase HN) as (shades & E & Hnth).
  assert (shades' = shades) as -> by congruence.
  exists shades. rewrite E. split; [reflexivity|]. split; [exact Hlen|].
  destruct (Hnth (N - 1) ltac:(lia)) as (c & Hc & Ec).
  rewrite Hc. f_equal.
  destruct base as [[r g] b]. destruct Hbase as (Hr & Hg & Hb).
  unfold Shader.generate_shades_body in Ec. cbn [background] in Ec.
  destruct (shader_midpoint N HN) as (m & e & Emid & Efn & Hd & He & Hm).
  rewrite Emid in Ec; cbn [bind] in Ec.
  unfold lt, gt in Ec. cbn [compare] in Ec.
  rewrite (compare_int_midpoint (N - 1) (N - 1) m e ltac:(lia) Hm) in Ec.
  replace (2 * (N - 1) ?= N - 1) with Gt in Ec
    by (symmetry; apply Z.compare_gt_iff; lia).
  cbn [sub to_float] in Ec. rewrite Efn in Ec; cbn [bind] in Ec.
  rewrite fsub_upper_half in Ec by (assumption || lia).
  cbn [truediv to_float bind] in Ec.
  unfold float_div in Ec. cbn [is_zero] in Ec. rewrite SFdiv_self in Ec.
  cbn [bind] in Ec.
  destruct (channel_facts r Hr) as (_ & _ & _ & Wr).
  destruct (channel_facts g Hg) as (_ & _ & _ & Wg).
  destruct (channel_facts b Hb) as (_ & _ & _ & Wb).
  rewrite Wr, Wg, Wb in Ec. cbn [bind] in Ec.
  change (clamp 255) with 255 in Ec. congruence.
Qed.

Lemma block_ramp_ends_white_witness :
  exists shades,
    snd (Shader.generate_shades (68, 204, 170) 6 Shader.bg_brightness_factor)
      = Ok shades /\
    len shades = 6 /\
    nth_error shades (Z.to_nat (6 - 1)) = Some (255, 255, 255).
Proof.
  apply (block_ramp_ends_white (68, 204, 170) 6 sample_is_color).
  split; [lia | discriminate].
Defined.

(** ** The darkest and the brightest cell *)

Lemma shade_index_zero (s : bool) (m : positive) (e levels : Z) :
  1 <= levels ->
  Shader.shade_index levels (PFloat (S754_finite s m e)) 0 = Ok 0.
Proof.
  intros HL. unfold Shader.shade_index, truediv. cbn [to_float].
  change (float_of_int 0) with (Ok (S754_zero false)). cbn [bind].
  unfold float_div. cbn [is_zero SFdiv bind to_int int_of_float].
  f_equal. lia.
Qed.

Lemma shader_cell_index_zero (N : Z) :
  1 <= N < 2 ^ 900 -> shader_cell_index N 0 = Ok 0.
Proof.
  intros HN. unfold shader_cell_index, Shader.grayscale_step, truediv.
  pose proof (Zdigits2_lt_pow2 N 900 ltac:(lia) ltac:(lia)) as HdN.
  destruct (int_truediv_between 256 N) as (f & Ef & Hf & Hs); try lia.
  { change (Zdigits2 256) with 9. lia. }
  rewrite Ef. cbn [bind].
  destruct f as [s|s| |s m e]; cbn [finite_between] in Hf; try contradiction.
  apply shade_index_zero. lia.
Qed.

Lemma ascii_cell_index_zero (L : Z) :
  1 <= L < 2 ^ 900 -> ascii_cell_index L 0 = Ok 0.
Proof.
  intros HL. unfold ascii_cell_index, Ascii.grayscale_step, truediv.
  replace (L >? 0) with true by (symmetry; apply Z.gtb_lt; lia).
  cbn [to_float bind].
  pose proof (Zdigits2_lt_pow2 L 900 ltac:(lia) ltac:(lia)) as HdL.
  pose proof (Zdigits2_nonneg L) as HdL0.
  destruct (float_of_int_ok L 900 HdL ltac:(lia)) as (y & Ey & _ & Hsy & Hy).
  specialize (Hy ltac:(lia)).
  rewrite Ey. cbn [bind].
  assert (finite_between 9 9 f256_0) as H256 by (cbn; lia).
  destruct (SFdiv_between 9 9 _ _ f256_0 y H256 Hy ltac:(lia) ltac:(lia)) as (Hq & _).
  unfold float_div.
  replace (is_zero y) with false by (destruct y; cbn in Hy |- *; tauto).
  cbn [bind]. rewrite element_idx_shade_index by lia.
  destruct (SFdiv prec emax f256_0 y) as [s|s| |s m e];
    cbn [finite_between] in Hq; try contradiction.
  apply shade_index_zero. lia.
Qed.

(** X7. In both variants brightness 0 gets index 0 for every level
    count, and for up to 256 levels brightness 255 gets the last index. *)
Theorem extreme_brightness (L : Z) :
  1 <= L < 2 ^ 900 ->
  ascii_cell_index L 0 = Ok 0 /\ shader_cell_index L 0 = Ok 0 /\
  (L <= 256 ->
   ascii_cell_index L 255 = Ok (L - 1) /\
   shader_cell_index L 255 = Ok (L - 1)).
Proof.
  intros HL.
  split; [apply ascii_cell_index_zero; exact HL|].
  split; [apply shader_cell_index_zero; exact HL|].
  intros H256.
  destruct (index_monotone_onto_stmt L ltac:(lia)) as [Hmono Honto].
  destruct (Honto (L - 1) ltac:(lia)) as (b & Hb & Ea & Es).
  destruct (Hmono b 255 ltac:(lia) ltac:(lia) ltac:(lia))
    as (k1 & k2 & A1 & S1 & A2 & S2 & Hle).
  destruct (ascii_cell_index_range L 255 HL ltac:(lia)) as (k & Ek & Hk).
  assert (k1 = L - 1) by congruence.
  assert (k2 = k) by congruence.
  assert (k2 = L - 1) by lia.
  subst. split; assumption.
Qed.

Lemma extreme_brightness_witness :
  ascii_cell_index 11 0 = Ok 0 /\ shader_cell_index 11 0 = Ok 0 /\
  (11 <= 256 ->
   ascii_cell_index 11 255 = Ok (11 - 1) /\
   shader_cell_index 11 255 = Ok (11 - 1)).
Proof. apply (extreme_brightness 11). split; [lia | reflexivity]. Defined.

(** ** A correction factor of zero *)

Lemma fmul_zero_r (k : Z) (x : float) (s : bool) :
  finite_below k x -> exists s', fmul x (S754_zero s) = S754_zero s'.
Proof.
  destruct x as [sx|sx| |sx m e]; cbn [finite_below]; try contradiction;
    intros _; eexists; reflexivity.
Qed.

(** X8. With a correction factor of zero, given as a float zero or as
    the integer 0, the grid height of the glyph variant raises
    [ZeroDivisionError]; the block variant, which multiplies by the
    factor, gets a grid of one row. *)
Theorem zero_correction_factor (w h W : Z) (s : bool) :
  0 < w < 2 ^ 31 -> 0 <= h < 2 ^ 31 -> 0 <= W < 2 ^ 31 ->
  Ascii.output_grid_height_chars w h W (PFloat (S754_zero s))
    = Raise ZeroDivisionError /\
  Ascii.output_grid_height_chars w h W (PInt 0) = Raise ZeroDivisionError /\
  Shader.height w h W (PFloat (S754_zero s)) = Ok 1 /\
  Shader.height w h W (PInt 0) = Ok 1.
Proof.
  intros Hw Hh HW.
  destruct (aspect_ok w h Hw Hh) as (a & Ea & Ha & _).
  destruct (float_of_int_ok W 31) as (x & Ex & Hx & _).
  { apply Zdigits2_lt_pow2; lia. }
  { lia. }
  destruct (fmul_below 32 33 x a Hx Ha ltac:(lia)) as (Hp & _).
  split; [|split; [|split]].
  - unfold Ascii.output_grid_height_chars.
    replace (w >? 0) with true by (symmetry; apply Z.gtb_lt; lia).
    unfold truediv at 1. rewrite Ea. cbn [bind mul to_float].
    rewrite Ex. cbn [bind truediv to_float]. reflexivity.
  - unfold Ascii.output_grid_height_chars.
    replace (w >? 0) with true by (symmetry; apply Z.gtb_lt; lia).
    unfold truediv at 1. rewrite Ea. cbn [bind mul to_float].
    rewrite Ex. cbn [bind truediv to_float].
    change (float_of_int 0) with (Ok (S754_zero false)). reflexivity.
  - unfold Shader.height. unfold truediv at 1. rewrite Ea.
    cbn [bind mul to_float]. rewrite Ex. cbn [bind mul to_float to_int].
    destruct (fmul_zero_r _ (fmul x a) s Hp) as (s' & ->). reflexivity.
  - unfold Shader.height. unfold truediv at 1. rewrite Ea.
    cbn [bind mul to_float]. rewrite Ex. cbn [bind mul to_float].
    change (float_of_int 0) with (Ok (S754_zero false)).
    cbn [bind to_int].
    destruct (fmul_zero_r _ (fmul x a) false Hp) as (s' & ->). reflexivity.
Qed.

Lemma zero_correction_factor_witness :
  Ascii.output_grid_height_chars 1000 500 100 (PFloat (S754_zero false))
    = Raise ZeroDivisionError /\
  Ascii.output_grid_height_chars 1000 500 100 (PInt 0)
    = Raise ZeroDivisionError /\
  Shader.height 1000 500 100 (PFloat (S754_zero false)) = Ok 1 /\
  Shader.height 1000 500 100 (PInt 0) = Ok 1.
Proof.
  apply (zero_correction_factor 1000 500 100 false).
  - split; [lia | reflexivity].
  - split; [lia | reflexivity].
  - split; [lia | reflexivity].
Defined.

(** ** One cell of the glyph loop *)

Lemma string_get_in_len (s : string) :
  forall n, (n < String.length s)%nat -> exists c, String.get n s = Some c.
Proof.
  induction s as [|a s IH]; intros n Hn; cbn [String.length] in Hn.
  - lia.
  - destruct n as [|n]; cbn [String.get].
    + exists a. reflexivity.
    + apply IH. lia.
Qed.

Lemma str_get_nth (s : string) (k : Z) (c : ascii) :
  0 <= k -> String.get (Z.to_nat k) s = Some c -> str_get s k = Ok c.
Proof.
  intros Hk Hn. unfold str_get.
  assert ((k <? 0) = false) as E by (apply Z.ltb_ge; lia).
  rewrite E. cbv zeta. rewrite E, Hn. reflexivity.
Qed.

(** The centre of a cell, [x * cw + cw / 2], is a float. *)
Lemma cell_center_ok (x cw : Z) :
  0 <= x < 2 ^ 200 -> 1 <= cw < 2 ^ 31 ->
  exists f, (h <- truediv (PInt cw) (PInt 2) ;; add (PInt (x * cw)) h)
            = Ok (PFloat f).
Proof.
  intros Hx Hcw. cbn [truediv].
  destruct (int_truediv_between cw 2) as (f & Ef & _ & _); try lia.
  { pose proof (Zdigits2_lt_pow2 cw 31 ltac:(lia) ltac:(lia)). lia. }
  { change (Zdigits2 2) with 2. lia. }
  rewrite Ef. cbn [bind add to_float].
  destruct (float_of_int_ok (x * cw) 231) as (y & Ey & _).
  { apply Zdigits2_lt_pow2; [lia|].
    replace (2 ^ 231) with (2 ^ 200 * 2 ^ 31)
      by (rewrite <- Z.pow_add_r by lia; reflexivity).
    assert (0 < 2 ^ 200) by (apply Z.pow_pos_nonneg; lia).
    assert (0 < 2 ^ 31) by lia. nia. }
  { lia. }
  rewrite Ey. cbn [bind]. eexists. reflexivity.
Qed.

Lemma glyph_cell_stmt (w : world) (fnt : font) (charset : string)
    (shades : list color) (step : num) (skip : bool) (cw ch : Z)
    (grid : Z -> Z -> Z) (cv : canvas) (x y : Z) :
  1 <= strlen charset < 2 ^ 900 -> len shades = strlen charset + 1 ->
  Ascii.grayscale_step (strlen charset) = Ok step ->
  0 <= grid x y <= 255 ->
  0 <= x < 2 ^ 200 -> 0 <= y < 2 ^ 200 ->
  1 <= cw < 2 ^ 31 -> 1 <= ch < 2 ^ 31 ->
  exists k glyph c cx cy,
    ascii_cell_index (strlen charset) (grid x y) = Ok k /\
    0 <= k <= strlen charset - 1 /\
    String.get (Z.to_nat k) charset = Some glyph /\
    nth_error shades (Z.to_nat (k + 1)) = Some c /\
    (h <- truediv (PInt cw) (PInt 2) ;; add (PInt (x * cw)) h) = Ok cx /\
    (h <- truediv (PInt ch) (PInt 2) ;; add (PInt (y * ch)) h) = Ok cy /\
    Ascii.draw_cell w fnt charset shades (strlen charset) step skip cw ch grid
      cv (x, y)
    = if skip && (k =? 0) && Ascii.eqb glyph " "
      then ([], Ok cv)
      else match draw_text w fnt cv cx cy glyph c with
           | Ok cv' => ([DrawText cx cy glyph c], Ok cv')
           | Raise (TypeError true) =>
               match Ascii.legacy_text_position w fnt glyph cw ch cx cy with
               | Ok (tx, ty) =>
                   ([DrawText cx cy glyph c;
                     DrawTextUnanchored tx ty glyph c],
                    draw_text_legacy w fnt cv tx ty glyph c)
               | Raise e => ([DrawText cx cy glyph c], Raise e)
               end
           | Raise (TypeError false) =>
               ([DrawText cx cy glyph c], Raise (TypeError false))
           | Raise e =>
               ([DrawText cx cy glyph c; PrintDrawWarning glyph x y e], Ok cv)
           end.
Proof.
  intros HL Hlen Hstep Hb Hx Hy Hcw Hch.
  destruct (ascii_cell_index_range (strlen charset) (grid x y) HL Hb)
    as (k & Ek & Hk).
  assert (Ascii.element_idx (strlen charset) step (grid x y) = Ok k) as Eidx.
  { unfold ascii_cell_index in Ek. rewrite Hstep in Ek. exact Ek. }
  destruct (string_get_in_len charset (Z.to_nat k)) as (glyph & Eg).
  { unfold strlen in Hk. lia. }
  destruct (nth_error_in_len shades (k + 1) ltac:(lia)) as (c & Ec).
  destruct (cell_center_ok x cw Hx Hcw) as (fx & Ex).
  destruct (cell_center_ok y ch Hy Hch) as (fy & Ey).
  exists k, glyph, c, (PFloat fx), (PFloat fy).
  split; [exact Ek|]. split; [exact Hk|]. split; [exact Eg|].
  split; [exact Ec|]. split; [exact Ex|]. split; [exact Ey|].
  unfold Ascii.draw_cell.
  replace (strlen charset >? 0) with true by (symmetry; apply Z.gtb_lt; lia).
  unfold lift, emit, ret. rewrite Eidx, !iobind_ok. cbv beta.
  rewrite (str_get_nth charset k glyph ltac:(lia) Eg), !iobind_ok. cbv beta.
  rewrite (list_get_nth shades (k + 1) c ltac:(lia) Ec), !iobind_ok. cbv beta.
  rewrite andb_true_r.
  destruct (skip && (k =? 0) && Ascii.eqb glyph " "); [reflexivity|].
  rewrite Ex, !iobind_ok. cbv beta. rewrite Ey, !iobind_ok. cbv beta.
  rewrite ?iobind_ok. cbv beta. cbn [fst snd app].
  destruct (draw_text w fnt cv (PFloat fx) (PFloat fy) glyph c)
    as [cv'|[m| | | | | |[|]| |n]]; try (unfold iobind; reflexivity).
  destruct (Ascii.legacy_text_position w fnt glyph cw ch (PFloat fx)
              (PFloat fy)) as [[tx ty]|e].
  - rewrite !iobind_ok. cbv beta. rewrite ?iobind_ok. cbv beta.
    cbn [fst snd app].
    destruct (draw_text_legacy w fnt cv tx ty glyph c); reflexivity.
  - reflexivity.
Qed.

(** X9. One cell of the glyph loop, for a charset of [L >= 1] glyphs and a
    ramp of [L + 1] shades: the glyph is [charset[k]] and its color
    [shades[k + 1]] for the index [k] of the cell, so never the background
    shade; with the skip flag set a blank glyph of index 0 draws nothing;
    otherwise the glyph is drawn at the centre of the cell, a drawing
    error other than [TypeError] prints a warning and leaves the canvas as
    it was, and a [TypeError] that does not name the anchor is raised.  On
    a [TypeError] that names the anchor the handler computes the corner
    [(text_x, text_y)] from the metrics of the font and draws there
    without an anchor; what the metric calls or this second call raise is
    raised by the cell. *)
Theorem glyph_cell (w : world) (fnt : font) (charset : string)
    (shades : list color) (step : num) (skip : bool) (cw ch : Z)
    (grid : Z -> Z -> Z) (cv : canvas) (x y : Z) :
  1 <= strlen charset < 2 ^ 900 -> len shades = strlen charset + 1 ->
  Ascii.grayscale_step (strlen charset) = Ok step ->
  0 <= grid x y <= 255 ->
  0 <= x < 2 ^ 200 -> 0 <= y < 2 ^ 200 ->
  1 <= cw < 2 ^ 31 -> 1 <= ch < 2 ^ 31 ->
  exists k glyph c cx cy,
    ascii_cell_index (strlen charset) (grid x y) = Ok k /\
    0 <= k <= strlen charset - 1 /\
    String.get (Z.to_nat k) charset = Some glyph /\
    nth_error shades (Z.to_nat (k + 1)) = Some c /\
    (h <- truediv (PInt cw) (PInt 2) ;; add (PInt (x * cw)) h) = Ok cx /\
    (h <- truediv (PInt ch) (PInt 2) ;; add (PInt (y * ch)) h) = Ok cy /\
    Ascii.draw_cell w fnt charset shades (strlen charset) step skip cw ch grid
      cv (x, y)
    = if skip && (k =? 0) && Ascii.eqb glyph " "
      then ([], Ok cv)
      else match draw_text w fnt cv cx cy glyph c with
           | Ok cv' => ([DrawText cx cy glyph c], Ok cv')
           | Raise (TypeError true) =>
               match Ascii.legacy_text_position w fnt glyph cw ch cx cy with
               | Ok (tx, ty) =>
                   ([DrawText cx cy glyph c;
                     DrawTextUnanchored tx ty glyph c],
                    draw_text_legacy w fnt cv tx ty glyph c)
               | Raise e => ([DrawText cx cy glyph c], Raise e)
               end
           | Raise (TypeError false) =>
               ([DrawText cx cy glyph c], Raise (TypeError false))
           | Raise e =>
               ([DrawText cx cy glyph c; PrintDrawWarning glyph x y e], Ok cv)
           end.
Proof. exact (glyph_cell_stmt w fnt charset shades step skip cw ch grid cv x y). Qed.

Lemma glyph_cell_witness :
  exists k glyph c cx cy,
    ascii_cell_index (strlen " .:#") ((fun _ _ => 200) 0 0) = Ok k /\
    0 <= k <= strlen " .:#" - 1 /\
    String.get (Z.to_nat k) " .:#" = Some glyph /\
    nth_error [(6, 20, 17); (30, 90, 75); (68, 204, 170); (130, 221, 198);
               (226, 247, 242)] (Z.to_nat (k + 1)) = Some c /\
    (h <- truediv (PInt 8) (PInt 2) ;; add (PInt (0 * 8)) h) = Ok cx /\
    (h <- truediv (PInt 16) (PInt 2) ;; add (PInt (0 * 16)) h) = Ok cy /\
    Ascii.draw_cell sample_world (load_default sample_world) " .:#"
      [(6, 20, 17); (30, 90, 75); (68, 204, 170); (130, 221, 198);
       (226, 247, 242)] (strlen " .:#")
      (PFloat (S754_finite false 4503599627370496 (-46))) true 8 16
      (fun _ _ => 200) {| cwidth := 8; cheight := 16;
                          pixel := fun _ _ => (6, 20, 17) |} (0, 0)
    = if true && (k =? 0) && Ascii.eqb glyph " "
      then ([], Ok {| cwidth := 8; cheight := 16;
                      pixel := fun _ _ => (6, 20, 17) |})
      else match draw_text sample_world (load_default sample_world)
                   {| cwidth := 8; cheight := 16;
                      pixel := fun _ _ => (6, 20, 17) |} cx cy glyph c with
           | Ok cv' => ([DrawText cx cy glyph c], Ok cv')
           | Raise (TypeError true) =>
               match Ascii.legacy_text_position sample_world
                       (load_default sample_world) glyph 8 16 cx cy with
               | Ok (tx, ty) =>
                   ([DrawText cx cy glyph c;
                     DrawTextUnanchored tx ty glyph c],
                    draw_text_legacy sample_world (load_default sample_world)
                      {| cwidth := 8; cheight := 16;
                         pixel := fun _ _ => (6, 20, 17) |} tx ty glyph c)
               | Raise e => ([DrawText cx cy glyph c], Raise e)
               end
           | Raise (TypeError false) =>
               ([DrawText cx cy glyph c], Raise (TypeError false))
           | Raise e =>
               ([DrawText cx cy glyph c; PrintDrawWarning glyph 0 0 e],
                Ok {| cwidth := 8; cheight := 16;
                      pixel := fun _ _ => (6, 20, 17) |})
           end.
Proof.
  apply (glyph_cell sample_world (load_default sample_world) " .:#"
           [(6, 20, 17); (30, 90, 75); (68, 204, 170); (130, 221, 198);
            (226, 247, 242)]
           (PFloat (S754_finite false 4503599627370496 (-46))) true 8 16
           (fun _ _ => 200)
           {| cwidth := 8; cheight := 16; pixel := fun _ _ => (6, 20, 17) |}
           0 0).
  - split; [vm_compute; discriminate | reflexivity].
  - reflexivity.
  - reflexivity.
  - lia.
  - split; [lia | reflexivity].
  - split; [lia | reflexivity].
  - split; [lia | reflexivity].
  - split; [lia | reflexivity].
Defined.

(** ** A whole run of the glyph variant *)

Lemma int_of_float_bound (k : Z) (f : float) (z : Z) :
  0 <= k -> finite_below k f -> int_of_float f = Ok z -> Z.abs z < 2 ^ k.
Proof.
  intros Hk Hf E.
  assert (0 < 2 ^ k) as Hpos by (apply Z.pow_pos_nonneg; lia).
  destruct f as [s|s| |s m e]; cbn [finite_below int_of_float] in *;
    try contradiction.
  - injection E as <-. cbn. exact Hpos.
  - injection E as <-.
    pose proof (digits2_pos_bounds m) as [_ Hm].
    assert (0 <= Z.shiftl (Zpos m) e) as H0 by (apply Z.shiftl_nonneg; lia).
    assert (Z.shiftl (Zpos m) e < 2 ^ k) as H1.
    { destruct (Z.le_gt_cases 0 e) as [He|He].
      - rewrite Z.shiftl_mul_pow2 by lia.
        apply Z.lt_le_trans with (2 ^ Zpos (digits2_pos m) * 2 ^ e).
        + apply Z.mul_lt_mono_pos_r; [apply Z.pow_pos_nonneg; lia | exact Hm].
        + rewrite <- Z.pow_add_r by lia. apply Z.pow_le_mono_r; lia.
      - rewrite Z.shiftl_div_pow2 by lia.
        apply Z.div_lt_upper_bound; [apply Z.pow_pos_nonneg; lia|].
        rewrite <- Z.pow_add_r by lia.
        apply Z.lt_le_trans with (2 ^ Zpos (digits2_pos m)); [exact Hm|].
        apply Z.pow_le_mono_r; lia. }
    destruct s; cbn [cond_Zopp]; lia.
Qed.

(** The grid height of the glyph variant stays far below the range in
    which pixel coordinates stop being floats. *)
Lemma glyph_height_bound (w h W : Z) (c : float) :
  0 < w < 2 ^ 31 -> 0 <= h < 2 ^ 31 -> 0 <= W < 2 ^ 31 ->
  finite_between (-60) 60 c ->
  exists g, Ascii.output_grid_height_chars w h W (PFloat c) = Ok g /\
            1 <= g < 2 ^ 200.
Proof.
  intros Hw Hh HW Hc. unfold Ascii.output_grid_height_chars.
  replace (w >? 0) with true by (symmetry; apply Z.gtb_lt; lia).
  unfold truediv at 1.
  destruct (aspect_ok w h Hw Hh) as (a & Ea & Ha & _).
  rewrite Ea. cbn [bind mul to_float].
  destruct (float_of_int_ok W 31) as (x & Ex & Hx & _).
  { apply Zdigits2_lt_pow2; lia. }
  { lia. }
  rewrite Ex. cbn [bind truediv to_float].
  destruct (fmul_below 32 33 x a Hx Ha ltac:(lia)) as (Hp & _).
  destruct (float_div_ok _ _ _ _ _ Hp Hc ltac:(lia)) as (q & Eq & Hq & _).
  rewrite Eq. cbn [bind to_int].
  destruct (int_of_float_ok _ q Hq) as (z & Ez & _).
  rewrite Ez. cbn [bind].
  eexists. split; [reflexivity|].
  pose proof (int_of_float_bound 200 q z ltac:(lia)
                (finite_below_weaken _ 200 q Hq ltac:(lia)) Ez) as Hz.
  assert (1 < 2 ^ 200) by (apply Z.pow_gt_1; lia).
  destruct (z <? 1) eqn:E; [lia | apply Z.ltb_ge in E; lia].
Qed.

(** One cell, when drawing raises no [TypeError]: the loop goes on. *)
Lemma glyph_cell_total (w : world) (fnt : font) (charset : string)
    (shades : list color) (step : num) (skip : bool) (cw ch : Z)
    (grid : Z -> Z -> Z) (cv : canvas) (x y : Z) :
  1 <= strlen charset < 2 ^ 900 -> len shades = strlen charset + 1 ->
  Ascii.grayscale_step (strlen charset) = Ok step ->
  0 <= grid x y <= 255 ->
  0 <= x < 2 ^ 200 -> 0 <= y < 2 ^ 200 ->
  1 <= cw < 2 ^ 31 -> 1 <= ch < 2 ^ 31 ->
  (forall cv cx cy g c e,
     draw_text w fnt cv cx cy g c = Raise e -> is_TypeError e = false) ->
  exists out cv',
    Ascii.draw_cell w fnt charset shades (strlen charset) step skip cw ch grid
      cv (x, y) = (out, Ok cv') /\
    forallb cell_event out = true.
Proof.
  intros HL Hlen Hstep Hb Hx Hy Hcw Hch Hdraw.
  destruct (glyph_cell_stmt w fnt charset shades step skip cw ch grid cv x y
              HL Hlen Hstep Hb Hx Hy Hcw Hch)
    as (k & glyph & c & cx & cy & _ & _ & _ & _ & _ & _ & ->).
  destruct (skip && (k =? 0) && Ascii.eqb glyph " ").
  - exists [], cv. split; reflexivity.
  - destruct (draw_text w fnt cv cx cy glyph c) as [cv'|e] eqn:E.
    + eexists _, cv'. split; reflexivity.
    + pose proof (Hdraw _ _ _ _ _ _ E) as He.
      destruct e as [m| | | | | |b| |n]; try discriminate He;
        (eexists _, cv; split; reflexivity).
Qed.

Lemma glyph_fold_total (w : world) (fnt : font) (charset : string)
    (shades : list color) (step : num) (skip : bool) (cw ch : Z)
    (grid : Z -> Z -> Z) (l : list (Z * Z)) :
  1 <= strlen charset < 2 ^ 900 -> len shades = strlen charset + 1 ->
  Ascii.grayscale_step (strlen charset) = Ok step ->
  (forall x y, In (x, y) l ->
     0 <= grid x y <= 255 /\ 0 <= x < 2 ^ 200 /\ 0 <= y < 2 ^ 200) ->
  1 <= cw < 2 ^ 31 -> 1 <= ch < 2 ^ 31 ->
  (forall cv cx cy g c e,
     draw_text w fnt cv cx cy g c = Raise e -> is_TypeError e = false) ->
  forall cv, exists out cv',
    iofold (Ascii.draw_cell w fnt charset shades (strlen charset) step skip
              cw ch grid) l cv = (out, Ok cv') /\
    forallb cell_event out = true.
Proof.
  intros HL Hlen Hstep Hl Hcw Hch Hdraw.
  induction l as [|[x y] tl IH]; intros cv.
  - exists [], cv. split; reflexivity.
  - destruct (Hl x y (or_introl eq_refl)) as (Hb & Hx & Hy).
    destruct (glyph_cell_total w fnt charset shades step skip cw ch grid cv
                x y HL Hlen Hstep Hb Hx Hy Hcw Hch Hdraw)
      as (o1 & cv1 & E1 & Ho1).
    destruct (IH (fun x' y' H => Hl x' y' (or_intror H)) cv1)
      as (o2 & cv2 & E2 & Ho2).
    exists (o1 ++ o2), cv2. cbn [iofold]. rewrite E1, iobind_ok, E2.
    split; [reflexivity|]. rewrite forallb_app, Ho1, Ho2. reflexivity.
Qed.

Lemma ascii_grayscale_step_ok (L : Z) :
  1 <= L < 2 ^ 900 -> exists step, Ascii.grayscale_step L = Ok step.
Proof.
  intros HL.
  destruct (ascii_cell_index_range L 0 HL ltac:(lia)) as (k & Ek & _).
  unfold ascii_cell_index in Ek.
  destruct (Ascii.grayscale_step L) as [step|e]; [|discriminate].
  exists step. reflexivity.
Qed.

(** X10. A run of the glyph variant on a readable image, with the cell
    size given: when the font loads and drawing raises no [TypeError],
    the run draws the cells, saves the canvas once and returns, whatever
    else goes wrong while drawing; between opening the image and saving
    there are only calls of [draw.text] and warnings, and a failure to
    save is reported and not raised. *)
Theorem ascii_run_saves_canvas (w : world) (image_path hex_color : string)
    (width : Z) (charset : string) (font_path : option string)
    (font_size cw ch : Z) (cf : float) (posterize_bits : Z) (skip : bool)
    (output_path : string) (base : color) (fout : list event) (fnt : font)
    (img : source) (ow oh : Z) :
  hex_to_rgb hex_color = Ok base -> is_color base ->
  1 <= strlen charset < 2 ^ 900 ->
  Ascii.load_font w font_path font_size = (fout, Ok fnt) ->
  image_open w image_path = Ok img -> size img = (ow, oh) ->
  0 < ow < 2 ^ 31 -> 0 <= oh < 2 ^ 31 -> 0 <= width < 2 ^ 31 ->
  finite_between (-60) 60 cf -> 1 <= cw < 2 ^ 31 -> 1 <= ch < 2 ^ 31 ->
  (forall bits h, 1 <= h ->
     exists grid, gray_resized img bits width h = Ok grid /\
       forall x y, 0 <= x < width -> 0 <= y < h -> 0 <= grid x y <= 255) ->
  (forall cv cx cy g c e,
     draw_text w fnt cv cx cy g c = Raise e -> is_TypeError e = false) ->
  exists shades height out cv,
    Ascii.generate_shades base (strlen charset + 1)
      Ascii.bg_brightness_factor = Ok shades /\
    Ascii.output_grid_height_chars ow oh width (PFloat cf) = Ok height /\
    1 <= height /\
    forallb cell_event out = true /\
    Ascii.image_to_ascii_art w image_path hex_color width charset font_path
      font_size (Some cw) (Some ch) (PFloat cf) posterize_bits skip
      output_path
    = (fout ++ ImageOpen image_path :: out
         ++ [ImageSave output_path cv;
             match image_save w output_path cv with
             | Ok _ => PrintQuoted "ASCII-character style art saved to "
                         output_path ""
             | Raise e => PrintExn "Error saving image: " e
             end],
       Ok tt).
Proof.
  intros Hhex Hbase HL Hfont Hopen Hsize How Hoh Hwidth Hcf Hcw Hch Hgrid
    Hdraw.
  destruct (ascii_generate_shades_ok base (strlen charset + 1) Hbase
              ltac:(lia)) as (shades & Esh & Hlen & Hbg & _).
  destruct (glyph_height_bound ow oh width cf How Hoh Hwidth Hcf)
    as (height & Eh & Hh).
  set (bits := if (posterize_bits >? 0) && (posterize_bits <=? 8)
               then posterize_bits else 0).
  destruct (Hgrid bits height ltac:(lia)) as (grid & Eg & Hg).
  destruct (ascii_grayscale_step_ok (strlen charset) HL) as (step & Estep).
  assert (2 ^ 31 < 2 ^ 200) as Hpow by (apply Z.pow_lt_mono_r; lia).
  destruct (glyph_fold_total w fnt charset shades step skip cw ch grid
              (cells width height) HL Hlen Estep) with
    (cv := {| cwidth := width * cw; cheight := height * ch;
              pixel := fun _ _ => background base |})
    as (out & cv & Efold & Hout); try assumption.
  { intros x y Hin. apply in_cells in Hin. split; [apply Hg; lia | lia]. }
  exists shades, height, out, cv.
  split; [exact Esh|]. split; [exact Eh|]. split; [lia|].
  split; [exact Hout|].
  unfold Ascii.image_to_ascii_art, lift, emit.
  rewrite Hhex, !try_or_return_ok. cbv beta.
  replace (strlen charset =? 0) with false by (symmetry; apply Z.eqb_neq; lia).
  rewrite Esh, !try_or_return_ok. cbv beta.
  rewrite Hfont, !try_or_return_ok. cbv beta.
  destruct (char_estimate w fnt font_size) as [we he].
  rewrite !iobind_ok. cbv beta.
  replace (cw <=? 0) with false by (symmetry; apply Z.leb_gt; lia).
  replace (ch <=? 0) with false by (symmetry; apply Z.leb_gt; lia).
  rewrite Hopen. cbn [fst snd app]. rewrite !try_or_return_ok. cbv beta.
  rewrite Hsize. fold bits.
  rewrite Eh, !iobind_ok. cbv beta.
  rewrite Eg, !iobind_ok. cbv beta.
  rewrite (list_get_nth shades 0 (background base) ltac:(lia) Hbg).
  cbn [bind]. unfold image_new.
  replace ((width * cw <? 0) || (height * ch <? 0)) with false
    by (symmetry; apply orb_false_intro; apply Z.ltb_ge; nia).
  rewrite !iobind_ok. cbv beta.
  rewrite Estep, !iobind_ok. cbv beta.
  rewrite Efold, !iobind_ok. cbv beta. rewrite ?iobind_ok. cbv beta.
  destruct (image_save w output_path cv) as [u|e]; cbn [fst snd app];
    rewrite ?app_nil_r; reflexivity.
Qed.

Lemma ascii_run_saves_canvas_witness :
  exists shades height out cv,
    Ascii.generate_shades (68, 204, 170) (strlen " .:#" + 1)
      Ascii.bg_brightness_factor = Ok shades /\
    Ascii.output_grid_height_chars 1000 500 100 (PFloat f2_0) = Ok height /\
    1 <= height /\
    forallb cell_event out = true /\
    Ascii.image_to_ascii_art
      {| image_open := fun _ =>
           Ok {| size := (1000, 500);
                 gray_resized := fun _ _ _ => Ok (fun x y => 128) |};
         truetype := truetype sample_world;
         load_default := load_default sample_world;
         char_estimate := char_estimate sample_world;
         draw_text := draw_text sample_world;
         draw_text_legacy := draw_text_legacy sample_world;
         has_getbbox := has_getbbox sample_world;
         getbbox := getbbox sample_world;
         has_getsize := has_getsize sample_world;
         getsize := getsize sample_world;
         has_getmetrics := has_getmetrics sample_world;
         getmetrics := getmetrics sample_world;
         image_save := fun _ _ => Ok tt |}
      "in.png" "#44ccaa" 100 " .:#" None 15 (Some 8) (Some 16) (PFloat f2_0)
      0 true "out.png"
    = ([FontLoad "DejaVuSansMono.ttf" 15] ++ ImageOpen "in.png" :: out
         ++ [ImageSave "out.png" cv;
             match Ok tt with
             | Ok _ => PrintQuoted "ASCII-character style art saved to "
                         "out.png" ""
             | Raise e => PrintExn "Error saving image: " e
             end],
       Ok tt).
Proof.
  apply (ascii_run_saves_canvas
           {| image_open := fun _ =>
                Ok {| size := (1000, 500);
                      gray_resized := fun _ _ _ => Ok (fun x y => 128) |};
              truetype := truetype sample_world;
              load_default := load_default sample_world;
              char_estimate := char_estimate sample_world;
              draw_text := draw_text sample_world;
              draw_text_legacy := draw_text_legacy sample_world;
              has_getbbox := has_getbbox sample_world;
              getbbox := getbbox sample_world;
              has_getsize := has_getsize sample_world;
              getsize := getsize sample_world;
              has_getmetrics := has_getmetrics sample_world;
              getmetrics := getmetrics sample_world;
              image_save := fun _ _ => Ok tt |}
           "in.png" "#44ccaa" 100 " .:#" None 15 8 16 f2_0 0 true "out.png"
           (68, 204, 170) [FontLoad "DejaVuSansMono.ttf" 15]
           {| font_name := "DejaVuSansMono.ttf"; font_size := 15 |}
           {| size := (1000, 500);
              gray_resized := fun _ _ _ => Ok (fun x y => 128) |}
           1000 500).
  - reflexivity.
  - exact sample_is_color.
  - split; [vm_compute; discriminate | reflexivity].
  - reflexivity.
  - reflexivity.
  - reflexivity.
  - split; [lia | reflexivity].
  - split; [lia | reflexivity].
  - split; [lia | reflexivity].
  - cbn. lia.
  - split; [lia | reflexivity].
  - split; [lia | reflexivity].
  - intros bits h Hh. exists (fun _ _ => 128). split; [reflexivity|].
    intros; lia.
  - intros cv cx cy g c e H. injection H as <-. reflexivity.
Defined.

(** ** What [hex_to_rgb] can return *)

Lemma all_ascii_in (c : ascii) : In c all_ascii.
Proof.
  unfold all_ascii. rewrite <- (ascii_nat_embedding c).
  apply in_map. apply in_seq. pose proof (nat_ascii_bounded c). lia.
Qed.

Lemma pair_check_all :
  forallb (fun a => forallb (pair_check a) all_ascii) all_ascii = true.
Proof. vm_compute. reflexivity. Qed.

Lemma is_char_minus (c : ascii) : is_char 45 c = true -> c = "-"%char.
Proof.
  destruct c as [[] [] [] [] [] [] [] []]; vm_compute; intros H;
    (discriminate H || reflexivity).
Qed.

Lemma int16_pair_range (a b : ascii) (v : Z) :
  int16 (String a (String b EmptyString)) = Ok v ->
  -15 <= v <= 255 /\ (v < 0 -> a = "-"%char).
Proof.
  intros E. pose proof pair_check_all as H.
  rewrite forallb_forall in H. specialize (H a (all_ascii_in a)).
  rewrite forallb_forall in H. specialize (H b (all_ascii_in b)).
  unfold pair_check in H. rewrite E in H.
  rewrite !andb_true_iff, orb_true_iff, !Z.leb_le in H.
  destruct H as [[H1 H2] H3]. split; [lia|].
  intros Hneg. destruct H3 as [H3|H3]; [lia | apply is_char_minus; exact H3].
Qed.

Lemma six_chars (s : string) :
  strlen s = 6 ->
  exists c1 c2 c3 c4 c5 c6,
    s = String c1 (String c2 (String c3 (String c4 (String c5
          (String c6 EmptyString))))).
Proof.
  unfold strlen. intros H.
  destruct s as [|c1 [|c2 [|c3 [|c4 [|c5 [|c6 [|c7 s]]]]]]];
    cbn [String.length] in H; try lia.
  exists c1, c2, c3, c4, c5, c6. reflexivity.
Qed.

(** X11. Whatever color [hex_to_rgb] returns has its three channels in
    [[-15, 255]], and a channel is negative only when its two characters
    start with a minus sign: without one, an accepted string gives an
    8-bit color. *)
Theorem hex_to_rgb_channel_range (s : string) (r g b : Z) :
  hex_to_rgb s = Ok (r, g, b) ->
  (-15 <= r <= 255 /\ -15 <= g <= 255 /\ -15 <= b <= 255) /\
  (r < 0 -> String.get 0 (lstrip_hash s) = Some "-"%char) /\
  (g < 0 -> String.get 2 (lstrip_hash s) = Some "-"%char) /\
  (b < 0 -> String.get 4 (lstrip_hash s) = Some "-"%char).
Proof.
  unfold hex_to_rgb.
  destruct (strlen (lstrip_hash s) =? 6) eqn:Elen; cbn [negb];
    [|discriminate].
  apply Z.eqb_eq in Elen.
  destruct (six_chars _ Elen) as (c1 & c2 & c3 & c4 & c5 & c6 & ->).
  unfold slice2. cbn [substring String.get].
  destruct (int16 (String c1 (String c2 EmptyString))) as [r'|e] eqn:Er;
    cbn [bind]; [|discriminate].
  destruct (int16 (String c3 (String c4 EmptyString))) as [g'|e] eqn:Eg;
    cbn [bind]; [|discriminate].
  destruct (int16 (String c5 (String c6 EmptyString))) as [b'|e] eqn:Eb;
    cbn [bind]; [|discriminate].
  intros H. injection H as -> -> ->.
  destruct (int16_pair_range _ _ _ Er) as [Hr Hr'].
  destruct (int16_pair_range _ _ _ Eg) as [Hg Hg'].
  destruct (int16_pair_range _ _ _ Eb) as [Hb Hb'].
  split; [lia|].
  split; [intros H; rewrite (Hr' H); reflexivity|].
  split; [intros H; rewrite (Hg' H); reflexivity|].
  intros H; rewrite (Hb' H); reflexivity.
Qed.

Lemma hex_to_rgb_channel_range_witness :
  (-15 <= 68 <= 255 /\ -15 <= 204 <= 255 /\ -15 <= 170 <= 255) /\
  (68 < 0 -> String.get 0 (lstrip_hash "#44ccaa") = Some "-"%char) /\
  (204 < 0 -> String.get 2 (lstrip_hash "#44ccaa") = Some "-"%char) /\
  (170 < 0 -> String.get 4 (lstrip_hash "#44ccaa") = Some "-"%char).
Proof.
  apply (hex_to_rgb_channel_range "#44ccaa" 68 204 170). reflexivity.
Defined.

(** ** Every color has a string *)

Lemma hex2_check_all : forallb hex2_check (range 256) = true.
Proof. vm_compute. reflexivity. Qed.

Lemma hex2_facts (v : Z) :
  is_channel v ->
  exists a b, hex2 v = String a (String b EmptyString) /\
              is_hex_digit a = true /\ is_hex_digit b = true /\
              int16 (String a (String b EmptyString)) = Ok v.
Proof.
  intros Hv. pose proof hex2_check_all as H.
  rewrite forallb_forall in H. specialize (H v).
  rewrite in_range in H. specialize (H ltac:(unfold is_channel in Hv; lia)).
  unfold hex2_check in H.
  destruct (hex2 v) as [|a [|b [|c t]]] eqn:E; try discriminate H.
  rewrite !andb_true_iff in H. destruct H as [[Ha Hb] Hi].
  exists a, b. split; [reflexivity|]. split; [exact Ha|].
  split; [exact Hb|]. apply result_is_eq. exact Hi.
Qed.

(** X12. Every 8-bit color is what [hex_to_rgb] returns on some string of
    six hexadecimal digits, with or without a [#] in front. *)
Theorem every_color_has_a_string (c : color) :
  is_color c ->
  exists s, six_hex_digits s = true /\ hex_to_rgb s = Ok c /\
            hex_to_rgb (String "#" s) = Ok c.
Proof.
  destruct c as [[r g] b]. intros (Hr & Hg & Hb).
  destruct (hex2_facts r Hr) as (r1 & r2 & _ & Hr1 & Hr2 & Er).
  destruct (hex2_facts g Hg) as (g1 & g2 & _ & Hg1 & Hg2 & Eg).
  destruct (hex2_facts b Hb) as (b1 & b2 & _ & Hb1 & Hb2 & Eb).
  set (s := String r1 (String r2 (String g1 (String g2 (String b1
              (String b2 EmptyString)))))).
  assert (hex_to_rgb s = Ok (r, g, b)) as E.
  { destruct (hex_digit_facts r1 Hr1) as (_ & _ & _ & _ & Hh & _).
    unfold hex_to_rgb, s. cbn [lstrip_hash]. rewrite Hh.
    change (strlen (String r1 (String r2 (String g1 (String g2 (String b1
              (String b2 EmptyString)))))) =? 6) with true.
    cbn [negb]. unfold slice2. cbn [substring].
    rewrite Er, Eg, Eb. reflexivity. }
  exists s. split; [|split; [exact E|]].
  - unfold six_hex_digits, s.
    change (strlen (String r1 (String r2 (String g1 (String g2 (String b1
              (String b2 EmptyString)))))) =? 6) with true.
    cbn [list_ascii_of_string forallb andb].
    rewrite Hr1, Hr2, Hg1, Hg2, Hb1, Hb2. reflexivity.
  - exact (eq_trans (hex_to_rgb_hashes 1 s) E).
Qed.

Lemma every_color_has_a_string_witness :
  exists s, six_hex_digits s = true /\ hex_to_rgb s = Ok (68, 204, 170) /\
            hex_to_rgb (String "#" s) = Ok (68, 204, 170).
Proof. apply (every_color_has_a_string (68, 204, 170) sample_is_color). Defined.

(** ** Runs that end before the image is read *)

(** X13. Too few levels end a run with one message.  A shade count below
    2 makes either [generate_shades] raise [ValueError] before it computes
    or prints anything; the block variant's driver prints the message and
    returns.  The glyph variant's driver never asks for fewer than 2
    shades: an empty character set ends it with its own message, and any
    other character set asks for at least 2. *)
Theorem too_few_levels_end_run (w : world) (image_path hex_color : string)
    (width N cell_width cell_height : Z) (output_path : string) (c k : num)
    (font_path : option string) (font_size : Z)
    (cell_width_px cell_height_px : option Z) (posterize_bits : Z)
    (skip : bool) (base : color) :
  hex_to_rgb hex_color = Ok base -> N < 2 ->
  Shader.generate_shades base N k
  = ([], Raise (ValueError (Text "Number of shades must be at least 2."))) /\
  Ascii.generate_shades base N k
  = Raise (ValueError (Text
      "Total number of shades must be at least 2 (background + one foreground).")) /\
  Shader.image_to_ascii_art w image_path hex_color width N cell_width
    cell_height output_path c
  = ([PrintExn "Error: "
        (ValueError (Text "Number of shades must be at least 2."))], Ok tt) /\
  Ascii.image_to_ascii_art w image_path hex_color width EmptyString
    font_path font_size cell_width_px cell_height_px c posterize_bits skip
    output_path
  = ([Print "Error: Character set cannot be empty."], Ok tt) /\
  (forall charset, charset <> EmptyString -> 2 <= strlen charset + 1).
Proof.
  intros Hhex HN.
  split; [|split; [|split; [|split]]].
  - unfold Shader.generate_shades.
    replace (N <? 2) with true by (symmetry; apply Z.ltb_lt; lia).
    reflexivity.
  - apply ascii_generate_shades_few. exact HN.
  - eapply shader_driver_few_shades; eassumption.
  - eapply ascii_driver_empty_charset; eassumption.
  - intros [|a s] Hs; [congruence|]. unfold strlen. cbn [String.length]. lia.
Qed.

Lemma too_few_levels_end_run_witness :
  Shader.generate_shades (68, 204, 170) 1 Shader.bg_brightness_factor
  = ([], Raise (ValueError (Text "Number of shades must be at least 2."))) /\
  Ascii.generate_shades (68, 204, 170) 1 Shader.bg_brightness_factor
  = Raise (ValueError (Text
      "Total number of shades must be at least 2 (background + one foreground).")) /\
  Shader.image_to_ascii_art sample_world "in.png" "#44ccaa" 80 1 10 16
    "out.png" (PFloat f0_5)
  = ([PrintExn "Error: "
        (ValueError (Text "Number of shades must be at least 2."))], Ok tt) /\
  Ascii.image_to_ascii_art sample_world "in.png" "#44ccaa" 80 EmptyString
    None 15 None None (PFloat f0_5) 0 true "out.png"
  = ([Print "Error: Character set cannot be empty."], Ok tt) /\
  (forall charset, charset <> EmptyString -> 2 <= strlen charset + 1).
Proof.
  apply (too_few_levels_end_run sample_world "in.png" "#44ccaa" 80 1 10 16
           "out.png" (PFloat f0_5) Shader.bg_brightness_factor None 15 None
           None 0 true (68, 204, 170)).
  - reflexivity.
  - lia.
Defined.

(** X14. In the glyph variant the font is loaded before the image is
    opened, and an image that cannot be opened ends the run after the
    font events with a message and without a save: the not-found message
    for [FileNotFoundError], [Error opening image: ] with the exception
    for anything else.  Nothing is raised. *)
Theorem ascii_image_open_failure (w : world) (image_path hex_color : string)
    (width : Z) (charset : string) (font_path : option string)
    (font_size cw ch : Z) (c : num) (posterize_bits : Z) (skip : bool)
    (output_path : string) (base : color) (fout : list event) (fnt : font)
    (e : exn) :
  hex_to_rgb hex_color = Ok base -> is_color base ->
  charset <> EmptyString ->
  Ascii.load_font w font_path font_size = (fout, Ok fnt) ->
  image_open w image_path = Raise e ->
  Ascii.image_to_ascii_art w image_path hex_color width charset font_path
    font_size (Some cw) (Some ch) c posterize_bits skip output_path
  = (fout ++ [ImageOpen image_path;
              if is_FileNotFoundError e
              then PrintQuoted "Error: Input image file not found at "
                     image_path ""
              else PrintExn "Error opening image: " e],
     Ok tt).
Proof.
  intros Hhex Hbase Hcs Hfont Hopen.
  assert (1 <= strlen charset) as HL.
  { destruct charset as [|a s]; [congruence|].
    unfold strlen. cbn [String.length]. lia. }
  destruct (ascii_generate_shades_ok base (strlen charset + 1) Hbase
              ltac:(lia)) as (shades & Esh & _).
  unfold Ascii.image_to_ascii_art, lift, emit.
  rewrite Hhex, !try_or_return_ok. cbv beta.
  replace (strlen charset =? 0) with false by (symmetry; apply Z.eqb_neq; lia).
  rewrite Esh, !try_or_return_ok. cbv beta.
  rewrite Hfont, !try_or_return_ok. cbv beta.
  destruct (char_estimate w fnt font_size) as [we he].
  rewrite !iobind_ok. cbv beta.
  rewrite Hopen. unfold try_or_return, iobind. cbn [fst snd app].
  destruct (is_FileNotFoundError e); cbn [fst snd app]; reflexivity.
Qed.

Lemma ascii_image_open_failure_witness :
  Ascii.image_to_ascii_art sample_world "in.png" "#44ccaa" 80 " .:#" None
    15 (Some 8) (Some 16) (PFloat f2_0) 0 true "out.png"
  = ([FontLoad "DejaVuSansMono.ttf" 15]
       ++ [ImageOpen "in.png";
           if is_FileNotFoundError FileNotFoundError
           then PrintQuoted "Error: Input image file not found at "
                  "in.png" ""
           else PrintExn "Error opening image: " FileNotFoundError],
     Ok tt).
Proof.
  apply (ascii_image_open_failure sample_world "in.png" "#44ccaa" 80 " .:#"
           None 15 8 16 (PFloat f2_0) 0 true "out.png" (68, 204, 170)
           [FontLoad "DejaVuSansMono.ttf" 15]
           {| font_name := "DejaVuSansMono.ttf"; font_size := 15 |}
           FileNotFoundError).
  - reflexivity.
  - exact sample_is_color.
  - discriminate.
  - reflexivity.
  - reflexivity.
Defined.

(** ** The command line *)

Lemma iobind_lift_ok {A B : Type} (a : A) (k : A -> io B) :
  iobind (lift (Ok a)) k = k a.
Proof. unfold iobind, lift. destruct (k a). reflexivity. Qed.

(** Every attribute lookup on a namespace whose names are known is
    evaluated. *)
Ltac resolve_getattr :=
  repeat match goal with
         | |- context [getattr ?ns ?name] =>
             let r := eval vm_compute in (getattr ns name) in
             change (getattr ns name) with r
         end.

Lemma parse_result_cons (a : argument) (p : list argument) (ns : namespace) :
  parse_result (a :: p) ns ->
  exists v ns', ns = (fst a, v) :: ns' /\ snd a v = true /\ parse_result p ns'.
Proof.
  intros H. inversion H as [|a' [k v] p' ns' [Hk Hv] Hrest]; subst.
  cbn [fst snd] in Hk, Hv. subst k.
  exists v, ns'. split; [reflexivity|]. split; assumption.
Qed.

Lemma parse_result_nil (ns : namespace) : parse_result [] ns -> ns = [].
Proof. intros H. inversion H. reflexivity. Qed.

Lemma ascii_namespace (ns : namespace) :
  parse_result ascii_parser ns ->
  exists v1 v2 v3 v4 v5 v6 v7 v8 v9 v10 v11,
    ns = [("image_path"%string, v1); ("hex_color"%string, v2);
          ("width_chars"%string, v3); ("charset"%string, v4);
          ("font_path"%string, v5); ("font_size"%string, v6);
          ("cell_width_px"%string, v7); ("cell_height_px"%string, v8);
          ("aspect_ratio_correction"%string, v9);
          ("skip_lightest_if_space"%string, v10); ("output"%string, v11)].
Proof.
  unfold ascii_parser. intros H.
  repeat (apply parse_result_cons in H;
          destruct H as (? & ? & -> & _ & H); cbn [fst] in * ).
  apply parse_result_nil in H. subst.
  do 11 eexists. reflexivity.
Qed.

Lemma is_str_inv (v : value) : is_str v = true -> exists s, v = VStr s.
Proof. destruct v; try discriminate. intros _. eexists. reflexivity. Qed.

Lemma is_int_inv (v : value) : is_int v = true -> exists z, v = VInt z.
Proof. destruct v; try discriminate. intros _. eexists. reflexivity. Qed.

Lemma is_float_inv (v : value) : is_float v = true -> exists f, v = VFloat f.
Proof. destruct v; try discriminate. intros _. eexists. reflexivity. Qed.

Lemma shader_namespace (ns : namespace) :
  parse_result shader_parser ns ->
  exists image_path hex_color width shades cell_width cell_height ar output,
    ns = [("image_path"%string, VStr image_path);
          ("hex_color"%string, VStr hex_color);
          ("width"%string, VInt width); ("shades"%string, VInt shades);
          ("cell_width"%string, VInt cell_width);
          ("cell_height"%string, VInt cell_height);
          ("aspect_ratio_correction"%string, VFloat ar);
          ("output"%string, VStr output)].
Proof.
  unfold shader_parser. intros H.
  apply parse_result_cons in H. destruct H as (v1 & ? & -> & H1 & H).
  apply parse_result_cons in H. destruct H as (v2 & ? & -> & H2 & H).
  apply parse_result_cons in H. destruct H as (v3 & ? & -> & H3 & H).
  apply parse_result_cons in H. destruct H as (v4 & ? & -> & H4 & H).
  apply parse_result_cons in H. destruct H as (v5 & ? & -> & H5 & H).
  apply parse_result_cons in H. destruct H as (v6 & ? & -> & H6 & H).
  apply parse_result_cons in H. destruct H as (v7 & ? & -> & H7 & H).
  apply parse_result_cons in H. destruct H as (v8 & ? & -> & H8 & H).
  apply parse_result_nil in H. subst. cbn [fst snd] in *.
  apply is_str_inv in H1, H2, H8. apply is_int_inv in H3, H4, H5, H6.
  apply is_float_inv in H7.
  destruct H1 as (s1 & ->). destruct H2 as (s2 & ->).
  destruct H3 as (z3 & ->). destruct H4 as (z4 & ->).
  destruct H5 as (z5 & ->). destruct H6 as (z6 & ->).
  destruct H7 as (f7 & ->). destruct H8 as (s8 & ->).
  exists s1, s2, z3, z4, z5, z6, f7, s8. reflexivity.
Qed.

(** X15. The glyph script cannot be run from the command line: its
    [__main__] block reads [args.posterize_bits], an attribute its parser
    never declares, so on every namespace [parse_args] can return the call
    raises [AttributeError] before the driver runs; nothing is printed,
    opened or saved.  The block script reads only attributes its parser
    declares, and calls its driver with them. *)
Theorem command_line_entry (w : world) :
  (forall args, parse_result ascii_parser args ->
     ascii_main w args = ([], Raise AttributeError)) /\
  (forall args, parse_result shader_parser args ->
     exists image_path hex_color width shades cell_width cell_height ar
            output,
       getattr args "image_path" = Ok (VStr image_path) /\
       getattr args "hex_color" = Ok (VStr hex_color) /\
       getattr args "width" = Ok (VInt width) /\
       getattr args "shades" = Ok (VInt shades) /\
       getattr args "cell_width" = Ok (VInt cell_width) /\
       getattr args "cell_height" = Ok (VInt cell_height) /\
       getattr args "aspect_ratio_correction" = Ok (VFloat ar) /\
       getattr args "output" = Ok (VStr output) /\
       shader_main w args
       = Shader.image_to_ascii_art w image_path hex_color width shades
           cell_width cell_height output (PFloat ar)).
Proof.
  split.
  - intros args H.
    destruct (ascii_namespace args H)
      as (v1 & v2 & v3 & v4 & v5 & v6 & v7 & v8 & v9 & v10 & v11 & ->).
    unfold ascii_main. resolve_getattr.
    repeat (rewrite iobind_lift_ok; cbv beta).
    reflexivity.
  - intros args H.
    destruct (shader_namespace args H)
      as (ip & hc & wd & sh & cw & ch & ar & out & ->).
    exists ip, hc, wd, sh, cw, ch, ar, out.
    repeat (split; [reflexivity|]).
    unfold shader_main. resolve_getattr.
    repeat (rewrite iobind_lift_ok; cbv beta).
    cbn [as_str as_int as_num].
    repeat (rewrite iobind_lift_ok; cbv beta).
    reflexivity.
Qed.

Lemma command_line_entry_witness :
  ascii_main sample_world
    [("image_path"%string, VStr "in.png"); ("hex_color"%string, VStr "#44ccaa");
     ("width_chars"%string, VInt 80); ("charset"%string, VStr " .:-=+*#%@$");
     ("font_path"%string, VNone); ("font_size"%string, VInt 15);
     ("cell_width_px"%string, VNone); ("cell_height_px"%string, VNone);
     ("aspect_ratio_correction"%string, VInt 2);
     ("skip_lightest_if_space"%string, VBool true);
     ("output"%string, VStr "char_art_output.png")]
  = ([], Raise AttributeError).
Proof.
  apply (proj1 (command_line_entry sample_world)).
  unfold parse_result, ascii_parser.
  repeat (apply Forall2_cons; [split; reflexivity|]).
  apply Forall2_nil.
Defined.

(** ** A source image of width zero *)

(** X16. For a source image of width 0 the grid height of the block
    variant raises [ZeroDivisionError], whatever the other arguments; the
    glyph variant guards the division and computes the grid height of a
    square image. *)
Theorem zero_width_source (h W : Z) (c : num) :
  Shader.height 0 h W c = Raise ZeroDivisionError /\
  forall side, 0 < side ->
    Ascii.output_grid_height_chars 0 h W c
    = Ascii.output_grid_height_chars side side W c.
Proof.
  split; [reflexivity|].
  intros side Hside. unfold Ascii.output_grid_height_chars.
  replace (side >? 0) with true by (symmetry; apply Z.gtb_lt; lia).
  change (0 >? 0) with false. cbv iota.
  cbn [truediv]. rewrite (int_truediv_self side Hside). reflexivity.
Qed.

Lemma zero_width_source_witness :
  Ascii.output_grid_height_chars 0 500 100 (PFloat f0_5)
  = Ascii.output_grid_height_chars 7 7 100 (PFloat f0_5).
Proof.
  apply (proj2 (zero_width_source 500 100 (PFloat f0_5)) 7). lia.
Defined.
